(** * brimtext: a shallow embedding of the text helpers, the word wrapper
    and the table aligner, with the properties stated about them.

    Go strings and byte slices are sequences of 8-bit bytes; they are
    modelled as [list ascii].  Go's [int] values that take part in
    comparisons or subtractions are modelled in [Z]; slice indices and
    lengths, which are never negative, in [nat]. *)

From Stdlib Require Import Ascii String List ZArith NArith Lia Bool Arith.
From Stdlib Require Import Permutation.
Import ListNotations.

Local Open Scope Z_scope.

(** ** Bytes and strings *)

Definition bytes := list ascii.

(** A literal: [bs "abc"] is the byte sequence of the Go literal "abc". *)
Definition bs (s : string) : bytes := list_ascii_of_string s.

Definition LF : ascii := ascii_of_nat 10.
Definition CR : ascii := ascii_of_nat 13.
Definition ESC : ascii := ascii_of_nat 27.
Definition SP : ascii := ascii_of_nat 32.
Definition COMMA : ascii := ascii_of_nat 44.
Definition MINUS : ascii := ascii_of_nat 45.
Definition LOWER_M : ascii := ascii_of_nat 109.

Definition len (s : bytes) : Z := Z.of_nat (length s).

Definition bytes_eqb (a b : bytes) : bool :=
  if list_eq_dec ascii_dec a b then true else false.

(** ** Outcomes of a call

    A Go call either returns, panics (index out of range) or never
    returns (a loop whose state stops changing). *)

Inductive result (A : Type) : Type :=
| Ok (a : A)
| Panic
| Hang.

Arguments Ok {A} a.
Arguments Panic {A}.
Arguments Hang {A}.

Definition bind {A B : Type} (m : result A) (k : A -> result B) : result B :=
  match m with
  | Ok a => k a
  | Panic => Panic
  | Hang => Hang
  end.

Notation "x <- m ;; k" := (bind m (fun x => k))
  (at level 61, m at next level, right associativity).

Fixpoint foldM {A B : Type} (f : A -> B -> result A) (l : list B) (a : A)
  : result A :=
  match l with
  | [] => Ok a
  | b :: l' => a' <- f a b ;; foldM f l' a'
  end.

(** ** The parts of Go's standard library the package calls *)

(** [bytes.HasPrefix]. *)
Fixpoint has_prefix (p s : bytes) : bool :=
  match p, s with
  | [], _ => true
  | _ :: _, [] => false
  | a :: p', b :: s' => if ascii_dec a b then has_prefix p' s' else false
  end.

(** [bytes.Replace(s, old, new, -1)] and [strings.Replace] for a non-empty
    [old]: every non-overlapping occurrence, found left to right, is
    replaced.  [skip] counts the bytes of a matched occurrence that are
    still to be passed over. *)
Fixpoint replace_from (old new : bytes) (skip : nat) (s : bytes) : bytes :=
  match s with
  | [] => []
  | b :: s' =>
      match skip with
      | S k => replace_from old new k s'
      | O =>
          if has_prefix old s
          then new ++ replace_from old new (length old - 1) s'
          else b :: replace_from old new 0 s'
      end
  end.

Definition Replace (s old new : bytes) : bytes := replace_from old new 0 s.

(** [bytes.Split(s, sep)] and [strings.Split] for a non-empty [sep]: the
    pieces between non-overlapping occurrences of [sep], found left to
    right; always at least one piece.  [cur] holds the current piece in
    reverse. *)
Fixpoint split_from (sep : bytes) (skip : nat) (cur : bytes) (s : bytes)
  : list bytes :=
  match s with
  | [] => [rev cur]
  | b :: s' =>
      match skip with
      | S k => split_from sep k cur s'
      | O =>
          if has_prefix sep s
          then rev cur :: split_from sep (length sep - 1) [] s'
          else split_from sep 0 (b :: cur) s'
      end
  end.

Definition Split (s sep : bytes) : list bytes := split_from sep 0 [] s.

(** [bytes.IndexByte]: the first index of [c], [None] for Go's -1. *)
Fixpoint IndexByte (s : bytes) (c : ascii) : option nat :=
  match s with
  | [] => None
  | b :: s' =>
      if ascii_dec b c then Some O
      else match IndexByte s' c with
           | Some i => Some (S i)
           | None => None
           end
  end.

(** [bytes.Trim(s, "\n")]: leading and trailing line feeds removed. *)
Fixpoint trim_left_lf (s : bytes) : bytes :=
  match s with
  | [] => []
  | b :: s' => if ascii_dec b LF then trim_left_lf s' else s
  end.

Definition TrimLF (s : bytes) : bytes :=
  rev (trim_left_lf (rev (trim_left_lf s))).

(** Package [strconv]. *)
Module strconv.

(** [strconv.FormatUint(v, 10)]: the decimal digits, most significant
    first, "0" for zero. *)
Definition digit (d : Z) : ascii := ascii_of_nat (48 + Z.to_nat d).

Fixpoint format_digits (fuel : nat) (v : Z) (acc : bytes) : bytes :=
  match fuel with
  | O => acc
  | S f =>
      let acc' := digit (v mod 10) :: acc in
      if v / 10 =? 0 then acc' else format_digits f (v / 10) acc'
  end.

Definition FormatUint (v : Z) : bytes :=
  format_digits (S (Z.to_nat (Z.log2 v))) v [].

(** [strconv.FormatInt(v, 10)]: a minus sign before the digits of the
    magnitude of a negative value. *)
Definition FormatInt (v : Z) : bytes :=
  if v <? 0 then MINUS :: FormatUint (- v) else FormatUint v.

End strconv.

(** ** ThousandsSep and ThousandsSepU

<<
  for i := len(s) - 3; i > 0; i -= 3 {
      s = s[:i] + "," + s[i:]
  }
>>
    The loop runs at most [len(s)] times.  The [sep] argument is taken
    and, as in the source, not used. *)
Fixpoint thousands_loop (fuel : nat) (i : Z) (s : bytes) : bytes :=
  match fuel with
  | O => s
  | S f =>
      if 0 <? i
      then thousands_loop f (i - 3)
             (firstn (Z.to_nat i) s ++ [COMMA] ++ skipn (Z.to_nat i) s)
      else s
  end.

Definition thousands (s : bytes) : bytes :=
  thousands_loop (length s) (len s - 3) s.

Definition ThousandsSep (v : Z) (sep : bytes) : bytes :=
  thousands (strconv.FormatInt v).

Definition ThousandsSepU (v : Z) (sep : bytes) : bytes :=
  thousands (strconv.FormatUint v).

(** Package [unicode/utf8]. *)
Module utf8.

(** [utf8.RuneCountInString].  [first_byte] is the library's table
    [first]: for a leading byte, the length of the encoding it announces
    and the range accepted for the second byte; [None] is the table's
    [xx] (not a leading byte).  Every other continuation byte must lie in
    0x80..0xBF.  A byte that does not start a well-formed encoding counts
    as one rune of one byte. *)
Definition byte_val (c : ascii) : N := N_of_ascii c.

Definition first_byte (c : N) : option (nat * (N * N)) :=
  (if c <? 194 then None                      (* 0x80..0xC1 *)
   else if c <? 224 then Some (2%nat, (128, 191)) (* 0xC2..0xDF *)
   else if c =? 224 then Some (3%nat, (160, 191)) (* 0xE0 *)
   else if c <? 237 then Some (3%nat, (128, 191)) (* 0xE1..0xEC *)
   else if c =? 237 then Some (3%nat, (128, 159)) (* 0xED *)
   else if c <? 240 then Some (3%nat, (128, 191)) (* 0xEE..0xEF *)
   else if c =? 240 then Some (4%nat, (144, 191)) (* 0xF0 *)
   else if c <? 244 then Some (4%nat, (128, 191)) (* 0xF1..0xF3 *)
   else if c =? 244 then Some (4%nat, (128, 143)) (* 0xF4 *)
   else None)%N.

Definition outside (lo hi : N) (c : ascii) : bool :=
  ((byte_val c <? lo) || (hi <? byte_val c))%N.

(** The number of bytes the loop of [RuneCountInString] advances by at the
    head of [s]. *)
Definition rune_size (s : bytes) : nat :=
  match s with
  | [] => 0%nat
  | c :: rest =>
      if (byte_val c <? 128)%N then 1%nat
      else
        match first_byte (byte_val c) with
        | None => 1%nat
        | Some (size, (lo, hi)) =>
            if (length s <? size)%nat then 1%nat
            else
              match rest with
              | [] => 1%nat
              | c1 :: rest1 =>
                  if outside lo hi c1 then 1%nat
                  else if (size =? 2)%nat then 2%nat
                  else
                    match rest1 with
                    | [] => 1%nat
                    | c2 :: rest2 =>
                        if outside 128 191 c2 then 1%nat
                        else if (size =? 3)%nat then 3%nat
                        else
                          match rest2 with
                          | [] => 1%nat
                          | c3 :: _ =>
                              if outside 128 191 c3 then 1%nat else 4%nat
                          end
                    end
              end
        end
  end.

(** [skip] is the number of bytes of the current rune still to pass. *)
Fixpoint rune_count_from (skip : nat) (s : bytes) : nat :=
  match s with
  | [] => 0%nat
  | _ :: s' =>
      match skip with
      | S k => rune_count_from k s'
      | O => S (rune_count_from (rune_size s - 1) s')
      end
  end.

Definition RuneCountInString (s : bytes) : Z :=
  Z.of_nat (rune_count_from 0 s).

End utf8.

(** ** terminal.go: the ambient terminal width

    What [GetTTYWidth] reads from its environment: whether /dev/tty can
    be opened, and what [terminal.GetSize] answers for it and for the
    standard output ([None]: the query fails). *)
Record Env : Type := {
  tty_opens : bool;
  tty_size : option Z;
  stdout_size : option Z
}.

Definition GetTTYWidth (e : Env) : Z :=
  let size := if tty_opens e then tty_size e else stdout_size e in
  match size with
  | None => 80
  | Some width => width
  end.

(** Go's [int] is 64 bits wide here; arithmetic wraps around. *)
Definition int_wrap (z : Z) : Z := (z + 2 ^ 63) mod 2 ^ 64 - 2 ^ 63.

(** ** wrap and Wrap *)

(** One pass through the loop that discounts escape sequences:
<<
  for len(scan) > 1 {
      i := bytes.IndexByte(scan, '\x1b')
      if i == -1 { break }
      j := bytes.IndexByte(scan[i+1:], 'm')
      if j == -1 { i++ } else { j += 2; wordLen -= j; scan = scan[i+j:] }
  }
>>
    [inr n]: the loop is left with [wordLen = n]; [inl st]: the loop goes
    round again in state [st].  [i] is declared afresh in every pass, so
    [i++] changes nothing that the next pass sees. *)
Definition scan_state : Type := bytes * Z.

Definition scan_pass (st : scan_state) : scan_state + Z :=
  let '(scan, wordLen) := st in
  if (length scan <=? 1)%nat then inr wordLen
  else
    match IndexByte scan ESC with
    | None => inr wordLen
    | Some i =>
        match IndexByte (skipn (S i) scan) LOWER_M with
        | None => inl (scan, wordLen)
        | Some j =>
            let j := (j + 2)%nat in
            inl (skipn (i + j) scan, wordLen - Z.of_nat j)
        end
    end.

(** The loop run for at most [fuel] passes; [None]: not left by then. *)
Fixpoint scan_run (fuel : nat) (st : scan_state) : option Z :=
  match fuel with
  | O => None
  | S f =>
      match scan_pass st with
      | inr n => Some n
      | inl st' => scan_run f st'
      end
  end.

(** The length [wrap] uses for a word.  A pass that changes the state
    shortens [scan] by two bytes or more, so [length word] passes and one
    more are enough unless a pass leaves the state as it was, and then no
    number of passes is ([visible_len_hangs] below). *)
Definition visible_len (word : bytes) : result Z :=
  match scan_run (S (length word)) (word, len word) with
  | Some n => Ok n
  | None => Hang
  end.

Record wstate : Type := {
  out : bytes;
  lineLen : Z;
  start : bool
}.

(** The body of the loop over the words of a paragraph. *)
Definition word_step (width : Z) (indent1 indent2 : bytes)
  (st : wstate) (word : bytes) : result wstate :=
  if (length word =? 0)%nat then Ok st
  else
    wordLen <- visible_len word ;;
    if start st then
      Ok {| out := out st ++ indent1 ++ word;
            lineLen := lineLen st + len indent1 + wordLen;
            start := false |}
    else if lineLen st + 1 + wordLen >? width then
      Ok {| out := out st ++ [LF] ++ indent2 ++ word;
            lineLen := len indent2 + wordLen;
            start := false |}
    else
      Ok {| out := out st ++ [SP] ++ word;
            lineLen := lineLen st + 1 + wordLen;
            start := false |}.

(** The body of the loop over the paragraphs. *)
Definition par_step (width : Z) (indent1 indent2 : bytes)
  (buf : bytes) (par : bytes) : result bytes :=
  let par := Replace par [LF] [SP] in
  st <- foldM (word_step width indent1 indent2) (Split par [SP])
          {| out := buf; lineLen := 0; start := true |} ;;
  Ok (out st ++ [LF; LF]).

Definition wrap (text : bytes) (width : Z) (indent1 indent2 : bytes)
  : result bytes :=
  if (length text =? 0)%nat then Ok text
  else
    let text := Replace text [CR; LF] [LF] in
    foldM (par_step width indent1 indent2) (Split text [LF; LF]) [].

Definition Wrap (e : Env) (text : bytes) (width : Z)
  (indent1 indent2 : bytes) : result bytes :=
  let width :=
    if width <? 1 then int_wrap (int_wrap (GetTTYWidth e - 1) + width)
    else width in
  b <- wrap text width indent1 indent2 ;;
  Ok (TrimLF b).

(** [AllEqual]: fewer than two values are all equal. *)
Definition AllEqual (values : list bytes) : bool :=
  match values with
  | [] => true
  | compare :: rest => forallb (bytes_eqb compare) rest
  end.

(** ** Align *)

(** [type Alignment int] with the constants [Left], [Right], [Center];
    any other value takes the [default] branch of the switch. *)
Definition Alignment : Type := Z.
Definition Left : Alignment := 0.
Definition Right : Alignment := 1.
Definition Center : Alignment := 2.

(** A nil slice and an absent field are [None]. *)
Record AlignOptions : Type := {
  Widths : option (list Z);
  Alignments : option (list Alignment);
  FirstDR : bytes;
  FirstLR : bytes;
  FirstFirstDLR : bytes;
  FirstDLR : bytes;
  FirstDL : bytes;
  RowFirstUD : bytes;
  RowSecondUD : bytes;
  RowUD : bytes;
  RowLastUD : bytes;
  LeaveTrailingWhitespace : bool;
  FirstNilFirstUDR : bytes;
  FirstNilLR : bytes;
  FirstNilFirstUDLR : bytes;
  FirstNilUDLR : bytes;
  FirstNilLastUDL : bytes;
  NilFirstUDR : bytes;
  NilLR : bytes;
  NilFirstUDLR : bytes;
  NilUDLR : bytes;
  NilLastUDL : bytes;
  LastUR : bytes;
  LastLR : bytes;
  LastFirstULR : bytes;
  LastULR : bytes;
  LastUL : bytes;
  NilBetweenEveryRow : bool
}.

Definition NewDefaultAlignOptions : AlignOptions := {|
  Widths := None; Alignments := None;
  FirstDR := []; FirstLR := []; FirstFirstDLR := []; FirstDLR := [];
  FirstDL := [];
  RowFirstUD := []; RowSecondUD := bs " "; RowUD := bs " "; RowLastUD := [];
  LeaveTrailingWhitespace := false;
  FirstNilFirstUDR := []; FirstNilLR := []; FirstNilFirstUDLR := [];
  FirstNilUDLR := []; FirstNilLastUDL := [];
  NilFirstUDR := []; NilLR := []; NilFirstUDLR := []; NilUDLR := [];
  NilLastUDL := [];
  LastUR := []; LastLR := []; LastFirstULR := []; LastULR := [];
  LastUL := [];
  NilBetweenEveryRow := false
|}.

Definition NewSimpleAlignOptions : AlignOptions := {|
  Widths := None; Alignments := None;
  FirstDR := bs "+-"; FirstLR := bs "-"; FirstFirstDLR := bs "-+-";
  FirstDLR := bs "-+-"; FirstDL := bs "-+";
  RowFirstUD := bs "| "; RowSecondUD := bs " | "; RowUD := bs " | ";
  RowLastUD := bs " |";
  LeaveTrailingWhitespace := true;
  FirstNilFirstUDR := bs "+-"; FirstNilLR := bs "-";
  FirstNilFirstUDLR := bs "-+-"; FirstNilUDLR := bs "-+-";
  FirstNilLastUDL := bs "-+";
  NilFirstUDR := []; NilLR := []; NilFirstUDLR := []; NilUDLR := [];
  NilLastUDL := [];
  LastUR := bs "+-"; LastLR := bs "-"; LastFirstULR := bs "-+-";
  LastULR := bs "-+-"; LastUL := bs "-+";
  NilBetweenEveryRow := false
|}.

Definition NewBoxedAlignOptions : AlignOptions := {|
  Widths := None; Alignments := None;
  FirstDR := bs "+="; FirstLR := bs "="; FirstFirstDLR := bs "=+=";
  FirstDLR := bs "=+="; FirstDL := bs "=+";
  RowFirstUD := bs "| "; RowSecondUD := bs " | "; RowUD := bs " | ";
  RowLastUD := bs " |";
  LeaveTrailingWhitespace := true;
  FirstNilFirstUDR := bs "+="; FirstNilLR := bs "=";
  FirstNilFirstUDLR := bs "=+="; FirstNilUDLR := bs "=+=";
  FirstNilLastUDL := bs "=+";
  NilFirstUDR := bs "+-"; NilLR := bs "-"; NilFirstUDLR := bs "-+-";
  NilUDLR := bs "-+-"; NilLastUDL := bs "-+";
  LastUR := bs "+="; LastLR := bs "="; LastFirstULR := bs "=+=";
  LastULR := bs "=+="; LastUL := bs "=+";
  NilBetweenEveryRow := true
|}.

(** A code point from U+0800 to U+FFFF as a Go string literal holds it
    for the escape \uXXXX: its three bytes of UTF-8. *)
Definition u (cp : N) : bytes :=
  [ascii_of_N (224 + cp / 4096);
   ascii_of_N (128 + (cp / 64) mod 64);
   ascii_of_N (128 + cp mod 64)]%N.

Definition NewUnicodeBoxedAlignOptions : AlignOptions := {|
  Widths := None; Alignments := None;
  FirstDR := u 0x2554 ++ u 0x2550; FirstLR := u 0x2550;
  FirstFirstDLR := u 0x2550 ++ u 0x2566 ++ u 0x2550;
  FirstDLR := u 0x2550 ++ u 0x2564 ++ u 0x2550;
  FirstDL := u 0x2550 ++ u 0x2557;
  RowFirstUD := u 0x2551 ++ bs " "; RowSecondUD := bs " " ++ u 0x2551 ++ bs " ";
  RowUD := bs " " ++ u 0x2502 ++ bs " "; RowLastUD := bs " " ++ u 0x2551;
  LeaveTrailingWhitespace := true;
  FirstNilFirstUDR := u 0x2560 ++ u 0x2550; FirstNilLR := u 0x2550;
  FirstNilFirstUDLR := u 0x2550 ++ u 0x256c ++ u 0x2550;
  FirstNilUDLR := u 0x2550 ++ u 0x256a ++ u 0x2550;
  FirstNilLastUDL := u 0x2550 ++ u 0x2563;
  NilFirstUDR := u 0x255f ++ u 0x2500; NilLR := u 0x2500;
  NilFirstUDLR := u 0x2500 ++ u 0x256b ++ u 0x2500;
  NilUDLR := u 0x2500 ++ u 0x253c ++ u 0x2500;
  NilLastUDL := u 0x2500 ++ u 0x2562;
  LastUR := u 0x255a ++ u 0x2550; LastLR := u 0x2550;
  LastFirstULR := u 0x2550 ++ u 0x2569 ++ u 0x2550;
  LastULR := u 0x2550 ++ u 0x2567 ++ u 0x2550;
  LastUL := u 0x2550 ++ u 0x255d;
  NilBetweenEveryRow := true
|}.

(** A row of the grid: [None] is a nil row, [Some cells] a data row. *)
Definition row : Type := option (list bytes).

(** *** Building [newData] *)

(** The inner loop under [if opts.Widths != nil]: a cell whose column has
    a positive configured width is wrapped to it. *)
Fixpoint wrap_cells (e : Env) (ws : list Z) (col : nat) (cells : list bytes)
  : result (list bytes) :=
  match cells with
  | [] => Ok []
  | cell :: rest =>
      c <- (if (length ws <=? col)%nat || (nth col ws 0 <=? 0)
            then Ok cell
            else Wrap e cell (nth col ws 0) [] []) ;;
      r <- wrap_cells e ws (S col) rest ;;
      Ok (c :: r)
  end.

Definition wrap_row (e : Env) (opts : AlignOptions) (cells : list bytes)
  : result (list bytes) :=
  match Widths opts with
  | None => Ok cells
  | Some ws => wrap_cells e ws 0 cells
  end.

(** [work]: every cell split into its lines. *)
Definition cell_lines (cell : bytes) : list bytes :=
  Split (Replace cell [CR; LF] [LF]) [LF].

Definition split_cells (cells : list bytes) : list (list bytes) :=
  map cell_lines cells.

Definition maxCells (work : list (list bytes)) : nat :=
  fold_left (fun m cells => if (m <? length cells)%nat then length cells else m)
    work 0%nat.

(** The physical row number [c] of a split row. *)
Definition physical_row (work : list (list bytes)) (c : nat) : list bytes :=
  map (fun cells => if (c <? length cells)%nat then nth c cells [] else [])
    work.

Definition expand_row (cells : list bytes) : list (list bytes) :=
  let work := split_cells cells in
  map (physical_row work) (seq 0 (maxCells work)).

(** The body of the first loop of [Align]. *)
Definition prepare_step (e : Env) (opts : AlignOptions)
  (newData : list row) (r : row) : result (list row) :=
  match r with
  | None =>
      if negb (NilBetweenEveryRow opts) then Ok (newData ++ [None])
      else Ok newData
  | Some cells =>
      cells <- wrap_row e opts cells ;;
      let newRows := expand_row cells in
      let newData :=
        if NilBetweenEveryRow opts && negb (length newData =? 0)%nat
        then newData ++ [None] else newData in
      Ok (newData ++ map Some newRows)
  end.

Definition prepare (e : Env) (opts : AlignOptions) (data : list row)
  : result (list row) :=
  foldM (prepare_step e opts) data [].

(** *** Column widths *)

(** [for len(row) > len(widths) { widths = append(widths,
    len(row[len(widths)])) }], which runs [len(row) - len(widths)] times
    when that is positive. *)
Fixpoint grow_widths (n : nat) (widths : list Z) (cells : list bytes)
  : list Z :=
  match n with
  | O => widths
  | S n' =>
      grow_widths n' (widths ++ [len (nth (length widths) cells [])]) cells
  end.

Fixpoint set_nth (c : nat) (x : Z) (l : list Z) : list Z :=
  match l, c with
  | [], _ => []
  | _ :: l', O => x :: l'
  | y :: l', S c' => y :: set_nth c' x l'
  end.

(** [for c, v := range row { if utf8.RuneCountInString(v) > widths[c]
    { widths[c] = ... } }], from column [c] on.  [widths] has been grown
    to the length of the row, so [widths[c]] is in range. *)
Fixpoint measure_cells (c : nat) (cells : list bytes) (widths : list Z)
  : list Z :=
  match cells with
  | [] => widths
  | v :: rest =>
      measure_cells (S c) rest
        (if utf8.RuneCountInString v >? nth c widths 0
         then set_nth c (utf8.RuneCountInString v) widths
         else widths)
  end.

Definition widths_step (widths : list Z) (r : row) : list Z :=
  match r with
  | None => widths
  | Some cells =>
      measure_cells 0 cells
        (grow_widths (length cells - length widths) widths cells)
  end.

Definition column_widths (data : list row) : list Z :=
  fold_left widths_step data [].

(** *** Alignments *)

Definition resolve_alignments (al : option (list Alignment)) (n : nat)
  : list Alignment :=
  match al with
  | None => repeat Left n
  | Some a =>
      if (length a <? n)%nat then a ++ repeat Left (n - length a) else a
  end.

(** *** Emitting lines *)

(** [for i := 0; i < width; i++ { buf.WriteString(fill) }]. *)
Definition fill_run (fill : bytes) (width : Z) : bytes :=
  concat (repeat fill (Z.to_nat width)).

(** [for i := n; i > 0; i-- { buf.WriteRune(' ') }]. *)
Definition spaces (n : Z) : bytes := repeat SP (Z.to_nat n).

(** What is written between columns: nothing before column 0, [second]
    before column 1, [other] before every later column. *)
Definition connector (second other : bytes) (col : nat) : bytes :=
  if (col =? 1)%nat then second
  else if negb (col =? 0)%nat then other
  else [].

Fixpoint rule_cols (second other fill : bytes) (col : nat) (widths : list Z)
  : bytes :=
  match widths with
  | [] => []
  | width :: rest =>
      connector second other col ++ fill_run fill width
      ++ rule_cols second other fill (S col) rest
  end.

(** A border or separator line without its line feed, given its five
    glyphs; nothing when the glyphs are all empty. *)
Definition rule (first fill second other last : bytes) (widths : list Z)
  : option bytes :=
  if negb (AllEqual [[]; first; second; other; fill; last])
  then Some (first ++ rule_cols second other fill 0 widths ++ last)
  else None.

Definition written (line : option bytes) : bytes :=
  match line with
  | Some l => l
  | None => []
  end.

(** One cell of a data row with its padding: the [switch] on the
    alignment of column [c]; [n] is [len(row)]. *)
Definition emit_cell (opts : AlignOptions) (widths : list Z)
  (alignments : list Alignment) (n : nat) (c : nat) (v : bytes) : bytes :=
  let w := nth c widths 0 in
  let k := utf8.RuneCountInString v in
  let a := nth c alignments Left in
  let trailing := LeaveTrailingWhitespace opts
                  || (Z.of_nat c <? Z.of_nat n - 1) in
  if a =? Right then spaces (w - k) ++ v
  else if a =? Center then
    spaces (Z.quot (w - k) 2) ++ v
    ++ (if trailing then spaces (w - (Z.quot (w - k) 2 + k)) else [])
  else
    v ++ (if trailing then spaces (w - k) else []).

Fixpoint emit_cells (opts : AlignOptions) (widths : list Z)
  (alignments : list Alignment) (n : nat) (c : nat) (cells : list bytes)
  : bytes :=
  match cells with
  | [] => []
  | v :: rest =>
      connector (RowSecondUD opts) (RowUD opts) c
      ++ emit_cell opts widths alignments n c v
      ++ emit_cells opts widths alignments n (S c) rest
  end.

(** The line of a data row, with its line feed. *)
Definition emit_row (opts : AlignOptions) (widths : list Z)
  (alignments : list Alignment) (cells : list bytes) : bytes :=
  RowFirstUD opts
  ++ emit_cells opts widths alignments (length cells) 0 cells
  ++ RowLastUD opts ++ [LF].

(** The second loop over [data]; [firstNil] is the loop's flag. *)
Fixpoint emit_rows (opts : AlignOptions) (widths : list Z)
  (alignments : list Alignment) (firstNil : bool) (data : list row)
  : bytes :=
  match data with
  | [] => []
  | None :: rest =>
      (if firstNil
       then written (rule (FirstNilFirstUDR opts) (FirstNilLR opts)
                       (FirstNilFirstUDLR opts) (FirstNilUDLR opts)
                       (FirstNilLastUDL opts) widths)
       else written (rule (NilFirstUDR opts) (NilLR opts)
                       (NilFirstUDLR opts) (NilUDLR opts)
                       (NilLastUDL opts) widths))
      ++ [LF] ++ emit_rows opts widths alignments false rest
  | Some cells :: rest =>
      emit_row opts widths alignments cells
      ++ emit_rows opts widths alignments firstNil rest
  end.

Definition with_lf (line : option bytes) : bytes :=
  match line with
  | Some l => l ++ [LF]
  | None => []
  end.

(** Everything [Align] writes once [newData] is built. *)
Definition emit_table (opts : AlignOptions) (data : list row) : bytes :=
  let widths := column_widths data in
  let alignments := resolve_alignments (Alignments opts) (length widths) in
  with_lf (rule (FirstDR opts) (FirstLR opts) (FirstFirstDLR opts)
             (FirstDLR opts) (FirstDL opts) widths)
  ++ emit_rows opts widths alignments true data
  ++ with_lf (rule (LastUR opts) (LastLR opts) (LastFirstULR opts)
                (LastULR opts) (LastUL opts) widths).

(** [Align].  [data] nil or empty is [[]], [opts] nil is [None].
    [len(data[0])] after the first loop panics when [newData] is empty. *)
Definition Align (e : Env) (data : list row) (opts : option AlignOptions)
  : result bytes :=
  if (length data =? 0)%nat then Ok []
  else
    let opts := match opts with
                | None => NewDefaultAlignOptions
                | Some o => o
                end in
    newData <- prepare e opts data ;;
    match newData with
    | [] => Panic
    | _ :: _ => Ok (emit_table opts newData)
    end.

(** ** OrdinalSuffix, HumanSize and Sentence *)

(** Go's [/] and [%] on integers truncate towards zero: [Z.quot] and
    [Z.rem]. *)
Definition OrdinalSuffix (number : Z) : bytes :=
  if (Z.rem (Z.quot number 10) 10 =? 1) || (Z.rem number 10 >? 3)
  then bs "th"
  else if Z.rem number 10 =? 1 then bs "st"
  else if Z.rem number 10 =? 2 then bs "nd"
  else if Z.rem number 10 =? 3 then bs "rd"
  else bs "th".

(** [humanSizes]: the units with their sizes, [int64(1024) << 10] and so
    on. *)
Definition humanSizes : list (Z * bytes) :=
  [(1024, bs "K");
   (Z.shiftl 1024 10, bs "M");
   (Z.shiftl 1024 20, bs "G");
   (Z.shiftl 1024 30, bs "T");
   (Z.shiftl 1024 40, bs "P");
   (Z.shiftl 1024 50, bs "E")].

(** The loop of [HumanSize] over the units still to try; [c] and [s] are
    the variables of the same names. *)
Fixpoint human_loop (b : Z) (sizes : list (Z * bytes)) (c : Z) (s : bytes)
  : Z * bytes :=
  match sizes with
  | [] => (c, s)
  | (d, u) :: rest =>
      let c := Z.quot b d in
      let r := Z.rem b d in
      let c := if r >=? Z.quot d 2 then c + 1 else c in
      if c <? 1024 then (c, u) else human_loop b rest c s
  end.

Definition HumanSize (b : Z) (appendBytes : bytes) : bytes :=
  if b <? 1024 then
    let v := strconv.FormatInt b in
    if negb (bytes_eqb appendBytes []) then v ++ appendBytes else v
  else
    let '(c, s) := human_loop b humanSizes b appendBytes in
    strconv.FormatInt c ++ s.

Definition DOT : ascii := ascii_of_nat 46.

(** [Sentence] calls [strings.ToUpper] on [value[:1]], the string of the
    first byte alone.  For a byte below 0x80 that is the byte with a
    letter a to z turned into A to Z.  A byte of 0x80 or more is no UTF-8
    on its own, and what [ToUpper] makes of it is left open here:
    [upper_other]. *)
Section Upper.

Variable upper_other : ascii -> bytes.

Definition upper_ascii (c : ascii) : ascii :=
  let n := nat_of_ascii c in
  if ((97 <=? n) && (n <=? 122))%nat then ascii_of_nat (n - 32) else c.

Definition ToUpper1 (c : ascii) : bytes :=
  if (nat_of_ascii c <? 128)%nat then [upper_ascii c] else upper_other c.

Definition Sentence (value : bytes) : bytes :=
  match value with
  | [] => value
  | c :: rest =>
      if ascii_dec (last value DOT) DOT
      then ToUpper1 c ++ rest
      else ToUpper1 c ++ rest ++ [DOT]
  end.

End Upper.

(** ** StringSliceToLowerSort

    [strings.ToLower] is a parameter: the interface is modelled for
    whatever lowering of strings it is given. *)

(** Go's [<] on strings: the order of the bytes, the shorter of two
    strings that agree coming first. *)
Fixpoint string_lt (a b : bytes) : bool :=
  match a, b with
  | _, [] => false
  | [], _ :: _ => true
  | x :: a', y :: b' =>
      if (N_of_ascii x <? N_of_ascii y)%N then true
      else if (N_of_ascii y <? N_of_ascii x)%N then false
      else string_lt a' b'
  end.

(** [s[x]]: out of range, with a negative index too, it panics. *)
Definition at_index (s : list bytes) (x : Z) : result bytes :=
  if (x <? 0) || (Z.of_nat (length s) <=? x) then Panic
  else Ok (nth (Z.to_nat x) s []).

Fixpoint put_at (x : nat) (v : bytes) (s : list bytes) : list bytes :=
  match s, x with
  | [], _ => []
  | _ :: s', O => v :: s'
  | u :: s', S x' => u :: put_at x' v s'
  end.

Section LowerSort.

Variable ToLower : bytes -> bytes.

Definition Len (s : list bytes) : Z := Z.of_nat (length s).

(** [s[x], s[y] = s[y], s[x]]: both elements are read, then [s[x]] and
    [s[y]] are written in that order. *)
Definition Swap (s : list bytes) (x y : Z) : result (list bytes) :=
  a <- at_index s x ;;
  b <- at_index s y ;;
  Ok (put_at (Z.to_nat y) a (put_at (Z.to_nat x) b s)).

Definition Less (s : list bytes) (x y : Z) : result bool :=
  a <- at_index s x ;;
  b <- at_index s y ;;
  Ok (string_lt (ToLower a) (ToLower b)).

End LowerSort.

(** ** Notions the statements below are phrased with *)

(** Digits grouped by three from the right, a literal comma between the
    groups: [group_rev] walks the reversed string, [k] counting the bytes
    of the current group already passed. *)
Fixpoint group_rev (k : nat) (r : bytes) : bytes :=
  match r with
  | [] => []
  | c :: r' =>
      match r' with
      | [] => [c]
      | _ :: _ =>
          if (k =? 2)%nat then c :: COMMA :: group_rev 0 r'
          else c :: group_rev (S k) r'
      end
  end.

Definition group_commas (s : bytes) : bytes := rev (group_rev 0 (rev s)).

(** An environment without a terminal: /dev/tty does not open and the
    size query on the standard output fails. *)
Definition no_terminal : Env :=
  {| tty_opens := false; tty_size := None; stdout_size := None |}.

(** An environment whose terminal is [w] columns wide. *)
Definition terminal_of (w : Z) : Env :=
  {| tty_opens := true; tty_size := Some w; stdout_size := None |}.

(** Two words, 40 and 39 bytes long: with the space between them they
    fill 80 columns exactly. *)
Definition eighty_columns : bytes :=
  repeat (ascii_of_nat 97) 40 ++ [SP] ++ repeat (ascii_of_nat 98) 39.

(** The data rows of a grid, its nil rows left out. *)
Fixpoint data_rows (data : list row) : list (list bytes) :=
  match data with
  | [] => []
  | None :: rest => data_rows rest
  | Some cells :: rest => cells :: data_rows rest
  end.

Fixpoint mapM {A B : Type} (f : A -> result B) (l : list A)
  : result (list B) :=
  match l with
  | [] => Ok []
  | a :: l' => b <- f a ;; r <- mapM f l' ;; Ok (b :: r)
  end.

(** Groups of physical rows, one group per data row, with a nil row
    before every group. *)
Fixpoint nil_before_each (groups : list (list (list bytes))) : list row :=
  match groups with
  | [] => []
  | g :: rest => None :: map Some g ++ nil_before_each rest
  end.

(** The same with a nil row before every group after the first. *)
Definition nil_after_first (groups : list (list (list bytes))) : list row :=
  match groups with
  | [] => []
  | g :: rest => map Some g ++ nil_before_each rest
  end.

(** A nil row before a group exactly when a physical row precedes it;
    [preceded] says whether one does at the start. *)
Fixpoint nil_when_preceded (preceded : bool)
  (groups : list (list (list bytes))) : list row :=
  match groups with
  | [] => []
  | g :: rest =>
      (if preceded then [None] else [])
      ++ map Some g
      ++ nil_when_preceded (preceded || negb (length g =? 0)%nat) rest
  end.

(** The sentence of the package's test, plain and with "test" in bold:
    ESC [ 1 m before it and ESC [ 0 m after it. *)
Definition plain_sentence : bytes := bs "Just a test sentence.".

Definition bold_sentence : bytes :=
  bs "Just a " ++ [ESC] ++ bs "[1mtest" ++ [ESC] ++ bs "[0m sentence.".

(** A string without its escape sequences, each running from an ESC to
    the next "m"; [inside] says whether the walk is within one. *)
Fixpoint strip_from (inside : bool) (s : bytes) : bytes :=
  match s with
  | [] => []
  | c :: s' =>
      if inside
      then strip_from (if ascii_dec c LOWER_M then false else true) s'
      else if ascii_dec c ESC then strip_from true s'
      else c :: strip_from false s'
  end.

Definition strip_escapes (s : bytes) : bytes := strip_from false s.


(** The cells of column [c] of a grid, from the top; nil rows and rows
    that do not reach the column have none. *)
Fixpoint column_cells (c : nat) (data : list row) : list bytes :=
  match data with
  | [] => []
  | None :: rest => column_cells c rest
  | Some cells :: rest =>
      match nth_error cells c with
      | Some v => v :: column_cells c rest
      | None => column_cells c rest
      end
  end.

(** The largest codepoint count among some cells, escape sequences
    counted like any other bytes. *)
Definition max_runes (cells : list bytes) : Z :=
  fold_right (fun v m => Z.max (utf8.RuneCountInString v) m) 0 cells.

(** The same with the escape sequences left out of the count. *)
Definition max_visible_runes (cells : list bytes) : Z :=
  fold_right (fun v m => Z.max (utf8.RuneCountInString (strip_escapes v)) m) 0
    cells.

(** The running maximum the width loop keeps for one column, from [x]. *)
Definition max_from (x : Z) (cells : list bytes) : Z :=
  fold_left (fun m v => Z.max m (utf8.RuneCountInString v)) cells x.

(** Whether cell [c] of a row of [n] cells is padded to the width of its
    column: always under [Right]; otherwise when trailing whitespace is
    kept or the cell is not the last of its row. *)
Definition padded (opts : AlignOptions) (a : Alignment) (n c : nat) : bool :=
  (a =? Right) || LeaveTrailingWhitespace opts
  || (Z.of_nat c <? Z.of_nat n - 1).

(** A grid with a bold cell above a plain one. *)
Definition bold_grid : list row :=
  [Some [[ESC] ++ bs "[1mab" ++ [ESC] ++ bs "[0m"]; Some [bs "abc"]].

(** A row filled up with empty cells to [n] columns. *)
Definition pad_cells (n : nat) (cells : list bytes) : list bytes :=
  cells ++ repeat [] (n - length cells).

Definition pad_row (n : nat) (r : row) : row :=
  match r with
  | None => None
  | Some cells => Some (pad_cells n cells)
  end.

(** The width [Wrap] wraps to. *)
Definition effective_width (e : Env) (width : Z) : Z :=
  if width <? 1 then int_wrap (int_wrap (GetTTYWidth e - 1) + width)
  else width.

(** The paragraphs of a text: what lies between blank lines, CR LF read
    as LF. *)
Definition paragraphs (text : bytes) : list bytes :=
  Split (Replace text [CR; LF] [LF]) [LF; LF].

(** The words of a paragraph: its maximal runs of bytes other than space
    and line feed.  [cur] holds the run being read, in reverse. *)
Definition is_delim (b : ascii) : bool :=
  if ascii_dec b SP then true else if ascii_dec b LF then true else false.

Definition flush (cur : bytes) : list bytes :=
  match cur with
  | [] => []
  | _ :: _ => [rev cur]
  end.

Fixpoint fields_from (cur : bytes) (s : bytes) : list bytes :=
  match s with
  | [] => flush cur
  | b :: s' =>
      if is_delim b then flush cur ++ fields_from [] s'
      else fields_from (b :: cur) s'
  end.

Definition words (par : bytes) : list bytes := fields_from [] par.

(** The words of a text: the maximal runs of bytes other than space and
    line feed, CR LF read as LF. *)
Definition text_words (text : bytes) : list bytes :=
  words (Replace text [CR; LF] [LF]).

(** The length of a word as [wrap] takes it, where the scan ends. *)
Definition vlen (word : bytes) : Z :=
  match visible_len word with
  | Ok n => n
  | _ => 0
  end.

(** Greedy filling of the words after the first of a paragraph, each
    given with its length: [lineLen] columns of the current line are
    taken; a word that would take the line past [width] with the space
    before it starts a new line behind the continuation prefix. *)
Fixpoint fill (width : Z) (indent2 : bytes) (lineLen : Z)
  (ws : list bytes) : bytes :=
  match ws with
  | [] => []
  | w :: rest =>
      if lineLen + 1 + vlen w >? width
      then [LF] ++ indent2 ++ w
           ++ fill width indent2 (len indent2 + vlen w) rest
      else [SP] ++ w ++ fill width indent2 (lineLen + 1 + vlen w) rest
  end.

(** A paragraph filled: its first word behind the first-line prefix. *)
Definition fill_paragraph (width : Z) (indent1 indent2 : bytes)
  (ws : list bytes) : bytes :=
  match ws with
  | [] => []
  | w :: rest =>
      indent1 ++ w ++ fill width indent2 (len indent1 + vlen w) rest
  end.

(** A text filled paragraph by paragraph, a blank line after each. *)
Definition fill_text (width : Z) (indent1 indent2 : bytes) (text : bytes)
  : bytes :=
  concat
    (map (fun par => fill_paragraph width indent1 indent2 (words par)
                     ++ [LF; LF])
       (paragraphs text)).

(** Whether the first line of a text starts with [indent1] and every
    later line with [indent2]. *)
Definition lines_prefixed (indent1 indent2 : bytes) (text : bytes) : bool :=
  match Split text [LF] with
  | [] => true
  | l :: ls => has_prefix indent1 l && forallb (has_prefix indent2) ls
  end.

(** The default options with widths configured for the columns. *)
Definition options_with_widths (ws : list Z) : AlignOptions := {|
  Widths := Some ws; Alignments := None;
  FirstDR := []; FirstLR := []; FirstFirstDLR := []; FirstDLR := [];
  FirstDL := [];
  RowFirstUD := []; RowSecondUD := bs " "; RowUD := bs " "; RowLastUD := [];
  LeaveTrailingWhitespace := false;
  FirstNilFirstUDR := []; FirstNilLR := []; FirstNilFirstUDLR := [];
  FirstNilUDLR := []; FirstNilLastUDL := [];
  NilFirstUDR := []; NilLR := []; NilFirstUDLR := []; NilUDLR := [];
  NilLastUDL := [];
  LastUR := []; LastLR := []; LastFirstULR := []; LastULR := [];
  LastUL := [];
  NilBetweenEveryRow := false
|}.

(** [strings.Join]: the pieces with [sep] between them. *)
Fixpoint Join (pieces : list bytes) (sep : bytes) : bytes :=
  match pieces with
  | [] => []
  | x :: rest =>
      match rest with
      | [] => x
      | _ :: _ => x ++ sep ++ Join rest sep
      end
  end.

(** The number a string of decimal digits stands for. *)
Definition decimal_value (s : bytes) : Z :=
  fold_left (fun a c => a * 10 + (Z.of_nat (nat_of_ascii c) - 48)) s 0.

(** A string without its commas. *)
Definition strip_commas (s : bytes) : bytes :=
  filter (fun c => if ascii_dec c COMMA then false else true) s.

(** The line feeds of a string. *)
Definition count_LF (s : bytes) : nat := count_occ ascii_dec s LF.

(** The lines of a string. *)
Definition lines (s : bytes) : list bytes := Split s [LF].

(** Whether every ESC of a string has an "m" somewhere after it: every
    escape sequence that is opened is closed. *)
Fixpoint escapes_closed (s : bytes) : bool :=
  match s with
  | [] => true
  | c :: rest =>
      (if ascii_dec c ESC
       then existsb (fun b => if ascii_dec b LOWER_M then true else false) rest
       else true)
      && escapes_closed rest
  end.

(** The options [Align] works with: the default ones for a nil [opts]. *)
Definition options_of (opts : option AlignOptions) : AlignOptions :=
  match opts with
  | None => NewDefaultAlignOptions
  | Some o => o
  end.

(** A row that adds nothing to the grid [Align] builds: a data row
    without cells, or a nil row when NilBetweenEveryRow is set. *)
Definition void_row (opts : AlignOptions) (r : row) : bool :=
  match r with
  | None => NilBetweenEveryRow opts
  | Some cells => (length cells =? 0)%nat
  end.

(** [opts] with its Widths replaced. *)
Definition set_widths (ws : option (list Z)) (o : AlignOptions)
  : AlignOptions := {|
  Widths := ws; Alignments := Alignments o;
  FirstDR := FirstDR o; FirstLR := FirstLR o;
  FirstFirstDLR := FirstFirstDLR o; FirstDLR := FirstDLR o;
  FirstDL := FirstDL o;
  RowFirstUD := RowFirstUD o; RowSecondUD := RowSecondUD o;
  RowUD := RowUD o; RowLastUD := RowLastUD o;
  LeaveTrailingWhitespace := LeaveTrailingWhitespace o;
  FirstNilFirstUDR := FirstNilFirstUDR o; FirstNilLR := FirstNilLR o;
  FirstNilFirstUDLR := FirstNilFirstUDLR o; FirstNilUDLR := FirstNilUDLR o;
  FirstNilLastUDL := FirstNilLastUDL o;
  NilFirstUDR := NilFirstUDR o; NilLR := NilLR o;
  NilFirstUDLR := NilFirstUDLR o; NilUDLR := NilUDLR o;
  NilLastUDL := NilLastUDL o;
  LastUR := LastUR o; LastLR := LastLR o; LastFirstULR := LastFirstULR o;
  LastULR := LastULR o; LastUL := LastUL o;
  NilBetweenEveryRow := NilBetweenEveryRow o
|}.

(** Whether a string is empty or starts with a byte that is not a UTF-8
    continuation byte (0x80 to 0xBF): no encoding begun before the string
    goes on into it. *)
Definition starts_rune (s : bytes) : bool :=
  match s with
  | [] => true
  | c :: _ => utf8.outside 128 191 c
  end.

(** The codepoints of a line of the table: the glyph [first], for each
    column its connector and [unit] codepoints for each unit of its width,
    and the glyph [last]. *)
Fixpoint cols_runes (second other : bytes) (unit : Z) (col : nat)
  (widths : list Z) : Z :=
  match widths with
  | [] => 0
  | width :: rest =>
      utf8.RuneCountInString (connector second other col) + unit * width
      + cols_runes second other unit (S col) rest
  end.

Definition line_runes (first second other last : bytes) (unit : Z)
  (widths : list Z) : Z :=
  utf8.RuneCountInString first + cols_runes second other unit 0 widths
  + utf8.RuneCountInString last.

(** The lines of the table, without their line feeds: the line of a
    border that is written, and one line for each row of the grid. *)
Definition rule_line (line : option bytes) : list bytes :=
  match line with
  | Some l => [l]
  | None => []
  end.

Fixpoint row_lines (opts : AlignOptions) (widths : list Z)
  (alignments : list Alignment) (firstNil : bool) (data : list row)
  : list bytes :=
  match data with
  | [] => []
  | None :: rest =>
      (if firstNil
       then written (rule (FirstNilFirstUDR opts) (FirstNilLR opts)
                       (FirstNilFirstUDLR opts) (FirstNilUDLR opts)
                       (FirstNilLastUDL opts) widths)
       else written (rule (NilFirstUDR opts) (NilLR opts)
                       (NilFirstUDLR opts) (NilUDLR opts)
                       (NilLastUDL opts) widths))
      :: row_lines opts widths alignments false rest
  | Some cells :: rest =>
      (RowFirstUD opts
       ++ emit_cells opts widths alignments (length cells) 0 cells
       ++ RowLastUD opts)
      :: row_lines opts widths alignments firstNil rest
  end.

Definition table_lines (opts : AlignOptions) (data : list row)
  : list bytes :=
  let widths := column_widths data in
  let alignments := resolve_alignments (Alignments opts) (length widths) in
  rule_line (rule (FirstDR opts) (FirstLR opts) (FirstFirstDLR opts)
               (FirstDLR opts) (FirstDL opts) widths)
  ++ row_lines opts widths alignments true data
  ++ rule_line (rule (LastUR opts) (LastLR opts) (LastFirstULR opts)
                  (LastULR opts) (LastUL opts) widths).

(** The glyphs of the options. *)
Definition glyphs (o : AlignOptions) : list bytes :=
  [FirstDR o; FirstLR o; FirstFirstDLR o; FirstDLR o; FirstDL o;
   RowFirstUD o; RowSecondUD o; RowUD o; RowLastUD o;
   FirstNilFirstUDR o; FirstNilLR o; FirstNilFirstUDLR o; FirstNilUDLR o;
   FirstNilLastUDL o;
   NilFirstUDR o; NilLR o; NilFirstUDLR o; NilUDLR o; NilLastUDL o;
   LastUR o; LastLR o; LastFirstULR o; LastULR o; LastUL o].

(** Whether a border or separator line, if it is written at all, has
    glyphs as wide as the glyphs of a data row, and a fill glyph of one
    codepoint. *)
Definition rule_fits (o : AlignOptions)
  (first fill second other last : bytes) : bool :=
  AllEqual [[]; first; second; other; fill; last]
  || ((utf8.RuneCountInString first
       =? utf8.RuneCountInString (RowFirstUD o))
      && (utf8.RuneCountInString fill =? 1)
      && (utf8.RuneCountInString second
          =? utf8.RuneCountInString (RowSecondUD o))
      && (utf8.RuneCountInString other
          =? utf8.RuneCountInString (RowUD o))
      && (utf8.RuneCountInString last
          =? utf8.RuneCountInString (RowLastUD o))
      && starts_rune fill && starts_rune second && starts_rune other
      && starts_rune last).

(** Options under which the table of a grid with rows of equal length
    is a rectangle. *)
Definition rectangular_options (o : AlignOptions) : bool :=
  LeaveTrailingWhitespace o
  && starts_rune (RowSecondUD o) && starts_rune (RowUD o)
  && starts_rune (RowLastUD o)
  && rule_fits o (FirstDR o) (FirstLR o) (FirstFirstDLR o) (FirstDLR o)
       (FirstDL o)
  && rule_fits o (FirstNilFirstUDR o) (FirstNilLR o) (FirstNilFirstUDLR o)
       (FirstNilUDLR o) (FirstNilLastUDL o)
  && rule_fits o (NilFirstUDR o) (NilLR o) (NilFirstUDLR o) (NilUDLR o)
       (NilLastUDL o)
  && rule_fits o (LastUR o) (LastLR o) (LastFirstULR o) (LastULR o)
       (LastUL o).

(** Whether a string, with a line feed put after it, holds no two line
    feeds in a row: it has no blank line and does not end with a line
    feed. *)
Fixpoint no_blank (p : bytes) : bool :=
  match p with
  | [] => true
  | x :: r =>
      match r with
      | [] => if ascii_dec x LF then false else true
      | y :: _ =>
          (if ascii_dec x LF then if ascii_dec y LF then false else true
           else true)
          && no_blank r
      end
  end.

(** A list of strings without the empty ones it starts with, and without
    those at both ends. *)
Fixpoint drop_empty (l : list bytes) : list bytes :=
  match l with
  | [] :: rest => drop_empty rest
  | _ => l
  end.

Definition inner (l : list bytes) : list bytes :=
  rev (drop_empty (rev (drop_empty l))).






(** The horizontal tab, and the two bytes of the UTF-8 encoding of
    U+00E9, the letter e with an acute accent. *)
Definition TAB : ascii := ascii_of_nat 9.

Definition e_acute : bytes := [ascii_of_nat 195; ascii_of_nat 169].

(** ** Tactics *)

(** Settle the comparisons of naturals in the goal that [lia] decides. *)
Ltac nat_test_ltb a b :=
  first [ replace (a <? b)%nat with true
            by (symmetry; apply Nat.ltb_lt; lia)
        | replace (a <? b)%nat with false
            by (symmetry; apply Nat.ltb_ge; lia) ].

Ltac nat_test_leb a b :=
  first [ replace (a <=? b)%nat with true
            by (symmetry; apply Nat.leb_le; lia)
        | replace (a <=? b)%nat with false
            by (symmetry; apply Nat.leb_gt; lia) ].

Ltac nat_tests :=
  repeat match goal with
         | |- context [(?a <? ?b)%nat] => progress nat_test_ltb a b
         | |- context [(?a <=? ?b)%nat] => progress nat_test_leb a b
         end.

(** Case analysis on the test of every conditional in the goal. *)
Ltac case_tests :=
  repeat match goal with
         | |- context [if ?b then _ else _] => destruct b
         end.

(** One unit of [HumanSize]: the cases of its two tests; where the unit
    is taken, the goal is closed with the size [d] of the unit. *)
Ltac human_done d :=
  match goal with
  | |- exists c d' u, (forall s, (?c0, ?u0) = _) /\ _ =>
      exists c0, d, u0; split; [reflexivity|]; split; [simpl; tauto|];
      Z.div_mod_to_equations; lia
  end.

Ltac human_level b d h :=
  destruct (Z.geb_spec (b mod d) h);
  [ destruct (Z.ltb_spec (b / d + 1) 1024); [human_done d|]
  | destruct (Z.ltb_spec (b / d) 1024); [human_done d|] ].

(** * Properties *)

(** ** The models of the library functions

    What is known of the functions modelled holds of the models: joining
    what [Split] gives restores the string, replacing is splitting and
    joining, and the digits of [FormatUint] stand for the number. *)

Lemma split_from_not_nil (sep : bytes) (s : bytes) :
  forall (skip : nat) (cur : bytes), split_from sep skip cur s <> [].
Proof.
  induction s as [|b s IH]; intros skip cur; simpl; [discriminate|].
  destruct skip; [|apply IH].
  destruct (has_prefix sep (b :: s)); [discriminate | apply IH].
Qed.

Lemma has_prefix_app (p s : bytes) :
  has_prefix p s = true -> exists rest, s = p ++ rest.
Proof.
  revert s. induction p as [|a p IH]; intros s H.
  - exists s. reflexivity.
  - destruct s as [|b s]; [discriminate H|]. cbn [has_prefix] in H.
    destruct (ascii_dec a b) as [->|_]; [|discriminate H].
    destruct (IH s H) as [rest ->]. exists rest. reflexivity.
Qed.

Lemma split_from_skip (sep : bytes) (k : nat) :
  forall (s cur : bytes),
    split_from sep k cur s = split_from sep 0 cur (skipn k s).
Proof.
  induction k as [|k IH]; intros s cur; [reflexivity|].
  destruct s as [|b s]; [reflexivity|]. cbn [split_from skipn]. apply IH.
Qed.

Lemma replace_from_skip (old new : bytes) (k : nat) :
  forall s : bytes,
    replace_from old new k s = replace_from old new 0 (skipn k s).
Proof.
  induction k as [|k IH]; intros s; [reflexivity|].
  destruct s as [|b s]; [reflexivity|]. cbn [replace_from skipn]. apply IH.
Qed.

Lemma Join_cons (x : bytes) (rest : list bytes) (sep : bytes) :
  rest <> [] -> Join (x :: rest) sep = x ++ sep ++ Join rest sep.
Proof.
  destruct rest; [congruence | reflexivity].
Qed.

(** After a match at the head of [b :: s], what follows the match. *)
Lemma matched_rest (sep : bytes) (b : ascii) (s : bytes) :
  has_prefix sep (b :: s) = true -> sep <> [] ->
  exists rest,
    b :: s = sep ++ rest
    /\ skipn (length sep - 1) s = rest
    /\ (length rest <= length s)%nat.
Proof.
  intros H Hsep. destruct (has_prefix_app _ _ H) as [rest E].
  exists rest. split; [exact E|].
  destruct sep as [|a sep]; [congruence|].
  cbn [app] in E. injection E as _ ->.
  cbn [length].
  replace (S (length sep) - 1)%nat with (length sep) by lia.
  rewrite skipn_app, skipn_all, Nat.sub_diag, length_app.
  split; [reflexivity | lia].
Qed.

Lemma split_from_Join (sep : bytes) :
  sep <> [] ->
  forall (n : nat) (s cur : bytes),
    (length s <= n)%nat ->
    Join (split_from sep 0 cur s) sep = rev cur ++ s.
Proof.
  intros Hsep. induction n as [n IH] using lt_wf_ind. intros s cur Hn.
  destruct s as [|b s].
  - cbn [split_from Join]. rewrite app_nil_r. reflexivity.
  - cbn [split_from]. destruct (has_prefix sep (b :: s)) eqn:E.
    + destruct (matched_rest sep b s E Hsep) as [rest [Es [Hskip Hlen]]].
      rewrite split_from_skip, Hskip.
      rewrite Join_cons by apply split_from_not_nil.
      rewrite (IH (length rest)) by (cbn [length] in Hn; lia).
      rewrite Es. reflexivity.
    + rewrite (IH (length s)) by (cbn [length] in Hn; lia).
      cbn [rev]. rewrite <- app_assoc. reflexivity.
Qed.

(** [strings.Join(strings.Split(s, sep), sep)] is [s]. *)
Lemma Split_Join (s sep : bytes) : sep <> [] -> Join (Split s sep) sep = s.
Proof.
  intros Hsep. unfold Split.
  rewrite (split_from_Join sep Hsep (length s)) by lia. reflexivity.
Qed.

Lemma replace_from_Join (old new : bytes) :
  old <> [] ->
  forall (n : nat) (s cur : bytes),
    (length s <= n)%nat ->
    rev cur ++ replace_from old new 0 s
    = Join (split_from old 0 cur s) new.
Proof.
  intros Hold. induction n as [n IH] using lt_wf_ind. intros s cur Hn.
  destruct s as [|b s].
  - cbn [replace_from split_from Join]. apply app_nil_r.
  - cbn [replace_from split_from]. destruct (has_prefix old (b :: s)) eqn:E.
    + destruct (matched_rest old b s E Hold) as [rest [Es [Hskip Hlen]]].
      rewrite split_from_skip, replace_from_skip, Hskip.
      rewrite Join_cons by apply split_from_not_nil.
      rewrite <- (IH (length rest)) by (cbn [length] in Hn; lia).
      reflexivity.
    + rewrite <- (IH (length s)) by (cbn [length] in Hn; lia).
      cbn [rev]. rewrite <- app_assoc. reflexivity.
Qed.

(** [strings.Replace(s, old, new, -1)] is
    [strings.Join(strings.Split(s, old), new)]. *)
Lemma Replace_Split_Join (s old new : bytes) :
  old <> [] -> Replace s old new = Join (Split s old) new.
Proof.
  intros Hold. unfold Replace, Split.
  rewrite <- (replace_from_Join old new Hold (length s)) by lia.
  reflexivity.
Qed.

Lemma digit_value (d : Z) :
  0 <= d < 10 -> Z.of_nat (nat_of_ascii (strconv.digit d)) - 48 = d.
Proof.
  intros Hd. unfold strconv.digit. rewrite nat_ascii_embedding by lia. lia.
Qed.

Lemma format_digits_value (fuel : nat) :
  forall (v : Z) (acc : bytes),
    0 <= v -> Z.log2 v < Z.of_nat fuel ->
    decimal_value (strconv.format_digits fuel v acc)
    = fold_left (fun a c => a * 10 + (Z.of_nat (nat_of_ascii c) - 48)) acc v.
Proof.
  unfold decimal_value.
  induction fuel as [|f IH]; intros v acc Hv Hfuel.
  - pose proof (Z.log2_nonneg v). lia.
  - cbn [strconv.format_digits].
    pose proof (Z.mod_pos_bound v 10 ltac:(lia)) as Hmod.
    pose proof (Z.div_mod v 10 ltac:(lia)) as Hdiv.
    destruct (v / 10 =? 0) eqn:E.
    + apply Z.eqb_eq in E. cbn [fold_left].
      rewrite digit_value by lia. f_equal. lia.
    + apply Z.eqb_neq in E.
      assert (Hq : 0 < v / 10)
        by (pose proof (Z.div_pos v 10 Hv ltac:(lia)); lia).
      rewrite IH.
      * cbn [fold_left]. rewrite digit_value by lia. f_equal. lia.
      * lia.
      * assert (Hle : 2 * (v / 10) <= v) by lia.
        pose proof (Z.log2_le_mono _ _ Hle) as Hmono.
        rewrite Z.log2_double in Hmono by exact Hq. lia.
Qed.

(** The digits [FormatUint] gives stand for the number given. *)
Lemma FormatUint_value (v : Z) :
  0 <= v -> decimal_value (strconv.FormatUint v) = v.
Proof.
  intros Hv. unfold strconv.FormatUint.
  rewrite format_digits_value; [reflexivity | exact Hv |].
  pose proof (Z.log2_nonneg v). lia.
Qed.

(** ** ThousandsSep *)

Lemma thousands_loop_stop (fuel : nat) (i : Z) (s : bytes) :
  i <= 0 -> thousands_loop fuel i s = s.
Proof.
  intros Hi. destruct fuel as [|f]; simpl; [reflexivity|].
  destruct (0 <? i) eqn:E; [apply Z.ltb_lt in E; lia | reflexivity].
Qed.

(** Inserting at [i] leaves the bytes after position [i] alone, so the
    loop distributes over a suffix that starts at or after [i]. *)
Lemma thousands_loop_app (fuel : nat) :
  forall (i : Z) (a t : bytes),
    i <= len a ->
    thousands_loop fuel i (a ++ t) = thousands_loop fuel i a ++ t.
Proof.
  induction fuel as [|f IH]; intros i a t Hi; simpl; [reflexivity|].
  destruct (0 <? i) eqn:E; [|reflexivity].
  apply Z.ltb_lt in E. unfold len in Hi.
  assert (Hn : (Z.to_nat i <= length a)%nat) by lia.
  rewrite firstn_app, skipn_app.
  replace (Z.to_nat i - length a)%nat with 0%nat by lia.
  simpl. rewrite app_nil_r.
  replace (firstn (Z.to_nat i) a ++ COMMA :: skipn (Z.to_nat i) a ++ t)
    with ((firstn (Z.to_nat i) a ++ COMMA :: skipn (Z.to_nat i) a) ++ t)
    by (rewrite <- app_assoc; reflexivity).
  apply IH. unfold len. rewrite length_app. simpl.
  rewrite length_firstn. lia.
Qed.

(** More fuel than the loop has passes changes nothing. *)
Lemma thousands_loop_fuel (f : nat) :
  forall (g : nat) (i : Z) (s : bytes),
    i <= Z.of_nat f -> i <= Z.of_nat g ->
    thousands_loop f i s = thousands_loop g i s.
Proof.
  induction f as [|f IH]; intros g i s Hf Hg.
  - rewrite !thousands_loop_stop by lia. reflexivity.
  - destruct g as [|g].
    + rewrite !thousands_loop_stop by lia. reflexivity.
    + simpl. destruct (0 <? i) eqn:E; [|reflexivity].
      apply IH; lia.
Qed.

Lemma thousands_short (s : bytes) :
  (length s <= 3)%nat -> thousands s = s.
Proof.
  intros H. unfold thousands. apply thousands_loop_stop. unfold len. lia.
Qed.

Lemma thousands_long (a b : bytes) :
  a <> [] -> length b = 3%nat ->
  thousands (a ++ b) = thousands a ++ COMMA :: b.
Proof.
  intros Ha Hb. unfold thousands, len.
  assert (Hlen : (0 < length a)%nat) by (destruct a; simpl; [congruence|lia]).
  rewrite length_app, Hb.
  replace (length a + 3)%nat with (S (length a + 2)) by lia.
  cbn [thousands_loop].
  replace (Z.of_nat (S (length a + 2)) - 3) with (Z.of_nat (length a)) by lia.
  destruct (0 <? Z.of_nat (length a)) eqn:E; [|apply Z.ltb_ge in E; lia].
  rewrite Nat2Z.id, firstn_app, skipn_app, Nat.sub_diag, firstn_all, skipn_all.
  simpl. rewrite app_nil_r.
  rewrite (thousands_loop_app _ _ a (COMMA :: b)) by (unfold len; lia).
  f_equal. apply thousands_loop_fuel; lia.
Qed.

Lemma group_rev_three (x y z : ascii) (r : bytes) :
  r <> [] ->
  group_rev 0 (x :: y :: z :: r) = x :: y :: z :: COMMA :: group_rev 0 r.
Proof.
  intros Hr. destruct r as [|c r]; [congruence|]. reflexivity.
Qed.

Lemma group_commas_long (a b : bytes) :
  a <> [] -> length b = 3%nat ->
  group_commas (a ++ b) = group_commas a ++ COMMA :: b.
Proof.
  intros Ha Hb.
  destruct b as [|z [|y [|x [|]]]]; try discriminate.
  unfold group_commas. rewrite rev_app_distr. cbn [rev app].
  rewrite group_rev_three.
  - cbn [rev]. rewrite <- !app_assoc. reflexivity.
  - intros E. apply (f_equal (@rev ascii)) in E.
    rewrite rev_involutive in E. simpl in E. congruence.
Qed.

Lemma group_commas_short (s : bytes) :
  (length s <= 3)%nat -> group_commas s = s.
Proof.
  intros H. destruct s as [|a [|b [|c [|]]]]; simpl in H; try lia;
    reflexivity.
Qed.

(** The loop computes the grouping, whatever the string. *)
Lemma thousands_group_commas (s : bytes) : thousands s = group_commas s.
Proof.
  remember (length s) as n eqn:Hn. revert s Hn.
  induction n as [n IH] using lt_wf_ind. intros s Hn.
  destruct (le_lt_dec (length s) 3) as [Hs|Hs].
  - rewrite thousands_short, group_commas_short by assumption. reflexivity.
  - rewrite <- (firstn_skipn (length s - 3) s).
    assert (Hb : length (skipn (length s - 3) s) = 3%nat)
      by (rewrite length_skipn; lia).
    assert (Ha : firstn (length s - 3) s <> []).
    { intros E. apply (f_equal (@length ascii)) in E.
      rewrite length_firstn in E. simpl in E. lia. }
    rewrite thousands_long, group_commas_long by assumption.
    f_equal. apply (IH (length (firstn (length s - 3) s))); [|reflexivity].
    rewrite length_firstn. lia.
Qed.

(** C10.  ThousandsSep and ThousandsSepU do not use their [sep] argument:
    two calls that differ only in [sep] return the same string, and that
    string is the decimal rendering of the number with the literal ","
    between its groups of three, as for instance with [sep] ".". *)
Theorem ThousandsSep_ignores_sep (v : Z) (sep1 sep2 : bytes) :
  ThousandsSep v sep1 = ThousandsSep v sep2
  /\ ThousandsSepU v sep1 = ThousandsSepU v sep2
  /\ ThousandsSep v sep1 = group_commas (strconv.FormatInt v)
  /\ ThousandsSepU v sep1 = group_commas (strconv.FormatUint v)
  /\ ThousandsSep 1234567 (bs ".") = bs "1,234,567"
  /\ ThousandsSepU 1234567 (bs ".") = bs "1,234,567".
Proof.
  unfold ThousandsSep, ThousandsSepU.
  repeat split; try apply thousands_group_commas; reflexivity.
Qed.

(** ** Wrap and the ambient width *)

Lemma int_wrap_small (z : Z) :
  - 2 ^ 63 <= z < 2 ^ 63 -> int_wrap z = z.
Proof.
  intros H. unfold int_wrap. rewrite Z.mod_small; lia.
Qed.

Lemma int_wrap_add_l (a b : Z) : int_wrap (int_wrap a + b) = int_wrap (a + b).
Proof.
  unfold int_wrap. f_equal.
  replace ((a + 2 ^ 63) mod 2 ^ 64 - 2 ^ 63 + b + 2 ^ 63)
    with ((a + 2 ^ 63) mod 2 ^ 64 + b) by ring.
  rewrite Zplus_mod_idemp_l. f_equal. ring.
Qed.

(** With a width of one or more [Wrap] does not ask for the terminal. *)
Lemma Wrap_positive_width (e : Env) (text : bytes) (width : Z)
  (indent1 indent2 : bytes) :
  1 <= width ->
  Wrap e text width indent1 indent2
  = (b <- wrap text width indent1 indent2 ;; Ok (TrimLF b)).
Proof.
  intros H. unfold Wrap.
  destruct (width <? 1) eqn:E; [apply Z.ltb_lt in E; lia | reflexivity].
Qed.

(** C3, as the code has it.  For every text and every width <= 0, [Wrap]
    wraps to the ambient terminal width less one plus the given width, in
    64-bit arithmetic (so a width of 0 gives the ambient width less one);
    the ambient width is the size of the terminal, and 80 when that size
    is not to be had. *)
Theorem Wrap_nonpositive_width (e : Env) (text : bytes) (width : Z)
  (indent1 indent2 : bytes) :
  width <= 0 ->
  Wrap e text width indent1 indent2
  = (b <- wrap text (int_wrap (GetTTYWidth e - 1 + width)) indent1 indent2 ;;
     Ok (TrimLF b))
  /\ (- 2 ^ 63 <= GetTTYWidth e - 1 + width < 2 ^ 63 ->
      int_wrap (GetTTYWidth e - 1 + width) = GetTTYWidth e - 1 + width)
  /\ ((if tty_opens e then tty_size e else stdout_size e) = None ->
      GetTTYWidth e = 80)
  /\ (forall w, (if tty_opens e then tty_size e else stdout_size e) = Some w ->
      GetTTYWidth e = w).
Proof.
  intros H. repeat split.
  - unfold Wrap. destruct (width <? 1) eqn:E; [|apply Z.ltb_ge in E; lia].
    rewrite int_wrap_add_l. reflexivity.
  - apply int_wrap_small.
  - intros Hq. unfold GetTTYWidth. rewrite Hq. reflexivity.
  - intros w Hq. unfold GetTTYWidth. rewrite Hq. reflexivity.
Qed.

Lemma Wrap_nonpositive_width_witness :
  Wrap no_terminal eighty_columns 0 [] []
  = (b <- wrap eighty_columns
            (int_wrap (GetTTYWidth no_terminal - 1 + 0)) [] [] ;;
     Ok (TrimLF b)).
Proof.
  apply (proj1 (Wrap_nonpositive_width no_terminal eighty_columns 0 [] []
                  ltac:(lia))).
Defined.

(** C3, as it is worded, fails: with no terminal the ambient width is 80,
    and at width 0 a text of exactly 80 columns is broken in two, which
    wrapping to the ambient width itself would not do. *)
Lemma Wrap_width_zero_is_not_ambient :
  Wrap no_terminal eighty_columns 0 [] []
  <> (b <- wrap eighty_columns (GetTTYWidth no_terminal + 0) [] [] ;;
      Ok (TrimLF b)).
Proof.
  intros H. vm_compute in H. discriminate H.
Qed.

(** The width wrapped to with and without a terminal. *)
Lemma effective_width_examples :
  effective_width no_terminal 0 = 79
  /\ effective_width (terminal_of 120) 0 = 119
  /\ effective_width (terminal_of 120) (-20) = 99
  /\ effective_width (terminal_of 120) 40 = 40.
Proof.
  repeat split; reflexivity.
Qed.

(** ** Align and the terminal *)

Lemma wrap_cells_env (e1 e2 : Env) (ws : list Z) (cells : list bytes) :
  forall col, wrap_cells e1 ws col cells = wrap_cells e2 ws col cells.
Proof.
  induction cells as [|cell rest IH]; intros col; simpl; [reflexivity|].
  rewrite (IH (S col)).
  destruct ((length ws <=? col)%nat || (nth col ws 0 <=? 0)) eqn:E;
    [reflexivity|].
  apply orb_false_iff in E. destruct E as [_ E]. apply Z.leb_gt in E.
  rewrite !Wrap_positive_width by lia. reflexivity.
Qed.

Lemma wrap_row_env (e1 e2 : Env) (opts : AlignOptions) (cells : list bytes) :
  wrap_row e1 opts cells = wrap_row e2 opts cells.
Proof.
  unfold wrap_row. destruct (Widths opts); [apply wrap_cells_env|reflexivity].
Qed.

Lemma prepare_env (e1 e2 : Env) (opts : AlignOptions) (data : list row) :
  forall acc,
    foldM (prepare_step e1 opts) data acc
    = foldM (prepare_step e2 opts) data acc.
Proof.
  induction data as [|r data IH]; intros acc; simpl; [reflexivity|].
  assert (E : prepare_step e1 opts acc r = prepare_step e2 opts acc r).
  { destruct r as [cells|]; simpl; [|reflexivity].
    rewrite (wrap_row_env e1 e2). reflexivity. }
  rewrite E. destruct (prepare_step e2 opts acc r); simpl; auto.
Qed.

(** C4.  The outcome of [Align] is a function of the grid and the options
    alone: whatever the terminal is, or whether there is one, the same
    [data] and [opts] give the same string (or the same failure), since
    every call of [Wrap] made by [Align] has a width of one or more. *)
Theorem Align_independent_of_terminal (e1 e2 : Env) (data : list row)
  (opts : option AlignOptions) :
  Align e1 data opts = Align e2 data opts.
Proof.
  unfold Align, prepare.
  destruct (length data =? 0)%nat; [reflexivity|].
  rewrite (prepare_env e1 e2). reflexivity.
Qed.

(** ** Multi-line expansion *)

Lemma maxCells_from (work : list (list bytes)) :
  forall m : nat,
    fold_left
      (fun m cells => if (m <? length cells)%nat then length cells else m)
      work m
    = Nat.max m (list_max (map (@length bytes) work)).
Proof.
  induction work as [|cells work IH]; intros m; simpl; [lia|].
  rewrite IH. destruct (m <? length cells)%nat eqn:E.
  - apply Nat.ltb_lt in E. lia.
  - apply Nat.ltb_ge in E. lia.
Qed.

Lemma maxCells_list_max (work : list (list bytes)) :
  maxCells work = list_max (map (@length bytes) work).
Proof.
  unfold maxCells. rewrite maxCells_from. lia.
Qed.

Lemma physical_row_nth (work : list (list bytes)) (c : nat) :
  physical_row work c = map (fun cells => nth c cells []) work.
Proof.
  unfold physical_row. apply map_ext. intros cells.
  destruct (c <? length cells)%nat eqn:E; [reflexivity|].
  apply Nat.ltb_ge in E. symmetry. apply nth_overflow. exact E.
Qed.

Lemma nth_error_map_seq {A : Type} (f : nat -> A) (n k : nat) :
  nth_error (map f (seq 0 n)) k = if (k <? n)%nat then Some (f k) else None.
Proof.
  destruct (k <? n)%nat eqn:E.
  - apply Nat.ltb_lt in E.
    rewrite nth_error_map, nth_error_nth' with (d := 0%nat)
      by (rewrite length_seq; exact E).
    rewrite seq_nth by exact E. reflexivity.
  - apply Nat.ltb_ge in E. apply nth_error_None.
    rewrite length_map, length_seq. exact E.
Qed.

Lemma expand_row_length (cells : list bytes) :
  length (expand_row cells)
  = list_max (map (fun cell => length (cell_lines cell)) cells).
Proof.
  unfold expand_row. rewrite length_map, length_seq, maxCells_list_max.
  unfold split_cells. rewrite map_map. reflexivity.
Qed.

(** ** Separators between all rows *)

Lemma cell_lines_length (cell : bytes) : (1 <= length (cell_lines cell))%nat.
Proof.
  unfold cell_lines, Split.
  pose proof (split_from_not_nil [LF] (Replace cell [CR; LF] [LF]) 0 []) as H.
  destruct (split_from [LF] 0 [] (Replace cell [CR; LF] [LF]));
    [congruence | simpl; lia].
Qed.

(** A row expands to no physical row exactly when it has no cell. *)
Lemma expand_row_nil (cells : list bytes) :
  (length (expand_row cells) =? 0)%nat = (length cells =? 0)%nat.
Proof.
  rewrite expand_row_length. destruct cells as [|cell rest]; [reflexivity|].
  simpl. pose proof (cell_lines_length cell) as H.
  destruct (Nat.max (length (cell_lines cell))
              (list_max (map (fun c => length (cell_lines c)) rest))) eqn:E;
    [lia | reflexivity].
Qed.

Lemma bind_assoc {A B C : Type} (m : result A) (f : A -> result B)
  (g : B -> result C) :
  bind (bind m f) g = bind m (fun a => bind (f a) g).
Proof.
  destruct m; reflexivity.
Qed.

Lemma prepare_between_every_row (e : Env) (opts : AlignOptions) :
  NilBetweenEveryRow opts = true ->
  forall (data : list row) (acc : list row),
    foldM (prepare_step e opts) data acc
    = (rows <- mapM (wrap_row e opts) (data_rows data) ;;
       Ok (acc ++ nil_when_preceded (negb (length acc =? 0)%nat)
                    (map expand_row rows))).
Proof.
  intros Hflag. induction data as [|r data IH]; intros acc.
  - simpl. rewrite app_nil_r. reflexivity.
  - destruct r as [cells|].
    + cbn [foldM data_rows mapM prepare_step]. rewrite Hflag.
      rewrite !bind_assoc.
      destruct (wrap_row e opts cells) as [wrapped| |]; cbn [bind];
        try reflexivity.
      rewrite IH, bind_assoc.
      destruct (mapM (wrap_row e opts) (data_rows data)) as [rows| |];
        cbn [bind]; try reflexivity.
      f_equal. cbn [map nil_when_preceded andb].
      destruct (length acc =? 0)%nat eqn:Eacc; cbn [negb].
      * rewrite length_app, length_map.
        destruct acc; [|discriminate]. cbn [app length Nat.add orb].
        reflexivity.
      * rewrite !length_app. cbn [length orb].
        match goal with
        | |- context [(?n =? 0)%nat] =>
            replace (n =? 0)%nat with false
              by (symmetry; apply Nat.eqb_neq; lia)
        end.
        rewrite <- !app_assoc. reflexivity.
    + cbn [foldM data_rows prepare_step]. rewrite Hflag. cbn [negb bind].
      apply IH.
Qed.

Lemma nil_when_preceded_true (groups : list (list (list bytes))) :
  nil_when_preceded true groups = nil_before_each groups.
Proof.
  induction groups as [|g rest IH]; simpl; [reflexivity|].
  rewrite IH. reflexivity.
Qed.

(** C6, as the code has it.  With NilBetweenEveryRow set, the nil rows of
    the caller are all dropped, and a nil row is put before the physical
    rows of a data row exactly when some physical row precedes them: the
    grid built depends on the data rows alone.  When every data row has a
    cell, that is a nil row before every data row after the first. *)
Theorem NilBetweenEveryRow_grid (e : Env) (opts : AlignOptions)
  (data : list row) :
  NilBetweenEveryRow opts = true ->
  prepare e opts data
  = (rows <- mapM (wrap_row e opts) (data_rows data) ;;
     Ok (nil_when_preceded false (map expand_row rows)))
  /\ (forall rows : list (list bytes),
        Forall (fun cells => cells <> []) rows ->
        nil_when_preceded false (map expand_row rows)
        = nil_after_first (map expand_row rows)).
Proof.
  intros Hflag. split.
  - unfold prepare. rewrite prepare_between_every_row by exact Hflag.
    reflexivity.
  - intros rows Hrows. destruct rows as [|cells rest]; [reflexivity|].
    cbn [map nil_when_preceded nil_after_first app orb].
    rewrite expand_row_nil.
    inversion Hrows as [|? ? Hcells _]; subst.
    destruct cells; [congruence|]. cbn [length Nat.eqb negb].
    rewrite nil_when_preceded_true. reflexivity.
Qed.

Lemma NilBetweenEveryRow_grid_witness :
  prepare no_terminal NewBoxedAlignOptions
    [Some [bs "a"]; None; None; Some [bs "b"]]
  = (rows <- mapM (wrap_row no_terminal NewBoxedAlignOptions)
               (data_rows [Some [bs "a"]; None; None; Some [bs "b"]]) ;;
     Ok (nil_when_preceded false (map expand_row rows))).
Proof.
  apply (proj1 (NilBetweenEveryRow_grid no_terminal NewBoxedAlignOptions
                  [Some [bs "a"]; None; None; Some [bs "b"]] eq_refl)).
Defined.

(** C6, as it is worded, fails: after a first data row without cells the
    second data row gets no nil row before it. *)
Lemma NilBetweenEveryRow_after_empty_row :
  prepare no_terminal NewBoxedAlignOptions [Some []; Some [bs "a"]]
  = Ok [Some [bs "a"]]
  /\ prepare no_terminal NewBoxedAlignOptions [Some []; Some [bs "a"]]
     <> Ok (nil_after_first [expand_row []; expand_row [bs "a"]]).
Proof.
  split; [reflexivity|]. intros H. vm_compute in H. discriminate H.
Qed.

(** ** Every data row is expanded where it stands *)





(** ** The length of a word with escape sequences *)


Lemma IndexByte_bound (c : ascii) (s : bytes) (i : nat) :
  IndexByte s c = Some i -> (i < length s)%nat.
Proof.
  revert i. induction s as [|b s IH]; intros i; simpl; [discriminate|].
  destruct (ascii_dec b c).
  - intros H. injection H as <-. lia.
  - destruct (IndexByte s c) as [k|]; [|discriminate].
    intros H. injection H as <-. specialize (IH k eq_refl). lia.
Qed.

(** A pass either leaves the state as it found it or drops two bytes or
    more from [scan]. *)
Lemma scan_pass_progress (s s' : bytes) (n n' : Z) :
  scan_pass (s, n) = inl (s', n') ->
  (s' = s /\ n' = n) \/ (length s' + 2 <= length s)%nat.
Proof.
  unfold scan_pass.
  destruct (length s <=? 1)%nat eqn:El; [discriminate|].
  apply Nat.leb_gt in El.
  destruct (IndexByte s ESC) as [i|]; [|discriminate].
  destruct (IndexByte (skipn (S i) s) LOWER_M) as [j|].
  - intros H. injection H as <- <-. right. rewrite length_skipn. lia.
  - intros H. injection H as <- <-. left. split; reflexivity.
Qed.

(** A state that a pass maps to itself is never left. *)
Lemma scan_run_stuck (st : scan_state) :
  scan_pass st = inl st -> forall fuel, scan_run fuel st = None.
Proof.
  intros H fuel. induction fuel as [|f IH]; simpl; [reflexivity|].
  rewrite H. exact IH.
Qed.

(** [length scan] passes and one more decide the outcome. *)
Lemma scan_run_enough :
  forall (k : nat) (s : bytes) (n : Z) (fuel : nat),
    (length s <= k)%nat -> (S (length s) <= fuel)%nat ->
    scan_run fuel (s, n) = scan_run (S k) (s, n).
Proof.
  induction k as [k IH] using lt_wf_ind. intros s n fuel Hk Hfuel.
  destruct fuel as [|f]; [lia|]. cbn [scan_run].
  destruct (scan_pass (s, n)) as [[s' n']|m] eqn:E; [|reflexivity].
  destruct (scan_pass_progress _ _ _ _ E) as [[-> ->]|Hlen].
  - rewrite !scan_run_stuck by exact E. reflexivity.
  - destruct k as [|k]; [lia|].
    rewrite (IH (length s')) with (fuel := f) by lia.
    rewrite (IH (length s')) with (fuel := S k) by lia.
    reflexivity.
Qed.

Lemma scan_run_more (f : nat) :
  forall (g : nat) (st : scan_state) (n : Z),
    (f <= g)%nat -> scan_run f st = Some n -> scan_run g st = Some n.
Proof.
  induction f as [|f IH]; intros g st n Hfg; simpl; [discriminate|].
  destruct g as [|g]; [lia|]. simpl.
  destruct (scan_pass st); [|auto]. apply IH. lia.
Qed.

(** [visible_len] is exact: it reports a hang when no number of passes
    leaves the loop, and the value the loop is left with otherwise. *)
Lemma visible_len_hangs (word : bytes) :
  visible_len word = Hang <->
  forall fuel, scan_run fuel (word, len word) = None.
Proof.
  unfold visible_len. split.
  - destruct (scan_run (S (length word)) (word, len word)) eqn:E;
      [discriminate|].
    intros _ fuel.
    destruct (le_lt_dec (S (length word)) fuel) as [Hf|Hf].
    + rewrite (scan_run_enough (length word)) by lia. exact E.
    + destruct (scan_run fuel (word, len word)) eqn:E'; [|reflexivity].
      rewrite (scan_run_more fuel (S (length word)) _ z) in E by (lia || auto).
      discriminate.
  - intros H. rewrite H. reflexivity.
Qed.

Lemma visible_len_returns (word : bytes) (n : Z) :
  visible_len word = Ok n <->
  exists fuel, scan_run fuel (word, len word) = Some n.
Proof.
  unfold visible_len. split.
  - destruct (scan_run (S (length word)) (word, len word)) eqn:E;
      [|discriminate].
    intros H. injection H as <-. exists (S (length word)). exact E.
  - intros [fuel H].
    destruct (le_lt_dec (S (length word)) fuel) as [Hf|Hf].
    + rewrite (scan_run_enough (length word)) in H by lia.
      rewrite H. reflexivity.
    + rewrite (scan_run_more fuel (S (length word)) _ n) by (lia || auto).
      reflexivity.
Qed.



(** ** Counting runes *)

Lemma first_byte_some (c : N) (size : nat) (lo hi : N) :
  utf8.first_byte c = Some (size, (lo, hi)) ->
  (size = 2 \/ size = 3 \/ size = 4)%nat /\ (128 <= lo)%N.
Proof.
  unfold utf8.first_byte. case_tests;
    intros H; inversion H; subst; split; auto; lia.
Qed.

Lemma outside_SP (lo hi : N) :
  (128 <= lo)%N -> utf8.outside lo hi SP = true.
Proof.
  intros H. unfold utf8.outside. apply orb_true_iff. left. apply N.ltb_lt.
  change (utf8.byte_val SP) with 32%N. lia.
Qed.

Lemma rune_size_SP (s : bytes) : utf8.rune_size (SP :: s) = 1%nat.
Proof. reflexivity. Qed.

(** A space after a string does not change how its first rune reads. *)
Lemma rune_size_app_SP (s t : bytes) :
  s <> [] -> utf8.rune_size (s ++ SP :: t) = utf8.rune_size s.
Proof.
  destruct s as [|c rest]; [congruence|]. intros _.
  unfold utf8.rune_size. cbn [app].
  destruct (utf8.byte_val c <? 128)%N; [reflexivity|].
  destruct (utf8.first_byte (utf8.byte_val c)) as [[size [lo hi]]|] eqn:Ef;
    [|reflexivity].
  destruct (first_byte_some _ _ _ _ Ef) as [Hsize Hlo].
  pose proof (outside_SP lo hi Hlo) as Hsp1.
  assert (Hsp2 : utf8.outside 128 191 SP = true) by (apply outside_SP; lia).
  destruct rest as [|c1 [|c2 [|c3 rest]]]; cbn [app length];
    destruct Hsize as [-> | [-> | ->]]; cbn [Nat.ltb Nat.leb Nat.eqb];
    rewrite ?Hsp1, ?Hsp2; case_tests; reflexivity.
Qed.

Lemma rune_size_le (s : bytes) : (utf8.rune_size s <= length s)%nat.
Proof.
  destruct s as [|c [|c1 [|c2 [|c3 rest]]]]; unfold utf8.rune_size;
    repeat match goal with
           | |- context [if ?b then _ else _] => destruct b
           | |- context [match ?o with Some _ => _ | None => _ end] =>
               destruct o as [[? [? ?]]|]
           end;
    cbn [length]; lia.
Qed.

Lemma rune_count_from_le (s : bytes) :
  forall skip, (utf8.rune_count_from skip s <= length s)%nat.
Proof.
  induction s as [|c s IH]; intros skip; cbn [utf8.rune_count_from length];
    [lia|].
  destruct skip as [|k].
  - specialize (IH (utf8.rune_size (c :: s) - 1)%nat). lia.
  - specialize (IH k). lia.
Qed.

(** A string has no more runes than bytes. *)
Lemma RuneCount_le_len (v : bytes) : utf8.RuneCountInString v <= len v.
Proof.
  unfold utf8.RuneCountInString, len.
  pose proof (rune_count_from_le v 0). lia.
Qed.

Lemma RuneCount_nonneg (v : bytes) : 0 <= utf8.RuneCountInString v.
Proof. unfold utf8.RuneCountInString. lia. Qed.

Lemma rune_count_spaces (n : nat) : utf8.rune_count_from 0 (repeat SP n) = n.
Proof.
  induction n as [|n IH]; [reflexivity|].
  cbn [repeat utf8.rune_count_from]. rewrite rune_size_SP. simpl. rewrite IH.
  reflexivity.
Qed.

Lemma rune_count_spaces_app (n : nat) (v : bytes) :
  utf8.rune_count_from 0 (repeat SP n ++ v) = (n + utf8.rune_count_from 0 v)%nat.
Proof.
  induction n as [|n IH]; [reflexivity|].
  cbn [repeat app utf8.rune_count_from]. rewrite rune_size_SP. simpl. rewrite IH.
  reflexivity.
Qed.

Lemma rune_count_app_spaces (n : nat) (v : bytes) :
  forall skip,
    (skip <= length v)%nat ->
    utf8.rune_count_from skip (v ++ repeat SP n)
    = (utf8.rune_count_from skip v + n)%nat.
Proof.
  induction v as [|c v IH]; intros skip Hskip.
  - simpl in Hskip. replace skip with 0%nat by lia.
    simpl. apply rune_count_spaces.
  - cbn [app utf8.rune_count_from]. destruct skip as [|k].
    + assert (E : utf8.rune_size (c :: v ++ repeat SP n) = utf8.rune_size (c :: v)).
      { destruct n as [|n]; [simpl; rewrite app_nil_r; reflexivity|].
        cbn [repeat]. apply (rune_size_app_SP (c :: v)). discriminate. }
      rewrite E. pose proof (rune_size_le (c :: v)) as Hle.
      rewrite IH by (cbn [length] in Hle; lia). reflexivity.
    + apply IH. simpl in Hskip. lia.
Qed.

Lemma RuneCount_spaces_app (n : Z) (v : bytes) :
  utf8.RuneCountInString (spaces n ++ v) = Z.max 0 n + utf8.RuneCountInString v.
Proof.
  unfold utf8.RuneCountInString, spaces. rewrite rune_count_spaces_app. lia.
Qed.

Lemma RuneCount_app_spaces (n : Z) (v : bytes) :
  utf8.RuneCountInString (v ++ spaces n) = utf8.RuneCountInString v + Z.max 0 n.
Proof.
  unfold utf8.RuneCountInString, spaces. rewrite rune_count_app_spaces by lia.
  lia.
Qed.

(** ** Column widths *)

Lemma grow_widths_spec (cells : list bytes) (c : nat) (n : nat) :
  forall widths : list Z,
    (n + length widths <= length cells)%nat ->
    nth_error (grow_widths n widths cells) c
    = if (c <? length widths)%nat then nth_error widths c
      else if (c <? length widths + n)%nat
           then option_map len (nth_error cells c)
           else None.
Proof.
  induction n as [|n IH]; intros widths Hn; cbn [grow_widths].
  - destruct (Nat.ltb_spec c (length widths)) as [Hc|Hc]; [reflexivity|].
    nat_tests. apply nth_error_None. exact Hc.
  - rewrite IH by (rewrite length_app; simpl; lia).
    rewrite length_app. cbn [length].
    destruct (Nat.ltb_spec c (length widths)) as [Hc|Hc].
    + nat_tests. apply nth_error_app1. exact Hc.
    + destruct (Nat.eq_dec c (length widths)) as [->|Hne].
      * nat_tests. rewrite nth_error_app2, Nat.sub_diag by lia. cbn [nth_error].
        rewrite (nth_error_nth' cells []) by lia. reflexivity.
      * nat_tests.
        replace (c <? length widths + 1 + n)%nat
          with (c <? length widths + S n)%nat by (f_equal; lia).
        reflexivity.
Qed.

(** After the growing loop the widths reach the end of the row: the new
    entries are byte lengths. *)
Lemma grow_widths_nth_error (widths : list Z) (cells : list bytes) (c : nat) :
  nth_error (grow_widths (length cells - length widths) widths cells) c
  = match nth_error widths c with
    | Some x => Some x
    | None => option_map len (nth_error cells c)
    end.
Proof.
  destruct (le_lt_dec (length cells) (length widths)) as [Hlong|Hshort].
  { replace (length cells - length widths)%nat with 0%nat by lia.
    cbn [grow_widths]. destruct (nth_error widths c) eqn:E; [reflexivity|].
    apply nth_error_None in E.
    replace (nth_error cells c) with (@None bytes)
      by (symmetry; apply nth_error_None; lia).
    reflexivity. }
  rewrite grow_widths_spec by lia.
  destruct (Nat.ltb_spec c (length widths)) as [Hc|Hc].
  - destruct (nth_error widths c) eqn:E; [reflexivity|].
    apply nth_error_None in E. lia.
  - replace (nth_error widths c) with (@None Z)
      by (symmetry; apply nth_error_None; exact Hc).
    destruct (Nat.ltb_spec c (length widths + (length cells - length widths)))
      as [Hc'|Hc']; [reflexivity|].
    replace (nth_error cells c) with (@None bytes)
      by (symmetry; apply nth_error_None; lia).
    reflexivity.
Qed.

Lemma set_nth_nth_error (c : nat) (x : Z) (l : list Z) (i : nat) :
  nth_error (set_nth c x l) i
  = match nth_error l i with
    | Some y => Some (if (i =? c)%nat then x else y)
    | None => None
    end.
Proof.
  revert c i. induction l as [|y l IH]; intros c i.
  - destruct c, i; reflexivity.
  - destruct c as [|c], i as [|i]; cbn [set_nth nth_error];
      try reflexivity.
    + destruct (nth_error l i); reflexivity.
    + rewrite IH. reflexivity.
Qed.

(** The measuring loop raises each entry it passes to the rune count of
    the cell there. *)
Lemma measure_cells_nth_error (cells : list bytes) :
  forall (c : nat) (widths : list Z) (i : nat),
    nth_error (measure_cells c cells widths) i
    = match nth_error widths i with
      | Some x =>
          Some (if (c <=? i)%nat && (i <? c + length cells)%nat
                then Z.max x (utf8.RuneCountInString (nth (i - c) cells []))
                else x)
      | None => None
      end.
Proof.
  induction cells as [|v rest IH]; intros c widths i; cbn [measure_cells].
  - destruct (nth_error widths i); [|reflexivity].
    cbn [length].
    destruct (Nat.leb_spec c i); [nat_tests|]; reflexivity.
  - rewrite IH.
    assert (Hw : nth_error
                   (if utf8.RuneCountInString v >? nth c widths 0
                    then set_nth c (utf8.RuneCountInString v) widths
                    else widths) i
                 = match nth_error widths i with
                   | Some x =>
                       Some (if (i =? c)%nat
                             then Z.max x (utf8.RuneCountInString v) else x)
                   | None => None
                   end).
    { destruct (utf8.RuneCountInString v >? nth c widths 0) eqn:E.
      - rewrite set_nth_nth_error.
        destruct (nth_error widths i) as [x|] eqn:Ex; [|reflexivity].
        destruct (Nat.eqb_spec i c) as [->|_]; [|reflexivity].
        rewrite (nth_error_nth _ _ 0 Ex) in E.
        apply Z.gtb_lt in E. f_equal. lia.
      - destruct (nth_error widths i) as [x|] eqn:Ex; [|reflexivity].
        destruct (Nat.eqb_spec i c) as [->|_]; [|reflexivity].
        rewrite (nth_error_nth _ _ 0 Ex) in E.
        assert (utf8.RuneCountInString v <= x)
          by (destruct (Z.gtb_spec (utf8.RuneCountInString v) x); [discriminate|lia]).
        f_equal. lia. }
    rewrite Hw. destruct (nth_error widths i) as [x|]; [|reflexivity].
    f_equal. cbn [length].
    destruct (Nat.eqb_spec i c) as [->|Hne].
    + rewrite Nat.sub_diag. cbn [nth]. nat_tests. reflexivity.
    + destruct (Nat.leb_spec (S c) i) as [Hle|Hgt].
      * nat_tests.
        replace (i - c)%nat with (S (i - S c)) by lia. cbn [nth andb].
        replace (i <? S c + length rest)%nat
          with (i <? c + S (length rest))%nat
          by (f_equal; lia).
        reflexivity.
      * nat_tests. reflexivity.
Qed.

(** What one data row does to the width of column [c]. *)
Lemma widths_step_nth_error (widths : list Z) (cells : list bytes) (c : nat) :
  nth_error (widths_step widths (Some cells)) c
  = match nth_error cells c with
    | None => nth_error widths c
    | Some v =>
        Some (match nth_error widths c with
              | Some x => Z.max x (utf8.RuneCountInString v)
              | None => Z.max (len v) (utf8.RuneCountInString v)
              end)
    end.
Proof.
  unfold widths_step. rewrite measure_cells_nth_error.
  rewrite grow_widths_nth_error. rewrite Nat.sub_0_r. cbn [Nat.leb andb Nat.add].
  destruct (nth_error cells c) as [v|] eqn:Ec.
  - assert (Hc : (c < length cells)%nat) by (apply nth_error_Some; congruence).
    nat_tests.
    rewrite (@nth_error_nth bytes cells c v [] Ec).
    destruct (nth_error widths c); reflexivity.
  - apply nth_error_None in Ec.
    nat_tests.
    destruct (nth_error widths c); reflexivity.
Qed.

(** The width of a column after the whole grid: a running maximum that
    starts from the entry already there or, for a new column, from the
    byte length of the first cell that reaches it. *)
Lemma widths_fold_nth_error (data : list row) :
  forall (widths : list Z) (c : nat),
    nth_error (fold_left widths_step data widths) c
    = match nth_error widths c with
      | Some x => Some (max_from x (column_cells c data))
      | None =>
          match column_cells c data with
          | [] => None
          | v :: rest =>
              Some (max_from (Z.max (len v) (utf8.RuneCountInString v)) rest)
          end
      end.
Proof.
  induction data as [|r data IH]; intros widths c; cbn [fold_left].
  - cbn [column_cells]. destruct (nth_error widths c); reflexivity.
  - rewrite IH. destruct r as [cells|]; cbn [column_cells].
    + rewrite widths_step_nth_error.
      destruct (nth_error cells c) as [v|];
        destruct (nth_error widths c) as [x|]; reflexivity.
    + cbn [widths_step]. reflexivity.
Qed.


Lemma max_runes_nonneg (cells : list bytes) : 0 <= max_runes cells.
Proof.
  induction cells as [|v rest IH]; [unfold max_runes; simpl; lia|].
  change (max_runes (v :: rest))
    with (Z.max (utf8.RuneCountInString v) (max_runes rest)).
  lia.
Qed.

Lemma max_from_max_runes (cells : list bytes) :
  forall x, 0 <= x -> max_from x cells = Z.max x (max_runes cells).
Proof.
  unfold max_from.
  induction cells as [|v rest IH]; intros x Hx; cbn [fold_left].
  - unfold max_runes. simpl. lia.
  - rewrite IH by lia. change (max_runes (v :: rest))
      with (Z.max (utf8.RuneCountInString v) (max_runes rest)). lia.
Qed.

Lemma max_from_ge (cells : list bytes) :
  forall x,
    x <= max_from x cells
    /\ (forall v, In v cells -> utf8.RuneCountInString v <= max_from x cells).
Proof.
  unfold max_from.
  induction cells as [|v rest IH]; intros x; cbn [fold_left].
  - split; [lia|]. intros v [].
  - destruct (IH (Z.max x (utf8.RuneCountInString v))) as [H1 H2].
    split; [lia|]. intros u [<-|Hu]; [lia|]. apply H2. exact Hu.
Qed.

Lemma column_cells_In (data : list row) (cells : list bytes) (c : nat)
  (v : bytes) :
  In (Some cells) data -> nth_error cells c = Some v ->
  In v (column_cells c data).
Proof.
  intros Hin Hv. induction data as [|r data IH]; [destruct Hin|].
  destruct Hin as [->|Hin].
  - cbn [column_cells]. rewrite Hv. left. reflexivity.
  - specialize (IH Hin). destruct r as [cells'|]; cbn [column_cells];
      [|exact IH].
    destruct (nth_error cells' c); [right|]; exact IH.
Qed.

(** The width of a column whose first cell has as many bytes as runes is
    the largest rune count in the column. *)
Lemma column_widths_max_runes (data : list row) (c : nat) (v : bytes)
  (rest : list bytes) :
  column_cells c data = v :: rest ->
  len v = utf8.RuneCountInString v ->
  nth_error (column_widths data) c = Some (max_runes (column_cells c data)).
Proof.
  intros Hcol Hv. unfold column_widths. rewrite widths_fold_nth_error.
  replace (nth_error (@nil Z) c) with (@None Z) by (destruct c; reflexivity).
  rewrite Hcol, Hv, Z.max_id.
  rewrite max_from_max_runes by apply RuneCount_nonneg.
  reflexivity.
Qed.

(** No cell is wider than its column. *)
Lemma column_widths_ge (data : list row) (cells : list bytes) (c : nat)
  (v : bytes) :
  In (Some cells) data -> nth_error cells c = Some v ->
  utf8.RuneCountInString v <= nth c (column_widths data) 0.
Proof.
  intros Hin Hv. pose proof (column_cells_In _ _ _ _ Hin Hv) as Hcol.
  assert (E : nth_error (column_widths data) c
              = match column_cells c data with
                | [] => None
                | u :: rest =>
                    Some (max_from (Z.max (len u) (utf8.RuneCountInString u)) rest)
                end).
  { unfold column_widths. rewrite widths_fold_nth_error.
    destruct c; reflexivity. }
  destruct (column_cells c data) as [|u rest]; [destruct Hcol|].
  rewrite (nth_error_nth _ _ 0 E).
  destruct (max_from_ge rest (Z.max (len u) (utf8.RuneCountInString u)))
    as [H1 H2].
  destruct Hcol as [<-|Hcol]; [lia|]. apply H2. exact Hcol.
Qed.

(** A padded cell fills its column exactly. *)
Lemma emit_cell_width (opts : AlignOptions) (widths : list Z)
  (alignments : list Alignment) (n c : nat) (v : bytes) :
  utf8.RuneCountInString v <= nth c widths 0 ->
  padded opts (nth c alignments Left) n c = true ->
  utf8.RuneCountInString (emit_cell opts widths alignments n c v)
  = nth c widths 0.
Proof.
  intros Hle Hpad. unfold emit_cell, padded in *.
  pose proof (RuneCount_nonneg v) as Hk.
  destruct (nth c alignments Left =? Right).
  - rewrite RuneCount_spaces_app. lia.
  - cbn [orb] in Hpad. rewrite Hpad.
    destruct (nth c alignments Left =? Center).
    + rewrite RuneCount_spaces_app, RuneCount_app_spaces.
      Z.quot_rem_to_equations. lia.
    + rewrite RuneCount_app_spaces. lia.
Qed.

Lemma prepare_nil (e : Env) (opts : AlignOptions) :
  prepare e opts [] = Ok [].
Proof. reflexivity. Qed.

(** C1, as the code has it.  [Align] pads with the widths of the grid it
    has expanded.  The width of a column is the largest codepoint count
    of the cells placed in it, escape sequences counted, when the first
    cell placed in the column has as many bytes as codepoints; no cell is
    wider than its column; and the field of a cell that is padded (under
    Right always, otherwise when trailing whitespace is kept or the cell
    is not the last of its row) has exactly that width. *)
Theorem Align_column_widths (e : Env) (data : list row) (opts : AlignOptions)
  (grid : list row) :
  prepare e opts data = Ok grid ->
  grid <> [] ->
  Align e data (Some opts) = Ok (emit_table opts grid)
  /\ (forall (c : nat) (v : bytes) (rest : list bytes),
        column_cells c grid = v :: rest ->
        len v = utf8.RuneCountInString v ->
        nth_error (column_widths grid) c
        = Some (max_runes (column_cells c grid)))
  /\ (forall (cells : list bytes) (c : nat) (v : bytes),
        In (Some cells) grid ->
        nth_error cells c = Some v ->
        utf8.RuneCountInString v <= nth c (column_widths grid) 0
        /\ (padded opts
              (nth c (resolve_alignments (Alignments opts)
                        (length (column_widths grid))) Left)
              (length cells) c = true ->
            utf8.RuneCountInString
              (emit_cell opts (column_widths grid)
                 (resolve_alignments (Alignments opts)
                    (length (column_widths grid)))
                 (length cells) c v)
            = nth c (column_widths grid) 0)).
Proof.
  intros Hprep Hgrid. split; [|split].
  - unfold Align. destruct data as [|r data].
    + rewrite prepare_nil in Hprep. injection Hprep as <-. congruence.
    + cbn [length Nat.eqb]. rewrite Hprep. cbn [bind].
      destruct grid; [congruence | reflexivity].
  - intros c v rest. apply column_widths_max_runes.
  - intros cells c v Hin Hv.
    pose proof (column_widths_ge _ _ _ _ Hin Hv) as Hle.
    split; [exact Hle|]. apply emit_cell_width. exact Hle.
Qed.

Lemma Align_column_widths_witness :
  Align no_terminal [Some [bs "a"; bs "bcd"]; None; Some [bs "ef"]]
    (Some NewSimpleAlignOptions)
  = Ok (emit_table NewSimpleAlignOptions
          [Some [bs "a"; bs "bcd"]; None; Some [bs "ef"]]).
Proof.
  apply (proj1 (Align_column_widths no_terminal
                  [Some [bs "a"; bs "bcd"]; None; Some [bs "ef"]]
                  NewSimpleAlignOptions
                  [Some [bs "a"; bs "bcd"]; None; Some [bs "ef"]]
                  eq_refl ltac:(discriminate))).
Defined.

(** C1, as it is worded, fails: an escape sequence counts towards the
    width.  A bold "ab" above a plain "abc" makes a column of width 10,
    while the widest cell has 3 codepoints outside escape sequences; the
    plain cell is padded to 10. *)
Lemma column_width_counts_escape_sequences :
  prepare no_terminal NewSimpleAlignOptions bold_grid = Ok bold_grid
  /\ column_widths bold_grid = [10]
  /\ max_visible_runes (column_cells 0 bold_grid) = 3
  /\ nth_error (column_widths bold_grid) 0
     <> Some (max_visible_runes (column_cells 0 bold_grid))
  /\ Align no_terminal bold_grid (Some NewSimpleAlignOptions)
     = Ok (bs "+------------+" ++ [LF]
           ++ bs "| " ++ [ESC] ++ bs "[1mab" ++ [ESC] ++ bs "[0m |" ++ [LF]
           ++ bs "| abc        |" ++ [LF]
           ++ bs "+------------+" ++ [LF]).
Proof.
  split; [reflexivity|]. split; [reflexivity|]. split; [reflexivity|].
  split; [|vm_compute; reflexivity].
  intros H. vm_compute in H. discriminate H.
Qed.

(** ** Rows shorter than the grid is wide *)

Lemma emit_cells_fields (opts : AlignOptions) (widths : list Z)
  (alignments : list Alignment) (n : nat) (cells : list bytes) :
  forall c : nat,
    emit_cells opts widths alignments n c cells
    = concat
        (map (fun p =>
                connector (RowSecondUD opts) (RowUD opts) (fst p)
                ++ emit_cell opts widths alignments n (fst p) (snd p))
           (combine (seq c (length cells)) cells)).
Proof.
  induction cells as [|v rest IH]; intros c; [reflexivity|].
  cbn [emit_cells length seq combine map concat fst snd].
  rewrite IH, <- app_assoc. reflexivity.
Qed.

Lemma pad_cells_nth_error (n : nat) (cells : list bytes) (c : nat) :
  nth_error (pad_cells n cells) c
  = match nth_error cells c with
    | Some v => Some v
    | None => if (c <? n)%nat then Some [] else None
    end.
Proof.
  unfold pad_cells. destruct (nth_error cells c) as [v|] eqn:E.
  - rewrite nth_error_app1 by (apply nth_error_Some; congruence). exact E.
  - apply nth_error_None in E. rewrite nth_error_app2 by exact E.
    destruct (Nat.ltb_spec c n) as [Hc|Hc].
    + apply nth_error_repeat. lia.
    + apply nth_error_None. rewrite repeat_length. lia.
Qed.

(** Empty cells in a column leave its largest rune count as it is. *)
Lemma column_cells_pad_max (n c : nat) (data : list row) :
  (c < n)%nat ->
  max_runes (column_cells c (map (pad_row n) data))
  = max_runes (column_cells c data).
Proof.
  intros Hc. induction data as [|r data IH]; [reflexivity|].
  destruct r as [cells|]; cbn [map pad_row column_cells]; [|exact IH].
  rewrite pad_cells_nth_error.
  nat_tests.
  destruct (nth_error cells c) as [v|].
  - change (max_runes (v :: ?l))
      with (Z.max (utf8.RuneCountInString v) (max_runes l)).
    rewrite IH. reflexivity.
  - change (max_runes ([] :: ?l))
      with (Z.max (utf8.RuneCountInString []) (max_runes l)).
    rewrite IH. pose proof (max_runes_nonneg (column_cells c data)).
    change (utf8.RuneCountInString []) with 0. lia.
Qed.

(** The first cell of a column after padding is empty or the first cell
    the column had. *)
Lemma column_cells_pad_first (n c : nat) (data : list row) (v : bytes)
  (rest : list bytes) :
  column_cells c (map (pad_row n) data) = v :: rest ->
  v = [] \/ exists rest', column_cells c data = v :: rest'.
Proof.
  induction data as [|r data IH]; [discriminate|].
  destruct r as [cells|]; cbn [map pad_row column_cells]; [|exact IH].
  rewrite pad_cells_nth_error.
  destruct (nth_error cells c) as [u|].
  - intros H. injection H as -> _. right. eexists. reflexivity.
  - destruct (c <? n)%nat; [|exact IH].
    intros H. injection H as <- _. left. reflexivity.
Qed.

Lemma column_cells_pad_beyond (n c : nat) (data : list row) :
  (n <= c)%nat ->
  column_cells c (map (pad_row n) data) = column_cells c data.
Proof.
  intros Hc. induction data as [|r data IH]; [reflexivity|].
  destruct r as [cells|]; cbn [map pad_row column_cells]; [|exact IH].
  rewrite pad_cells_nth_error.
  nat_tests.
  rewrite IH. destruct (nth_error cells c); reflexivity.
Qed.

Lemma column_cells_pad_nil (n c : nat) (data : list row) :
  column_cells c (map (pad_row n) data) = [] -> column_cells c data = [].
Proof.
  induction data as [|r data IH]; [reflexivity|].
  destruct r as [cells|]; cbn [map pad_row column_cells]; [|exact IH].
  rewrite pad_cells_nth_error.
  destruct (nth_error cells c) as [u|]; [discriminate|].
  destruct (c <? n)%nat; [discriminate | exact IH].
Qed.

Lemma column_widths_nth_error (data : list row) (c : nat) :
  nth_error (column_widths data) c
  = match column_cells c data with
    | [] => None
    | v :: rest => Some (max_from (Z.max (len v) (utf8.RuneCountInString v)) rest)
    end.
Proof.
  unfold column_widths. rewrite widths_fold_nth_error.
  destruct c; reflexivity.
Qed.

(** Measuring a grid whose short rows are filled up with empty cells
    gives the widths of the grid itself, when the first cell of every
    column has as many bytes as runes. *)
Lemma column_widths_pad (data : list row) :
  (forall c v rest,
      column_cells c data = v :: rest -> len v = utf8.RuneCountInString v) ->
  column_widths (map (pad_row (length (column_widths data))) data)
  = column_widths data.
Proof.
  intros Hfirst. apply nth_error_ext. intros c.
  set (n := length (column_widths data)).
  destruct (le_lt_dec n c) as [Hc|Hc].
  - rewrite !column_widths_nth_error, column_cells_pad_beyond by exact Hc.
    reflexivity.
  - assert (Hsome : nth_error (column_widths data) c <> None)
      by (apply nth_error_Some; exact Hc).
    rewrite column_widths_nth_error in Hsome.
    destruct (column_cells c data) as [|v rest] eqn:Ecol; [congruence|].
    rewrite (column_widths_max_runes data c v rest Ecol (Hfirst _ _ _ Ecol)).
    rewrite column_widths_nth_error.
    destruct (column_cells c (map (pad_row n) data)) as [|v0 rest0] eqn:Epad.
    + apply column_cells_pad_nil in Epad. congruence.
    + f_equal.
      assert (Hv0 : len v0 = utf8.RuneCountInString v0).
      { destruct (column_cells_pad_first n c data v0 rest0 Epad)
          as [->|[rest' E']]; [reflexivity|].
        apply (Hfirst _ _ _ E'). }
      rewrite Hv0, Z.max_id.
      rewrite max_from_max_runes by apply RuneCount_nonneg.
      pose proof (column_cells_pad_max n c data Hc) as Hmax.
      rewrite Epad in Hmax. exact Hmax.
Qed.

(** C2, as the code has it.  The line of a data row is made of the cells
    the row has: the leading glyph, then for each cell its connector and
    its field, then the trailing glyph and the line feed; a column the
    row does not reach gets neither a connector nor a field.  In the
    measuring of widths a missing cell counts like an empty one, when the
    first cell of every column has as many bytes as codepoints. *)
Theorem short_row_rendering (opts : AlignOptions) (grid : list row)
  (cells : list bytes) :
  In (Some cells) grid ->
  (forall c v rest,
      column_cells c grid = v :: rest -> len v = utf8.RuneCountInString v) ->
  column_widths (map (pad_row (length (column_widths grid))) grid)
  = column_widths grid
  /\ emit_row opts (column_widths grid)
       (resolve_alignments (Alignments opts) (length (column_widths grid)))
       cells
     = RowFirstUD opts
       ++ concat
            (map (fun p =>
                    connector (RowSecondUD opts) (RowUD opts) (fst p)
                    ++ emit_cell opts (column_widths grid)
                         (resolve_alignments (Alignments opts)
                            (length (column_widths grid)))
                         (length cells) (fst p) (snd p))
               (combine (seq 0 (length cells)) cells))
       ++ RowLastUD opts ++ [LF]
  /\ length (combine (seq 0 (length cells)) cells) = length cells.
Proof.
  intros _ Hfirst. split; [apply column_widths_pad; exact Hfirst|]. split.
  - unfold emit_row. rewrite emit_cells_fields. reflexivity.
  - rewrite length_combine, length_seq. apply Nat.min_id.
Qed.

Lemma short_row_rendering_witness :
  column_widths
    (map (pad_row (length (column_widths
                             [Some [bs "a"; bs "b"]; Some [bs "c"]])))
       [Some [bs "a"; bs "b"]; Some [bs "c"]])
  = column_widths [Some [bs "a"; bs "b"]; Some [bs "c"]].
Proof.
  refine (proj1 (short_row_rendering NewSimpleAlignOptions
                   [Some [bs "a"; bs "b"]; Some [bs "c"]] [bs "c"] _ _)).
  - right. left. reflexivity.
  - intros c v rest H. destruct c as [|[|c]]; simpl in H.
    + injection H as <- _. reflexivity.
    + injection H as <- _. reflexivity.
    + destruct c; discriminate H.
Defined.

(** C2, as it is worded, fails: the line of a short row stops after the
    last cell the row has, where the line of the same row filled up with
    an empty cell goes on with a connector and an empty field. *)
Lemma short_row_gets_no_empty_field :
  Align no_terminal [Some [bs "a"; bs "b"]; Some [bs "c"]]
    (Some NewSimpleAlignOptions)
  = Ok (bs "+---+---+" ++ [LF] ++ bs "| a | b |" ++ [LF]
        ++ bs "| c |" ++ [LF] ++ bs "+---+---+" ++ [LF])
  /\ Align no_terminal [Some [bs "a"; bs "b"]; Some [bs "c"; []]]
       (Some NewSimpleAlignOptions)
     = Ok (bs "+---+---+" ++ [LF] ++ bs "| a | b |" ++ [LF]
           ++ bs "| c |   |" ++ [LF] ++ bs "+---+---+" ++ [LF])
  /\ Align no_terminal [Some [bs "a"; bs "b"]; Some [bs "c"]]
       (Some NewSimpleAlignOptions)
     <> Align no_terminal [Some [bs "a"; bs "b"]; Some [bs "c"; []]]
          (Some NewSimpleAlignOptions).
Proof.
  split; [vm_compute; reflexivity|]. split; [vm_compute; reflexivity|].
  intros H. vm_compute in H. discriminate H.
Qed.

(** ** Greedy filling *)

Lemma replace_one (a b : ascii) (s : bytes) :
  Replace s [a] [b] = map (fun c => if ascii_dec a c then b else c) s.
Proof.
  unfold Replace. induction s as [|c s IH]; [reflexivity|].
  cbn [replace_from has_prefix map]. destruct (ascii_dec a c).
  - cbn [length Nat.sub app]. rewrite IH. reflexivity.
  - rewrite IH. reflexivity.
Qed.

(** The non-empty pieces between spaces, once line feeds are spaces, are
    the words. *)
Lemma split_spaces_fields (s : bytes) :
  forall cur : bytes,
    filter (fun w => negb (length w =? 0)%nat)
      (split_from [SP] 0 cur
         (map (fun c => if ascii_dec LF c then SP else c) s))
    = fields_from cur s.
Proof.
  assert (Hflush : forall cur : bytes,
             filter (fun w => negb (length w =? 0)%nat) [rev cur]
             = flush cur).
  { intros [|b cur]; [reflexivity|]. cbn [filter flush].
    rewrite length_rev. reflexivity. }
  induction s as [|c s IH]; intros cur.
  - cbn [map split_from fields_from]. apply Hflush.
  - cbn [map split_from fields_from has_prefix]. unfold is_delim.
    destruct (ascii_dec LF c) as [<-|Hlf].
    + destruct (ascii_dec SP SP) as [_|]; [|congruence].
      destruct (ascii_dec LF SP) as [E|_]; [discriminate E|].
      destruct (ascii_dec LF LF) as [_|]; [|congruence].
      cbn [length Nat.sub].
      change (rev cur :: ?l) with ([rev cur] ++ l).
      rewrite filter_app, Hflush, IH. reflexivity.
    + destruct (ascii_dec SP c) as [<-|Hsp].
      * destruct (ascii_dec SP SP) as [_|]; [|congruence].
        cbn [length Nat.sub].
        change (rev cur :: ?l) with ([rev cur] ++ l).
        rewrite filter_app, Hflush, IH. reflexivity.
      * destruct (ascii_dec c SP) as [E|_]; [congruence|].
        destruct (ascii_dec c LF) as [E|_]; [congruence|].
        apply IH.
Qed.

Lemma words_split (par : bytes) :
  filter (fun w => negb (length w =? 0)%nat)
    (Split (Replace par [LF] [SP]) [SP])
  = words par.
Proof.
  rewrite replace_one. apply split_spaces_fields.
Qed.

Lemma visible_len_vlen (w : bytes) :
  visible_len w <> Hang -> visible_len w = Ok (vlen w).
Proof.
  unfold vlen, visible_len.
  destruct (scan_run (S (length w)) (w, len w)); [reflexivity|congruence].
Qed.

Lemma fields_from_nonempty (s : bytes) :
  forall (cur : bytes) (w : bytes),
    In w (fields_from cur s) -> w <> [].
Proof.
  assert (Hflush : forall cur w, In w (flush cur) -> w <> []).
  { intros [|b cur] w; [intros []|]. intros [<-|[]].
    intros E. apply (f_equal (@length ascii)) in E.
    rewrite length_rev in E. discriminate E. }
  induction s as [|c s IH]; intros cur w; cbn [fields_from].
  - apply Hflush.
  - destruct (is_delim c); [|apply IH].
    intros Hin. apply in_app_or in Hin. destruct Hin as [Hin|Hin].
    + apply (Hflush _ _ Hin).
    + apply (IH _ _ Hin).
Qed.

(** The loops of [wrap], for a width and two prefixes. *)
Section Filling.

Variable width : Z.
Variables indent1 indent2 : bytes.

(** Empty pieces are passed over by the loop. *)
Lemma foldM_word_step_filter (l : list bytes) :
  forall st : wstate,
    foldM (word_step width indent1 indent2) l st
    = foldM (word_step width indent1 indent2)
        (filter (fun w => negb (length w =? 0)%nat) l) st.
Proof.
  induction l as [|w l IH]; intros st; [reflexivity|].
  cbn [foldM filter]. destruct (length w =? 0)%nat eqn:E; cbn [negb].
  - unfold word_step at 1. rewrite E. cbn [bind]. apply IH.
  - cbn [foldM]. destruct (word_step width indent1 indent2 st w);
      cbn [bind]; auto.
Qed.

(** The loop over the words after the first of a paragraph. *)
Lemma foldM_word_step_fill (ws : list bytes) :
  (forall w, In w ws -> w <> [] /\ visible_len w <> Hang) ->
  forall (buf : bytes) (l : Z),
  exists l',
    foldM (word_step width indent1 indent2) ws
      {| out := buf; lineLen := l; start := false |}
    = Ok {| out := buf ++ fill width indent2 l ws;
            lineLen := l'; start := false |}.
Proof.
  induction ws as [|w rest IH]; intros Hws buf l.
  - exists l. cbn [foldM fill]. rewrite app_nil_r. reflexivity.
  - destruct (Hws w (or_introl eq_refl)) as [Hne Hlen].
    assert (Hrest : forall u, In u rest -> u <> [] /\ visible_len u <> Hang)
      by (intros u Hu; apply Hws; right; exact Hu).
    cbn [foldM fill]. unfold word_step at 1.
    destruct w as [|b w]; [congruence|]. cbn [length Nat.eqb].
    rewrite (visible_len_vlen _ Hlen). cbn [bind start lineLen out].
    destruct (l + 1 + vlen (b :: w) >? width); cbn [bind].
    + destruct (IH Hrest (buf ++ [LF] ++ indent2 ++ b :: w)
                  (len indent2 + vlen (b :: w))) as [l' E].
      exists l'. rewrite E. rewrite <- !app_assoc. reflexivity.
    + destruct (IH Hrest (buf ++ [SP] ++ b :: w) (l + 1 + vlen (b :: w)))
        as [l' E].
      exists l'. rewrite E. rewrite <- !app_assoc. reflexivity.
Qed.

(** The body of the loop over the paragraphs. *)
Lemma par_step_fill (buf par : bytes) :
  (forall w, In w (words par) -> visible_len w <> Hang) ->
  par_step width indent1 indent2 buf par
  = Ok (buf ++ fill_paragraph width indent1 indent2 (words par) ++ [LF; LF]).
Proof.
  intros Hlen. unfold par_step.
  rewrite foldM_word_step_filter, words_split.
  assert (Hws : forall w, In w (words par) ->
                          w <> [] /\ visible_len w <> Hang).
  { intros w Hw. split; [|apply Hlen; exact Hw].
    apply (fields_from_nonempty par [] w Hw). }
  destruct (words par) as [|w rest].
  - cbn [foldM bind out fill_paragraph]. reflexivity.
  - destruct (Hws w (or_introl eq_refl)) as [Hne Hw].
    cbn [foldM fill_paragraph]. unfold word_step at 1.
    destruct w as [|b w]; [congruence|]. cbn [length Nat.eqb].
    rewrite (visible_len_vlen _ Hw). cbn [bind start lineLen out].
    destruct (foldM_word_step_fill rest
                (fun u Hu => Hws u (or_intror Hu))
                (buf ++ indent1 ++ b :: w)
                (0 + len indent1 + vlen (b :: w))) as [l' E].
    rewrite E. cbn [bind out]. rewrite Z.add_0_l, <- !app_assoc.
    reflexivity.
Qed.

Lemma foldM_par_step_fill (pars : list bytes) :
  (forall par w, In par pars -> In w (words par) -> visible_len w <> Hang) ->
  forall buf : bytes,
    foldM (par_step width indent1 indent2) pars buf
    = Ok (buf
          ++ concat
               (map (fun par =>
                       fill_paragraph width indent1 indent2 (words par)
                       ++ [LF; LF])
                  pars)).
Proof.
  induction pars as [|par pars IH]; intros Hlen buf.
  - cbn [foldM map concat]. rewrite app_nil_r. reflexivity.
  - cbn [foldM map concat].
    rewrite par_step_fill by (intros w Hw; apply (Hlen par w);
                              [left; reflexivity | exact Hw]).
    cbn [bind]. rewrite IH by (intros p w Hp Hw; apply (Hlen p w);
                               [right; exact Hp | exact Hw]).
    rewrite <- !app_assoc. reflexivity.
Qed.

(** [wrap] fills the text, when the scan of every word comes to an end;
    the empty text is returned as it is. *)
Lemma wrap_fill_text (text : bytes) :
  (forall par w,
      In par (paragraphs text) -> In w (words par) ->
      visible_len w <> Hang) ->
  wrap text width indent1 indent2
  = Ok (match text with
        | [] => []
        | _ :: _ => fill_text width indent1 indent2 text
        end).
Proof.
  intros Hlen. unfold wrap. destruct text as [|b text]; [reflexivity|].
  cbn [length Nat.eqb].
  fold (paragraphs (b :: text)).
  rewrite foldM_par_step_fill by exact Hlen. reflexivity.
Qed.

End Filling.

Lemma visible_len_plain (w : bytes) :
  ~ In ESC w -> visible_len w = Ok (len w).
Proof.
  intros Hesc. unfold visible_len. cbn [scan_run]. unfold scan_pass.
  destruct (length w <=? 1)%nat; [reflexivity|].
  assert (E : IndexByte w ESC = None).
  { induction w as [|b w IH]; [reflexivity|]. cbn [IndexByte].
    destruct (ascii_dec b ESC) as [->|_]; [exfalso; apply Hesc; left; reflexivity|].
    rewrite IH; [reflexivity|]. intros H. apply Hesc. right. exact H. }
  rewrite E. reflexivity.
Qed.

(** The words of the paragraphs are the words of the text: a blank line
    is two delimiters. *)
Lemma fields_from_app_delim (x : bytes) (d : ascii) (y : bytes) :
  is_delim d = true ->
  forall cur : bytes,
    fields_from cur (x ++ d :: y) = fields_from cur x ++ fields_from [] y.
Proof.
  intros Hd. induction x as [|c x IH]; intros cur.
  - cbn [app fields_from]. rewrite Hd. reflexivity.
  - cbn [app fields_from]. destruct (is_delim c).
    + rewrite IH, app_assoc. reflexivity.
    + apply IH.
Qed.

Lemma paragraphs_words_from (n : nat) :
  forall (s cur : bytes),
    (length s <= n)%nat ->
    concat (map words (split_from [LF; LF] 0 cur s)) = words (rev cur ++ s).
Proof.
  induction n as [n IH] using lt_wf_ind. intros s cur Hn.
  destruct s as [|b s].
  - cbn [split_from map concat]. rewrite !app_nil_r. reflexivity.
  - cbn [split_from has_prefix].
    destruct (ascii_dec LF b) as [<-|Hb].
    + destruct s as [|c s].
      * cbn [map concat split_from]. rewrite app_nil_r.
        replace (rev cur ++ [LF]) with (rev (LF :: cur)) by reflexivity.
        reflexivity.
      * destruct (ascii_dec LF c) as [<-|Hc].
        -- cbn [length Nat.sub split_from map concat].
           rewrite (IH (length s)) by (cbn [length] in Hn; lia).
           unfold words at 3.
           rewrite (fields_from_app_delim (rev cur) LF (LF :: s)) by reflexivity.
           cbn [rev app fields_from is_delim flush]. reflexivity.
        -- rewrite (IH (length (c :: s))) by (cbn [length] in *; lia).
           cbn [rev]. rewrite <- app_assoc. reflexivity.
    + rewrite (IH (length s)) by (cbn [length] in Hn; lia).
      cbn [rev]. rewrite <- app_assoc. reflexivity.
Qed.

Lemma paragraphs_words (text : bytes) :
  concat (map words (paragraphs text)) = words (Replace text [CR; LF] [LF]).
Proof.
  unfold paragraphs, Split.
  rewrite (paragraphs_words_from (length (Replace text [CR; LF] [LF])))
    by lia.
  reflexivity.
Qed.

Lemma In_words_paragraphs (text w : bytes) :
  In w (words (Replace text [CR; LF] [LF])) <->
  exists par, In par (paragraphs text) /\ In w (words par).
Proof.
  rewrite <- paragraphs_words, in_concat. split.
  - intros [ws [Hws Hw]]. apply in_map_iff in Hws.
    destruct Hws as [par [<- Hpar]]. exists par. split; assumption.
  - intros [par [Hpar Hw]]. exists (words par). split; [|exact Hw].
    apply in_map. exact Hpar.
Qed.

(** What [Wrap] returns when the scan of every word comes to an end. *)
Lemma Wrap_fill_text (e : Env) (text : bytes) (width : Z)
  (indent1 indent2 : bytes) :
  (forall w, In w (text_words text) -> visible_len w <> Hang) ->
  Wrap e text width indent1 indent2
  = Ok (TrimLF (fill_text (effective_width e width) indent1 indent2 text)).
Proof.
  intros Htext.
  assert (Hlen : forall par w,
             In par (paragraphs text) -> In w (words par) ->
             visible_len w <> Hang).
  { intros par w Hpar Hw. apply Htext. apply In_words_paragraphs.
    exists par. split; assumption. }
  unfold Wrap. fold (effective_width e width).
  rewrite wrap_fill_text by exact Hlen. cbn [bind].
  destruct text as [|b text]; reflexivity.
Qed.

(** ** Words are kept whole *)

Lemma scan_run_le (fuel : nat) :
  forall (s : bytes) (n m : Z), scan_run fuel (s, n) = Some m -> m <= n.
Proof.
  induction fuel as [|f IH]; intros s n m; cbn [scan_run]; [discriminate|].
  unfold scan_pass.
  destruct (length s <=? 1)%nat; [intros H; injection H as <-; lia|].
  destruct (IndexByte s ESC) as [i|]; [|intros H; injection H as <-; lia].
  destruct (IndexByte (skipn (S i) s) LOWER_M) as [j|]; intros H;
    apply IH in H; lia.
Qed.

Lemma vlen_le_len (w : bytes) : vlen w <= len w.
Proof.
  unfold vlen, visible_len.
  destruct (scan_run (S (length w)) (w, len w)) as [m|] eqn:E.
  - apply (scan_run_le _ _ _ _ E).
  - unfold len. lia.
Qed.

(** A word holds no line feed. *)
Lemma fields_from_no_LF (s : bytes) :
  forall (cur : bytes) (w : bytes),
    ~ In LF cur -> In w (fields_from cur s) -> ~ In LF w.
Proof.
  assert (Hflush : forall cur w, ~ In LF cur -> In w (flush cur) -> ~ In LF w).
  { intros [|b cur] w Hcur; [intros []|]. intros [<-|[]].
    intros Hin. apply in_rev in Hin. exact (Hcur Hin). }
  induction s as [|c s IH]; intros cur w Hcur; cbn [fields_from].
  - apply Hflush. exact Hcur.
  - unfold is_delim. destruct (ascii_dec c SP) as [->|Hsp].
    + intros Hin. apply in_app_or in Hin. destruct Hin as [Hin|Hin].
      * apply (Hflush _ _ Hcur Hin).
      * apply (IH [] w); [intros []|exact Hin].
    + destruct (ascii_dec c LF) as [->|Hlf].
      * intros Hin. apply in_app_or in Hin. destruct Hin as [Hin|Hin].
        -- apply (Hflush _ _ Hcur Hin).
        -- apply (IH [] w); [intros []|exact Hin].
      * apply IH. intros [E|Hin]; [congruence|exact (Hcur Hin)].
Qed.

(** Trimming line feeds spares a piece that holds none. *)
Lemma trim_left_lf_app (A X B : bytes) :
  X <> [] -> ~ In LF X ->
  trim_left_lf (A ++ X ++ B) = trim_left_lf A ++ X ++ B.
Proof.
  intros HX Hlf. induction A as [|a A IH].
  - destruct X as [|x X]; [congruence|]. cbn [app trim_left_lf].
    destruct (ascii_dec x LF) as [->|_]; [|reflexivity].
    exfalso. apply Hlf. left. reflexivity.
  - cbn [app trim_left_lf]. destruct (ascii_dec a LF); [exact IH|reflexivity].
Qed.

Lemma TrimLF_app (A X B : bytes) :
  X <> [] -> ~ In LF X ->
  exists A' B', TrimLF (A ++ X ++ B) = A' ++ X ++ B'.
Proof.
  intros HX Hlf. unfold TrimLF.
  rewrite trim_left_lf_app by assumption.
  rewrite !rev_app_distr, <- app_assoc.
  rewrite trim_left_lf_app.
  - rewrite !rev_app_distr, !rev_involutive, <- app_assoc.
    exists (trim_left_lf A), (rev (trim_left_lf (rev B))). reflexivity.
  - intros E. apply (f_equal (@rev ascii)) in E.
    rewrite rev_involutive in E. exact (HX E).
  - intros Hin. apply in_rev in Hin. exact (Hlf Hin).
Qed.

(** A piece without line feed lies within one line. *)
Lemma split_lines_run (X : bytes) :
  ~ In LF X ->
  forall cur B : bytes,
    split_from [LF] 0 cur (X ++ B) = split_from [LF] 0 (rev X ++ cur) B.
Proof.
  induction X as [|x X IH]; intros Hlf cur B; [reflexivity|].
  cbn [app split_from has_prefix].
  destruct (ascii_dec LF x) as [<-|_];
    [exfalso; apply Hlf; left; reflexivity|].
  rewrite IH by (intros Hin; apply Hlf; right; exact Hin).
  cbn [rev]. rewrite <- app_assoc. reflexivity.
Qed.

Lemma split_lines_head (B : bytes) :
  forall cur : bytes,
  exists b rest, split_from [LF] 0 cur B = (rev cur ++ b) :: rest.
Proof.
  induction B as [|c B IH]; intros cur.
  - exists [], []. cbn [split_from]. rewrite app_nil_r. reflexivity.
  - cbn [split_from has_prefix]. destruct (ascii_dec LF c).
    + exists [], (split_from [LF] (length [LF] - 1) [] B).
      rewrite app_nil_r. reflexivity.
    + destruct (IH (c :: cur)) as [b [rest E]].
      exists (c :: b), rest. rewrite E. cbn [rev].
      rewrite <- app_assoc. reflexivity.
Qed.

Lemma split_lines_infix (X : bytes) (B : bytes) :
  ~ In LF X ->
  forall A cur : bytes,
  exists a b, In (a ++ X ++ b) (split_from [LF] 0 cur (A ++ X ++ B)).
Proof.
  intros Hlf. induction A as [|c A IH]; intros cur.
  - cbn [app]. rewrite split_lines_run by exact Hlf.
    destruct (split_lines_head B (rev X ++ cur)) as [b [rest E]].
    exists (rev cur), b. rewrite E. left.
    rewrite rev_app_distr, rev_involutive, <- app_assoc. reflexivity.
  - cbn [app split_from has_prefix]. destruct (ascii_dec LF c).
    + cbn [length Nat.sub]. destruct (IH []) as [a [b Hin]].
      exists a, b. right. exact Hin.
    + apply IH.
Qed.

(** Every word of a filled paragraph stands in it as it is, the first
    one right behind the first-line prefix. *)
Lemma fill_holds_word (width : Z) (indent2 : bytes) (ws : list bytes)
  (w : bytes) :
  In w ws ->
  forall l : Z, exists A B, fill width indent2 l ws = A ++ w ++ B.
Proof.
  induction ws as [|u rest IH]; intros Hin l; [destruct Hin|].
  cbn [fill]. destruct Hin as [->|Hin].
  - destruct (l + 1 + vlen w >? width).
    + exists ([LF] ++ indent2), (fill width indent2 (len indent2 + vlen w) rest).
      rewrite <- !app_assoc. reflexivity.
    + exists [SP], (fill width indent2 (l + 1 + vlen w) rest). reflexivity.
  - destruct (l + 1 + vlen u >? width).
    + destruct (IH Hin (len indent2 + vlen u)) as [A [B E]].
      exists ([LF] ++ indent2 ++ u ++ A), B. rewrite E.
      rewrite <- !app_assoc. reflexivity.
    + destruct (IH Hin (l + 1 + vlen u)) as [A [B E]].
      exists ([SP] ++ u ++ A), B. rewrite E.
      rewrite <- !app_assoc. reflexivity.
Qed.

Lemma fill_paragraph_holds_word (width : Z) (indent1 indent2 : bytes)
  (ws : list bytes) (w : bytes) :
  In w ws ->
  exists A B, fill_paragraph width indent1 indent2 ws = A ++ w ++ B.
Proof.
  destruct ws as [|u rest]; intros Hin; [destruct Hin|].
  cbn [fill_paragraph]. destruct Hin as [->|Hin].
  - exists indent1, (fill width indent2 (len indent1 + vlen w) rest).
    reflexivity.
  - destruct (fill_holds_word width indent2 rest w Hin
                (len indent1 + vlen u)) as [A [B E]].
    exists (indent1 ++ u ++ A), B. rewrite E.
    rewrite <- !app_assoc. reflexivity.
Qed.

Lemma fill_text_holds (width : Z) (indent1 indent2 : bytes) (text : bytes)
  (par : bytes) (X : bytes) :
  In par (paragraphs text) ->
  (exists A B,
      fill_paragraph width indent1 indent2 (words par) = A ++ X ++ B) ->
  exists A B, fill_text width indent1 indent2 text = A ++ X ++ B.
Proof.
  intros Hpar [A [B E]]. unfold fill_text.
  destruct (in_split _ _ Hpar) as [before [after Hsplit]].
  rewrite Hsplit, map_app, concat_app. cbn [map concat]. rewrite E.
  exists (concat
            (map (fun p => fill_paragraph width indent1 indent2 (words p)
                           ++ [LF; LF]) before) ++ A),
         (B ++ [LF; LF]
          ++ concat
               (map (fun p => fill_paragraph width indent1 indent2 (words p)
                              ++ [LF; LF]) after)).
  rewrite <- !app_assoc. reflexivity.
Qed.

(** A piece without line feed that stands in the filled text stands
    within one line of what [Wrap] returns. *)
Lemma Wrap_line_holds (e : Env) (text : bytes) (width : Z)
  (indent1 indent2 : bytes) (X : bytes) :
  (forall w, In w (text_words text) -> visible_len w <> Hang) ->
  X <> [] -> ~ In LF X ->
  (exists A B,
      fill_text (effective_width e width) indent1 indent2 text
      = A ++ X ++ B) ->
  exists out line,
    Wrap e text width indent1 indent2 = Ok out
    /\ In line (Split out [LF])
    /\ (exists a b, line = a ++ X ++ b).
Proof.
  intros Hlen HX Hlf [A [B E]].
  pose proof (Wrap_fill_text e text width indent1 indent2 Hlen) as Hw.
  rewrite E in Hw.
  destruct (TrimLF_app A X B HX Hlf) as [A' [B' Etrim]].
  rewrite Etrim in Hw.
  destruct (split_lines_infix X B' Hlf A' []) as [a [b Hin]].
  exists (A' ++ X ++ B'), (a ++ X ++ b).
  split; [exact Hw|]. split; [exact Hin|]. exists a, b. reflexivity.
Qed.

(** C9, as the code has it.  When the scan of every word comes to an
    end, [Wrap] returns, and every word of the text (a maximal run of
    bytes other than space and line feed) stands unbroken within one line
    of what it returns; the word is no longer than that line, so a word
    whose length exceeds the effective width makes a line longer than
    that width.  The first word of a paragraph stands in its line right
    behind the first-line prefix when that prefix holds no line feed, so
    the line is longer than the width when the prefix and the word
    together are. *)
Theorem Wrap_keeps_words_whole (e : Env) (text : bytes) (width : Z)
  (indent1 indent2 : bytes) :
  (forall w, In w (text_words text) -> visible_len w <> Hang) ->
  (exists out, Wrap e text width indent1 indent2 = Ok out)
  /\ (forall w,
        In w (text_words text) ->
        exists out line,
          Wrap e text width indent1 indent2 = Ok out
          /\ In line (Split out [LF])
          /\ (exists a b, line = a ++ w ++ b)
          /\ (effective_width e width < vlen w ->
              effective_width e width < len line))
  /\ (forall par w rest,
        In par (paragraphs text) -> words par = w :: rest ->
        ~ In LF indent1 ->
        exists out line,
          Wrap e text width indent1 indent2 = Ok out
          /\ In line (Split out [LF])
          /\ (exists a b, line = a ++ indent1 ++ w ++ b)
          /\ (effective_width e width < len indent1 + vlen w ->
              effective_width e width < len line)).
Proof.
  intros Hlen. split; [|split].
  - eexists. apply (Wrap_fill_text e text width indent1 indent2 Hlen).
  - intros w Hw. apply In_words_paragraphs in Hw.
    destruct Hw as [par [Hpar Hw]].
    assert (Hne : w <> []) by (apply (fields_from_nonempty par [] w Hw)).
    assert (Hlf : ~ In LF w)
      by (apply (fields_from_no_LF par [] w); [intros []|exact Hw]).
    destruct (Wrap_line_holds e text width indent1 indent2 w Hlen Hne Hlf)
      as [out [line [Hout [Hin [a [b Hline]]]]]].
    { apply (fill_text_holds _ _ _ _ par); [exact Hpar|].
      apply fill_paragraph_holds_word. exact Hw. }
    exists out, line. split; [exact Hout|]. split; [exact Hin|].
    split; [exists a, b; exact Hline|].
    intros Hwide. pose proof (vlen_le_len w) as Hv.
    rewrite Hline. unfold len in *. rewrite !length_app. lia.
  - intros par w rest Hpar Hwords Hindent.
    assert (Hw : In w (words par)) by (rewrite Hwords; left; reflexivity).
    assert (Hne : indent1 ++ w <> []).
    { pose proof (fields_from_nonempty par [] w Hw) as H.
      destruct indent1; [exact H | discriminate]. }
    assert (Hlf : ~ In LF (indent1 ++ w)).
    { intros Hin. apply in_app_or in Hin. destruct Hin as [Hin|Hin].
      - exact (Hindent Hin).
      - apply (fields_from_no_LF par [] w); [intros []|exact Hw|exact Hin]. }
    destruct (Wrap_line_holds e text width indent1 indent2 (indent1 ++ w)
                Hlen Hne Hlf)
      as [out [line [Hout [Hin [a [b Hline]]]]]].
    { apply (fill_text_holds _ _ _ _ par); [exact Hpar|].
      rewrite Hwords. cbn [fill_paragraph].
      exists [], (fill (effective_width e width) indent2
                    (len indent1 + vlen w) rest).
      cbn [app]. rewrite <- app_assoc. reflexivity. }
    rewrite <- app_assoc in Hline.
    exists out, line. split; [exact Hout|]. split; [exact Hin|].
    split; [exists a, b; exact Hline|].
    intros Hwide. pose proof (vlen_le_len w) as Hv.
    rewrite Hline. unfold len in *. rewrite !length_app. lia.
Qed.

Lemma Wrap_keeps_words_whole_witness :
  exists out line,
    Wrap no_terminal plain_sentence 5 [] [] = Ok out
    /\ In line (Split out [LF])
    /\ (exists a b, line = a ++ bs "sentence." ++ b)
    /\ (effective_width no_terminal 5 < vlen (bs "sentence.") ->
        effective_width no_terminal 5 < len line).
Proof.
  refine (proj1 (proj2 (Wrap_keeps_words_whole no_terminal plain_sentence 5
                          [] [] _))
            (bs "sentence.") _).
  - intros w Hw. vm_compute in Hw.
    destruct Hw as [<-|[<-|[<-|[<-|[]]]]]; vm_compute; discriminate.
  - right. right. right. left. reflexivity.
Defined.

(** C9, as it is worded, fails: behind a first-line prefix of five line
    feeds the word "ab" makes, at width 5, a length of 7 for its line in
    the reckoning of [wrap], and yet what [Wrap] returns is "ab" alone,
    with no line longer than 5. *)
Lemma prefix_of_line_feeds_makes_no_long_line :
  Wrap no_terminal (bs "ab") 5 [LF; LF; LF; LF; LF] [] = Ok (bs "ab")
  /\ visible_len (bs "ab") = Ok 2
  /\ 5 < len [LF; LF; LF; LF; LF] + 2
  /\ forallb (fun line => len line <=? 5) (Split (bs "ab") [LF]) = true.
Proof.
  repeat split; vm_compute; reflexivity.
Qed.

(** ** Calls that do not return a string *)

(** A word of two bytes or more with an ESC and no "m" after it: the scan
    loop goes round for ever, and so do [wrap], [Wrap] and, with a width
    configured for the column, [Align]. *)
Lemma Wrap_hangs_on_open_escape :
  (forall fuel,
      scan_run fuel ([ESC] ++ bs "ab", len ([ESC] ++ bs "ab")) = None)
  /\ (forall e, Wrap e ([ESC] ++ bs "ab") 10 [] [] = Hang)
  /\ (forall e,
        Align e [Some [[ESC] ++ bs "ab"]] (Some (options_with_widths [10]))
        = Hang).
Proof.
  split; [|split].
  - apply visible_len_hangs. reflexivity.
  - intros e. vm_compute. reflexivity.
  - intros e. vm_compute. reflexivity.
Qed.

(** A grid whose rows expand to nothing: [data[0]] is out of range. *)
Lemma Align_panics_without_physical_rows :
  (forall e, Align e [Some []] None = Panic)
  /\ (forall e, Align e [None] (Some NewBoxedAlignOptions) = Panic).
Proof.
  split; intros e; reflexivity.
Qed.

(** The width of a column starts from the byte length of its first cell:
    a lone two-byte letter (U+00E9) makes a column two wide. *)
Lemma column_width_starts_from_bytes :
  utf8.RuneCountInString [ascii_of_nat 195; ascii_of_nat 169] = 1
  /\ column_widths [Some [[ascii_of_nat 195; ascii_of_nat 169]]] = [2]
  /\ column_widths [Some [bs "a"]; Some [[ascii_of_nat 195; ascii_of_nat 169]]]
     = [1].
Proof.
  repeat split; reflexivity.
Qed.

(** ** The package's tests and documented tables *)

Example TestThousandsSep :
  map (fun v => ThousandsSep v (bs ","))
    [-1000; -1; 0; 999; 1000; 100000; 1000000; 1000000000000000000]
  = map bs ["-1,000"; "-1"; "0"; "999"; "1,000"; "100,000"; "1,000,000";
            "1,000,000,000,000,000,000"]%string.
Proof. vm_compute. reflexivity. Qed.

Example TestThousandsSepU :
  map (fun v => ThousandsSepU v (bs ","))
    [0; 999; 1000; 100000; 1000000; 1000000000000000000]
  = map bs ["0"; "999"; "1,000"; "100,000"; "1,000,000";
            "1,000,000,000,000,000,000"]%string.
Proof. vm_compute. reflexivity. Qed.

Example TestWrap_empty (e : Env) : Wrap e [] 79 [] [] = Ok [].
Proof. reflexivity. Qed.

Example TestWrap_sentence (e : Env) :
  Wrap e plain_sentence 10 [] []
  = Ok (bs "Just a" ++ [LF] ++ bs "test" ++ [LF] ++ bs "sentence.").
Proof. vm_compute. reflexivity. Qed.

Example TestWrap_spaces (e : Env) :
  Wrap e (bs "Just   a   test   sentence.") 10 [] []
  = Ok (bs "Just a" ++ [LF] ++ bs "test" ++ [LF] ++ bs "sentence.").
Proof. vm_compute. reflexivity. Qed.

Example TestWrap_indents (e : Env) :
  Wrap e plain_sentence 10 (bs "1234") (bs "5678")
  = Ok (bs "1234Just a" ++ [LF] ++ bs "5678test" ++ [LF]
        ++ bs "5678sentence.").
Proof. vm_compute. reflexivity. Qed.

Example TestWrap_paragraphs (e : Env) :
  Wrap e (bs "Just a test sentence.  With     " ++ [LF]
          ++ bs "          a follow           on sentence." ++ [LF; LF]
          ++ bs "                And a separate  paragraph.       ")
    10 [] []
  = Ok (bs "Just a" ++ [LF] ++ bs "test" ++ [LF] ++ bs "sentence." ++ [LF]
        ++ bs "With a" ++ [LF] ++ bs "follow on" ++ [LF] ++ bs "sentence."
        ++ [LF; LF]
        ++ bs "And a" ++ [LF] ++ bs "separate" ++ [LF] ++ bs "paragraph.").
Proof. vm_compute. reflexivity. Qed.

Example TestAllEqual :
  AllEqual [] = true
  /\ AllEqual [bs "bob"] = true
  /\ AllEqual [bs "bob"; bs "bob"; bs "bob"] = true
  /\ AllEqual [bs "bob"; bs "sue"] = false
  /\ AllEqual [bs "bob"; bs "bob"; bs "sue"] = false.
Proof. repeat split; reflexivity. Qed.

(** The table in the comment of [NewBoxedAlignOptions]. *)
Example boxed_table (e : Env) :
  Align e
    [Some [[]; bs "Bob"; bs "Sue"; bs "John"];
     Some [bs "Hometown"; bs "San Antonio"; bs "Austin"; bs "New York"];
     Some [bs "Mother"; bs "Bessie"; bs "Mary"; bs "Sarah"];
     Some [bs "Father"; bs "Rick"; bs "Dan"; bs "Mike"]]
    (Some NewBoxedAlignOptions)
  = Ok (bs "+==========+=============+========+==========+" ++ [LF]
        ++ bs "|          | Bob         | Sue    | John     |" ++ [LF]
        ++ bs "+==========+=============+========+==========+" ++ [LF]
        ++ bs "| Hometown | San Antonio | Austin | New York |" ++ [LF]
        ++ bs "+----------+-------------+--------+----------+" ++ [LF]
        ++ bs "| Mother   | Bessie      | Mary   | Sarah    |" ++ [LF]
        ++ bs "+----------+-------------+--------+----------+" ++ [LF]
        ++ bs "| Father   | Rick        | Dan    | Mike     |" ++ [LF]
        ++ bs "+==========+=============+========+==========+" ++ [LF]).
Proof. vm_compute. reflexivity. Qed.

(** The table in the comment of [NewDefaultAlignOptions]. *)
Example default_table (e : Env) :
  Align e
    [Some [[]; bs "Bob"; bs "Sue"; bs "John"];
     Some [bs "Hometown"; bs "San Antonio"; bs "Austin"; bs "New York"];
     Some [bs "Mother"; bs "Bessie"; bs "Mary"; bs "Sarah"];
     Some [bs "Father"; bs "Rick"; bs "Dan"; bs "Mike"]]
    None
  = Ok (bs "         Bob         Sue    John" ++ [LF]
        ++ bs "Hometown San Antonio Austin New York" ++ [LF]
        ++ bs "Mother   Bessie      Mary   Sarah" ++ [LF]
        ++ bs "Father   Rick        Dan    Mike" ++ [LF]).
Proof. vm_compute. reflexivity. Qed.

(** * Further properties *)

(** ** OrdinalSuffix *)

(** X1.  For a number that is not negative [OrdinalSuffix] follows the
    English rule: "th" when the last two digits are 11, 12 or 13, and
    otherwise "st", "nd", "rd" for a last digit of 1, 2, 3 and "th" for
    any other. *)
Theorem OrdinalSuffix_rule (n : Z) :
  0 <= n ->
  OrdinalSuffix n
  = if (11 <=? n mod 100) && (n mod 100 <=? 13) then bs "th"
    else if n mod 10 =? 1 then bs "st"
    else if n mod 10 =? 2 then bs "nd"
    else if n mod 10 =? 3 then bs "rd"
    else bs "th".
Proof.
  intros Hn. unfold OrdinalSuffix.
  rewrite (Z.quot_div_nonneg n 10) by lia.
  rewrite (Z.rem_mod_nonneg n 10) by lia.
  rewrite (Z.rem_mod_nonneg (n / 10) 10)
    by (try apply Z.div_pos; lia).
  repeat match goal with
         | |- context [?a =? ?b] =>
             destruct (Z.eqb_spec a b)
         | |- context [?a >? ?b] =>
             destruct (Z.gtb_spec a b)
         | |- context [?a <=? ?b] =>
             destruct (Z.leb_spec a b)
         end;
    cbn [orb andb]; try reflexivity; exfalso;
    Z.div_mod_to_equations; lia.
Qed.

Lemma OrdinalSuffix_rule_witness :
  OrdinalSuffix 112
  = if (11 <=? 112 mod 100) && (112 mod 100 <=? 13) then bs "th"
    else if 112 mod 10 =? 1 then bs "st"
    else if 112 mod 10 =? 2 then bs "nd"
    else if 112 mod 10 =? 3 then bs "rd"
    else bs "th".
Proof.
  apply (OrdinalSuffix_rule 112). lia.
Defined.

(** X2.  Every negative number gets "th", whatever its digits: the
    remainders Go takes of a negative number are not positive. *)
Theorem OrdinalSuffix_negative (n : Z) :
  n < 0 -> OrdinalSuffix n = bs "th".
Proof.
  intros Hn. unfold OrdinalSuffix.
  repeat match goal with
         | |- context [?a =? ?b] =>
             destruct (Z.eqb_spec a b)
         | |- context [?a >? ?b] =>
             destruct (Z.gtb_spec a b)
         end;
    cbn [orb]; try reflexivity; exfalso;
    Z.quot_rem_to_equations; lia.
Qed.

Lemma OrdinalSuffix_negative_witness : OrdinalSuffix (-21) = bs "th".
Proof.
  apply (OrdinalSuffix_negative (-21)). lia.
Defined.

(** ** ThousandsSep: what the commas leave *)

Lemma strip_commas_app (a b : bytes) :
  strip_commas (a ++ b) = strip_commas a ++ strip_commas b.
Proof. apply filter_app. Qed.

Lemma strip_commas_loop (fuel : nat) :
  forall (i : Z) (s : bytes),
    strip_commas (thousands_loop fuel i s) = strip_commas s.
Proof.
  induction fuel as [|f IH]; intros i s; cbn [thousands_loop];
    [reflexivity|].
  destruct (0 <? i); [|reflexivity].
  rewrite IH, !strip_commas_app.
  change (strip_commas [COMMA]) with (@nil ascii). cbn [app].
  rewrite <- strip_commas_app, firstn_skipn. reflexivity.
Qed.

Lemma digit_not_comma (d : Z) : 0 <= d < 10 -> strconv.digit d <> COMMA.
Proof.
  intros Hd E. apply (f_equal nat_of_ascii) in E.
  unfold strconv.digit, COMMA in E.
  rewrite !nat_ascii_embedding in E by lia. lia.
Qed.

Lemma strip_commas_digits (fuel : nat) :
  forall (v : Z) (acc : bytes),
    strip_commas acc = acc ->
    strip_commas (strconv.format_digits fuel v acc)
    = strconv.format_digits fuel v acc.
Proof.
  induction fuel as [|f IH]; intros v acc Hacc; cbn [strconv.format_digits];
    [exact Hacc|].
  assert (Hcons : strip_commas (strconv.digit (v mod 10) :: acc)
                  = strconv.digit (v mod 10) :: acc).
  { unfold strip_commas. cbn [filter].
    destruct (ascii_dec (strconv.digit (v mod 10)) COMMA) as [E|_].
    - exfalso. apply (digit_not_comma (v mod 10)); [|exact E].
      apply Z.mod_pos_bound. lia.
    - fold (strip_commas acc). rewrite Hacc. reflexivity. }
  destruct (v / 10 =? 0); [exact Hcons | apply IH; exact Hcons].
Qed.

Lemma strip_commas_FormatUint (v : Z) :
  strip_commas (strconv.FormatUint v) = strconv.FormatUint v.
Proof.
  apply strip_commas_digits. reflexivity.
Qed.

Lemma strip_commas_FormatInt (v : Z) :
  strip_commas (strconv.FormatInt v) = strconv.FormatInt v.
Proof.
  unfold strconv.FormatInt. destruct (v <? 0); [|apply strip_commas_FormatUint].
  change (MINUS :: ?l) with ([MINUS] ++ l).
  rewrite strip_commas_app, strip_commas_FormatUint. reflexivity.
Qed.

(** X3.  Taking the commas out of what [ThousandsSep] and [ThousandsSepU]
    return gives the plain decimal string of the number back, and for a
    number that is not negative the digits left stand for the number. *)
Theorem ThousandsSep_without_commas (v : Z) (sep : bytes) :
  strip_commas (ThousandsSep v sep) = strconv.FormatInt v
  /\ strip_commas (ThousandsSepU v sep) = strconv.FormatUint v
  /\ (0 <= v ->
      decimal_value (strip_commas (ThousandsSep v sep)) = v
      /\ decimal_value (strip_commas (ThousandsSepU v sep)) = v).
Proof.
  assert (H1 : strip_commas (ThousandsSep v sep) = strconv.FormatInt v).
  { unfold ThousandsSep, thousands.
    rewrite strip_commas_loop. apply strip_commas_FormatInt. }
  assert (H2 : strip_commas (ThousandsSepU v sep) = strconv.FormatUint v).
  { unfold ThousandsSepU, thousands.
    rewrite strip_commas_loop. apply strip_commas_FormatUint. }
  split; [exact H1|]. split; [exact H2|].
  intros Hv. rewrite H1, H2. unfold strconv.FormatInt.
  destruct (v <? 0) eqn:E; [apply Z.ltb_lt in E; lia|].
  split; apply FormatUint_value; exact Hv.
Qed.

Lemma ThousandsSep_without_commas_witness :
  decimal_value (strip_commas (ThousandsSep 1234567 (bs "."))) = 1234567
  /\ decimal_value (strip_commas (ThousandsSepU 1234567 (bs "."))) = 1234567.
Proof.
  apply (proj2 (proj2 (ThousandsSep_without_commas 1234567 (bs ".")))).
  lia.
Defined.

Lemma FormatUint_three_digits (u : Z) :
  100 <= u <= 999 ->
  strconv.FormatUint u
  = [strconv.digit (u / 100 mod 10); strconv.digit (u / 10 mod 10);
     strconv.digit (u mod 10)].
Proof.
  intros Hu. unfold strconv.FormatUint.
  assert (Hlog : 6 <= Z.log2 u).
  { change 6 with (Z.log2 64). apply Z.log2_le_mono. lia. }
  destruct (Z.to_nat (Z.log2 u)) as [|[|k]] eqn:E; try lia.
  cbn [strconv.format_digits].
  assert (H1 : (u / 10 =? 0) = false)
    by (apply Z.eqb_neq; Z.div_mod_to_equations; lia).
  assert (H2 : (u / 10 / 10 =? 0) = false)
    by (apply Z.eqb_neq; Z.div_mod_to_equations; lia).
  assert (H3 : (u / 10 / 10 / 10 =? 0) = true)
    by (apply Z.eqb_eq; Z.div_mod_to_equations; lia).
  rewrite H1, H2, H3.
  replace (u / 10 / 10) with (u / 100)
    by (Z.div_mod_to_equations; lia).
  reflexivity.
Qed.

(** X4.  For a negative number of three digits the comma comes right
    after the minus sign: the loop counts the sign as a digit. *)
Theorem ThousandsSep_negative_three_digits (v : Z) (sep : bytes) :
  -999 <= v <= -100 ->
  ThousandsSep v sep = MINUS :: COMMA :: strconv.FormatUint (- v).
Proof.
  intros Hv. unfold ThousandsSep, strconv.FormatInt.
  destruct (v <? 0) eqn:E; [|apply Z.ltb_ge in E; lia].
  rewrite (FormatUint_three_digits (- v)) by lia.
  reflexivity.
Qed.

Lemma ThousandsSep_negative_three_digits_witness :
  ThousandsSep (-100) (bs ",") = MINUS :: COMMA :: strconv.FormatUint (- -100).
Proof.
  apply (ThousandsSep_negative_three_digits (-100)). lia.
Defined.

(** ** HumanSize *)

Lemma human_loop_unit (b : Z) :
  1024 <= b < 2 ^ 63 ->
  exists c d u,
    (forall s, human_loop b humanSizes b s = (c, u))
    /\ In (d, u) humanSizes
    /\ 1 <= c < 1024
    /\ - d <= 2 * (b - c * d) < d.
Proof.
  intros Hb. unfold humanSizes.
  change (Z.shiftl 1024 10) with 1048576.
  change (Z.shiftl 1024 20) with 1073741824.
  change (Z.shiftl 1024 30) with 1099511627776.
  change (Z.shiftl 1024 40) with 1125899906842624.
  change (Z.shiftl 1024 50) with 1152921504606846976.
  cbn [human_loop].
  repeat match goal with
         | |- context [Z.quot b ?d] =>
             rewrite (Z.quot_div_nonneg b d) by lia
         | |- context [Z.rem b ?d] =>
             rewrite (Z.rem_mod_nonneg b d) by lia
         end.
  repeat match goal with
         | |- context [Z.quot ?d 2] =>
             let q := eval vm_compute in (Z.quot d 2) in
             change (Z.quot d 2) with q
         end.
  human_level b 1024 512;
    human_level b 1048576 524288;
    human_level b 1073741824 536870912;
    human_level b 1099511627776 549755813888;
    human_level b 1125899906842624 562949953421312;
    human_level b 1152921504606846976 576460752303423488;
    exfalso; Z.div_mod_to_equations; lia.
Qed.

(** X5.  From 1024 bytes on [HumanSize] returns a count from 1 to 1023
    followed by one of the units K, M, G, T, P, E; the count is the size
    divided by the unit and rounded to the nearest whole, halves upwards;
    and [appendBytes] is left out of the result. *)
Theorem HumanSize_rounds_to_unit (b : Z) (appendBytes : bytes) :
  1024 <= b < 2 ^ 63 ->
  exists c d u,
    In (d, u) humanSizes
    /\ HumanSize b appendBytes = strconv.FormatInt c ++ u
    /\ 1 <= c < 1024
    /\ - d <= 2 * (b - c * d) < d
    /\ HumanSize b appendBytes = HumanSize b [].
Proof.
  intros Hb.
  destruct (human_loop_unit b Hb) as [c [d [u [Hloop [Hin [Hc Hd]]]]]].
  exists c, d, u. split; [exact Hin|].
  unfold HumanSize.
  destruct (b <? 1024) eqn:E; [apply Z.ltb_lt in E; lia|].
  rewrite !Hloop. repeat split; lia.
Qed.

Lemma HumanSize_rounds_to_unit_witness :
  exists c d u,
    In (d, u) humanSizes
    /\ HumanSize 1536 (bs "b") = strconv.FormatInt c ++ u
    /\ 1 <= c < 1024
    /\ - d <= 2 * (1536 - c * d) < d
    /\ HumanSize 1536 (bs "b") = HumanSize 1536 [].
Proof.
  apply (HumanSize_rounds_to_unit 1536 (bs "b")). lia.
Defined.

(** ** Sentence *)

Lemma upper_ascii_range (c : ascii) :
  (nat_of_ascii c < 128)%nat ->
  (nat_of_ascii (upper_ascii c) < 128)%nat
  /\ upper_ascii (upper_ascii c) = upper_ascii c.
Proof.
  intros Hc. unfold upper_ascii.
  destruct ((97 <=? nat_of_ascii c) && (nat_of_ascii c <=? 122))%nat eqn:E.
  - apply andb_true_iff in E. destruct E as [E1 E2].
    apply Nat.leb_le in E1. apply Nat.leb_le in E2.
    rewrite nat_ascii_embedding by lia. split; [lia|].
    replace ((97 <=? nat_of_ascii c - 32) && (nat_of_ascii c - 32 <=? 122))%nat
      with false; [reflexivity|].
    symmetry. apply andb_false_iff. left. apply Nat.leb_gt. lia.
  - rewrite E. split; [exact Hc | reflexivity].
Qed.

Lemma last_app_DOT (l : bytes) (d : ascii) : last (l ++ [DOT]) d = DOT.
Proof. apply last_last. Qed.

(** X6.  What [Sentence] returns for a string that is not empty ends
    with a full stop, and the empty string is returned as it is. *)
Theorem Sentence_ends_with_stop (upper_other : ascii -> bytes)
  (value : bytes) :
  Sentence upper_other [] = []
  /\ (value <> [] ->
      exists body, Sentence upper_other value = body ++ [DOT]).
Proof.
  split; [reflexivity|]. intros Hne.
  destruct value as [|c rest]; [congruence|]. unfold Sentence.
  destruct (ascii_dec (last (c :: rest) DOT) DOT) as [E|_].
  - destruct rest as [|r rest].
    + cbn [last] in E. subst c. exists []. reflexivity.
    + assert (Hr : r :: rest <> []) by discriminate.
      rewrite (app_removelast_last DOT Hr).
      change (last (c :: r :: rest) DOT) with (last (r :: rest) DOT) in E.
      rewrite E. exists (ToUpper1 upper_other c ++ removelast (r :: rest)).
      rewrite <- app_assoc. reflexivity.
  - exists (ToUpper1 upper_other c ++ rest).
    rewrite <- app_assoc. reflexivity.
Qed.

Lemma Sentence_ends_with_stop_witness :
  exists body, Sentence (fun _ => []) (bs "testing") = body ++ [DOT].
Proof.
  apply (proj2 (Sentence_ends_with_stop (fun _ => []) (bs "testing"))).
  discriminate.
Defined.

(** X7.  On a string whose first byte is below 0x80 [Sentence] does
    nothing when applied a second time. *)
Theorem Sentence_twice (upper_other : ascii -> bytes) (c : ascii)
  (rest : bytes) :
  (nat_of_ascii c < 128)%nat ->
  Sentence upper_other (Sentence upper_other (c :: rest))
  = Sentence upper_other (c :: rest).
Proof.
  intros Hc. destruct (upper_ascii_range c Hc) as [Hup Hidem].
  assert (Hone : ToUpper1 upper_other c = [upper_ascii c]).
  { unfold ToUpper1. destruct (Nat.ltb_spec (nat_of_ascii c) 128);
      [reflexivity | lia]. }
  assert (Hfix : forall tail,
             last (upper_ascii c :: tail) DOT = DOT ->
             Sentence upper_other (upper_ascii c :: tail)
             = upper_ascii c :: tail).
  { intros tail Hlast. unfold Sentence. rewrite Hlast.
    destruct (ascii_dec DOT DOT) as [_|]; [|congruence].
    unfold ToUpper1.
    destruct (Nat.ltb_spec (nat_of_ascii (upper_ascii c)) 128); [|lia].
    rewrite Hidem. reflexivity. }
  assert (Hshape : exists tail,
             Sentence upper_other (c :: rest) = upper_ascii c :: tail
             /\ last (upper_ascii c :: tail) DOT = DOT).
  { unfold Sentence. rewrite Hone. cbn [app].
    destruct (ascii_dec (last (c :: rest) DOT) DOT) as [E|_].
    - exists rest. split; [reflexivity|]. destruct rest as [|r rest].
      + cbn [last] in E. subst c. reflexivity.
      + exact E.
    - exists (rest ++ [DOT]). split; [reflexivity|].
      change (upper_ascii c :: rest ++ [DOT])
        with ((upper_ascii c :: rest) ++ [DOT]).
      apply last_last. }
  destruct Hshape as [tail [-> Hlast]]. apply Hfix. exact Hlast.
Qed.

Lemma Sentence_twice_witness :
  Sentence (fun _ => []) (Sentence (fun _ => []) (bs "testing"))
  = Sentence (fun _ => []) (bs "testing").
Proof.
  apply (Sentence_twice (fun _ => []) (ascii_of_nat 116) (bs "esting")).
  vm_compute. lia.
Defined.

(** ** AllEqual *)

Lemma bytes_eqb_eq (a b : bytes) : bytes_eqb a b = true <-> a = b.
Proof.
  unfold bytes_eqb. destruct (list_eq_dec ascii_dec a b); split;
    congruence.
Qed.

(** X8.  [AllEqual] is true exactly when any two of the values are the
    same string; in particular it is for no value and for one. *)
Theorem AllEqual_iff (values : list bytes) :
  AllEqual values = true
  <-> (forall a b, In a values -> In b values -> a = b).
Proof.
  destruct values as [|compare rest]; cbn [AllEqual].
  - split; [intros _ a b []|reflexivity].
  - rewrite forallb_forall. split.
    + intros H a b Ha Hb.
      assert (Hc : forall x, In x (compare :: rest) -> compare = x).
      { intros x [<-|Hx]; [reflexivity|]. apply bytes_eqb_eq, H, Hx. }
      rewrite <- (Hc a Ha), <- (Hc b Hb). reflexivity.
    + intros H x Hx. apply bytes_eqb_eq. apply H; [left; reflexivity|].
      right. exact Hx.
Qed.

(** ** StringSliceToLowerSort *)

Lemma at_index_Ok (s : list bytes) (x : Z) (a : bytes) :
  at_index s x = Ok a ->
  0 <= x /\ (Z.to_nat x < length s)%nat /\ a = nth (Z.to_nat x) s [].
Proof.
  unfold at_index.
  destruct (Z.ltb_spec x 0); cbn [orb]; [discriminate|].
  destruct (Z.leb_spec (Z.of_nat (length s)) x); [discriminate|].
  intros Eq. injection Eq as <-. repeat split; lia.
Qed.

Lemma at_index_in_range (s : list bytes) (x : Z) :
  0 <= x < Z.of_nat (length s) ->
  at_index s x = Ok (nth (Z.to_nat x) s []).
Proof.
  intros Hx. unfold at_index.
  destruct (Z.ltb_spec x 0); [lia|]. cbn [orb].
  destruct (Z.leb_spec (Z.of_nat (length s)) x); [lia|]. reflexivity.
Qed.

Lemma put_at_length (x : nat) (v : bytes) (s : list bytes) :
  length (put_at x v s) = length s.
Proof.
  revert x. induction s as [|u s IH]; intros [|x]; cbn [put_at length];
    try reflexivity.
  rewrite IH. reflexivity.
Qed.

Lemma put_at_nth (s : list bytes) :
  forall (x i : nat) (v : bytes),
    (x < length s)%nat ->
    nth i (put_at x v s) [] = if (i =? x)%nat then v else nth i s [].
Proof.
  induction s as [|u s IH]; intros x i v Hx; [simpl in Hx; lia|].
  destruct x as [|x], i as [|i]; cbn [put_at nth Nat.eqb]; try reflexivity.
  apply IH. simpl in Hx. lia.
Qed.

(** Putting at one place what stood at another and the other way round
    rearranges the list. *)
Lemma put_at_head_Permutation (s : list bytes) :
  forall (j : nat) (u : bytes),
    (j < length s)%nat ->
    Permutation (nth j s [] :: put_at j u s) (u :: s).
Proof.
  induction s as [|w s IH]; intros j u Hj; [simpl in Hj; lia|].
  destruct j as [|j]; cbn [put_at nth].
  - apply perm_swap.
  - apply perm_trans with (w :: nth j s [] :: put_at j u s);
      [apply perm_swap|].
    apply perm_trans with (w :: u :: s); [|apply perm_swap].
    apply perm_skip. apply IH. simpl in Hj. lia.
Qed.

Lemma swap_Permutation (s : list bytes) :
  forall i j : nat,
    (i < length s)%nat -> (j < length s)%nat ->
    Permutation (put_at j (nth i s []) (put_at i (nth j s []) s)) s.
Proof.
  induction s as [|w s IH]; intros i j Hi Hj; [simpl in Hi; lia|].
  destruct i as [|i], j as [|j]; cbn [put_at nth].
  - apply Permutation_refl.
  - apply put_at_head_Permutation. simpl in Hj. lia.
  - apply put_at_head_Permutation. simpl in Hi. lia.
  - apply perm_skip. apply IH; simpl in *; lia.
Qed.

(** X9.  [Swap] panics exactly when one of its indices is out of range;
    otherwise it rearranges the slice, keeps its length, has the two
    elements change places, and undoes itself when called again. *)
Theorem Swap_exchanges (s : list bytes) (x y : Z) :
  (Swap s x y = Panic <->
   ~ (0 <= x < Len s /\ 0 <= y < Len s))
  /\ (forall s',
        Swap s x y = Ok s' ->
        Permutation s' s
        /\ Len s' = Len s
        /\ at_index s' x = at_index s y
        /\ at_index s' y = at_index s x
        /\ Swap s' x y = Ok s).
Proof.
  unfold Len. split.
  - unfold Swap, at_index.
    destruct (Z.ltb_spec x 0); cbn [orb bind].
    { split; [intros _; lia | reflexivity]. }
    destruct (Z.leb_spec (Z.of_nat (length s)) x); cbn [bind].
    { split; [intros _; lia | reflexivity]. }
    destruct (Z.ltb_spec y 0); cbn [orb bind].
    { split; [intros _; lia | reflexivity]. }
    destruct (Z.leb_spec (Z.of_nat (length s)) y); cbn [bind].
    { split; [intros _; lia | reflexivity]. }
    split; [discriminate | intros Hno; exfalso; apply Hno; lia].
  - intros s' Hs. unfold Swap in Hs.
    destruct (at_index s x) as [a| |] eqn:Ex; try discriminate Hs.
    destruct (at_index s y) as [b| |] eqn:Ey; try discriminate Hs.
    cbn [bind] in Hs. injection Hs as <-.
    destruct (at_index_Ok _ _ _ Ex) as [Hx0 [Hx ->]].
    destruct (at_index_Ok _ _ _ Ey) as [Hy0 [Hy ->]].
    set (i := Z.to_nat x) in *. set (j := Z.to_nat y) in *.
    set (s' := put_at j (nth i s []) (put_at i (nth j s []) s)).
    assert (Hlen : length s' = length s)
      by (unfold s'; rewrite !put_at_length; reflexivity).
    assert (Hnth : forall k,
               nth k s' []
               = if (k =? j)%nat then nth i s []
                 else if (k =? i)%nat then nth j s [] else nth k s []).
    { intros k. unfold s'.
      rewrite put_at_nth by (rewrite put_at_length; exact Hy).
      rewrite put_at_nth by exact Hx. reflexivity. }
    split; [apply swap_Permutation; assumption|].
    split; [rewrite Hlen; reflexivity|].
    assert (Hsx : at_index s' x = Ok (nth j s [])).
    { rewrite at_index_in_range by lia. fold i. rewrite Hnth.
      rewrite Nat.eqb_refl.
      destruct (Nat.eqb_spec i j) as [->|_]; reflexivity. }
    assert (Hsy : at_index s' y = Ok (nth i s [])).
    { rewrite at_index_in_range by lia. fold j. rewrite Hnth.
      rewrite Nat.eqb_refl. reflexivity. }
    split; [exact Hsx|]. split; [exact Hsy|].
    unfold Swap. rewrite Hsx, Hsy. cbn [bind]. f_equal. fold i j.
    apply nth_ext with (d := []) (d' := []).
    + rewrite !put_at_length. exact Hlen.
    + intros k _.
      rewrite put_at_nth by (rewrite put_at_length, Hlen; exact Hy).
      rewrite put_at_nth by (rewrite Hlen; exact Hx).
      rewrite Hnth.
      destruct (Nat.eqb_spec k j) as [->|_]; [reflexivity|].
      destruct (Nat.eqb_spec k i) as [->|_]; reflexivity.
Qed.

Lemma Swap_exchanges_witness :
  Permutation [bs "abc"; bs "DEF"] [bs "DEF"; bs "abc"]
  /\ Len [bs "abc"; bs "DEF"] = Len [bs "DEF"; bs "abc"]
  /\ at_index [bs "abc"; bs "DEF"] 0 = at_index [bs "DEF"; bs "abc"] 1
  /\ at_index [bs "abc"; bs "DEF"] 1 = at_index [bs "DEF"; bs "abc"] 0
  /\ Swap [bs "abc"; bs "DEF"] 0 1 = Ok [bs "DEF"; bs "abc"].
Proof.
  apply (proj2 (Swap_exchanges [bs "DEF"; bs "abc"] 0 1)). reflexivity.
Defined.

Lemma N_of_ascii_inj (x y : ascii) : N_of_ascii x = N_of_ascii y -> x = y.
Proof.
  intros H. rewrite <- (ascii_N_embedding x), <- (ascii_N_embedding y), H.
  reflexivity.
Qed.

Lemma string_lt_irrefl (a : bytes) : string_lt a a = false.
Proof.
  induction a as [|x a IH]; [reflexivity|]. cbn [string_lt].
  rewrite N.ltb_irrefl. exact IH.
Qed.

Lemma string_lt_trans (a : bytes) :
  forall b c : bytes,
    string_lt a b = true -> string_lt b c = true -> string_lt a c = true.
Proof.
  induction a as [|x a IH]; intros [|y b] [|z c]; cbn [string_lt];
    try discriminate; try reflexivity.
  destruct (N.ltb_spec (N_of_ascii x) (N_of_ascii y));
    destruct (N.ltb_spec (N_of_ascii y) (N_of_ascii z));
    destruct (N.ltb_spec (N_of_ascii x) (N_of_ascii z));
    destruct (N.ltb_spec (N_of_ascii y) (N_of_ascii x));
    destruct (N.ltb_spec (N_of_ascii z) (N_of_ascii y));
    destruct (N.ltb_spec (N_of_ascii z) (N_of_ascii x));
    try discriminate; try reflexivity; try lia.
  apply IH.
Qed.

Lemma string_lt_total (a : bytes) :
  forall b : bytes,
    string_lt a b = false -> string_lt b a = false -> a = b.
Proof.
  induction a as [|x a IH]; intros [|y b]; cbn [string_lt];
    try discriminate; try reflexivity.
  destruct (N.ltb_spec (N_of_ascii x) (N_of_ascii y)); [discriminate|].
  destruct (N.ltb_spec (N_of_ascii y) (N_of_ascii x)); [discriminate|].
  intros H1 H2. f_equal; [|apply IH; assumption].
  apply N_of_ascii_inj. lia.
Qed.

(** X10.  Within the range of the slice [Less] is a strict order of the
    lowered strings: no element is less than itself, of two elements at
    most one is less than the other, less than is transitive, and two
    elements neither of which is less than the other have the same
    lowered string. *)
Theorem Less_strict_order (ToLower : bytes -> bytes) (s : list bytes)
  (x y z : Z) :
  0 <= x < Len s -> 0 <= y < Len s -> 0 <= z < Len s ->
  Less ToLower s x x = Ok false
  /\ (Less ToLower s x y = Ok true -> Less ToLower s y x = Ok false)
  /\ (Less ToLower s x y = Ok true -> Less ToLower s y z = Ok true ->
      Less ToLower s x z = Ok true)
  /\ (Less ToLower s x y = Ok false -> Less ToLower s y x = Ok false ->
      ToLower (nth (Z.to_nat x) s []) = ToLower (nth (Z.to_nat y) s [])).
Proof.
  unfold Len, Less. intros Hx Hy Hz.
  rewrite !(at_index_in_range s x Hx), !(at_index_in_range s y Hy),
    !(at_index_in_range s z Hz).
  cbn [bind].
  set (a := ToLower (nth (Z.to_nat x) s [])).
  set (b := ToLower (nth (Z.to_nat y) s [])).
  set (c := ToLower (nth (Z.to_nat z) s [])).
  split; [rewrite string_lt_irrefl; reflexivity|]. split; [|split].
  - intros H. injection H as H. f_equal.
    destruct (string_lt b a) eqn:E; [|reflexivity].
    pose proof (string_lt_trans a b a H E) as Haa.
    rewrite string_lt_irrefl in Haa. discriminate Haa.
  - intros H1 H2. injection H1 as H1. injection H2 as H2.
    rewrite (string_lt_trans a b c H1 H2). reflexivity.
  - intros H1 H2. injection H1 as H1. injection H2 as H2.
    apply string_lt_total; assumption.
Qed.

Lemma Less_strict_order_witness :
  Less (fun w => w) [bs "abc"; bs "abd"; bs "b"] 0 0 = Ok false.
Proof.
  apply (proj1 (Less_strict_order (fun w => w) [bs "abc"; bs "abd"; bs "b"]
                  0 1 2 ltac:(vm_compute; split; [discriminate|reflexivity])
                  ltac:(vm_compute; split; [discriminate|reflexivity])
                  ltac:(vm_compute; split; [discriminate|reflexivity]))).
Defined.

(** ** When the scan of a word ends and when it does not *)

Lemma IndexByte_split (c : ascii) (s : bytes) (i : nat) :
  IndexByte s c = Some i ->
  s = firstn i s ++ c :: skipn (S i) s /\ ~ In c (firstn i s).
Proof.
  revert i. induction s as [|b s IH]; intros i; cbn [IndexByte];
    [discriminate|].
  destruct (ascii_dec b c) as [->|Hne].
  - intros H. injection H as <-. split; [reflexivity|intros []].
  - destruct (IndexByte s c) as [k|]; [|discriminate].
    intros H. injection H as <-. cbn [firstn skipn app].
    destruct (IH k eq_refl) as [E Hno]. split.
    + f_equal. exact E.
    + intros [E'|Hin]; [exact (Hne E')|exact (Hno Hin)].
Qed.

Lemma IndexByte_In (c : ascii) (s : bytes) :
  In c s -> exists i, IndexByte s c = Some i.
Proof.
  induction s as [|b s IH]; intros Hin; [destruct Hin|].
  cbn [IndexByte]. destruct (ascii_dec b c) as [_|Hne]; [eexists; reflexivity|].
  destruct Hin as [E|Hin]; [congruence|].
  destruct (IH Hin) as [i ->]. eexists. reflexivity.
Qed.

Lemma IndexByte_None (c : ascii) (s : bytes) :
  IndexByte s c = None -> ~ In c s.
Proof.
  intros E Hin. destruct (IndexByte_In c s Hin) as [i Ei]. congruence.
Qed.

Lemma In_LOWER_M (s : bytes) :
  existsb (fun b => if ascii_dec b LOWER_M then true else false) s = true
  <-> In LOWER_M s.
Proof.
  rewrite existsb_exists. split.
  - intros [x [Hin Hx]]. destruct (ascii_dec x LOWER_M) as [->|_];
      [exact Hin|discriminate].
  - intros Hin. exists LOWER_M. split; [exact Hin|].
    destruct (ascii_dec LOWER_M LOWER_M); congruence.
Qed.

Lemma escapes_closed_split (s : bytes) :
  escapes_closed s = true ->
  forall a b, s = a ++ ESC :: b -> In LOWER_M b /\ escapes_closed b = true.
Proof.
  induction s as [|c s IH]; intros H a b E.
  - destruct a; discriminate.
  - cbn [escapes_closed] in H. apply andb_prop in H. destruct H as [Hc Hs].
    destruct a as [|x a]; cbn [app] in E; injection E as -> ->.
    + destruct (ascii_dec ESC ESC) as [_|N]; [|congruence].
      split; [apply In_LOWER_M; exact Hc|exact Hs].
    + apply (IH Hs a b eq_refl).
Qed.

Lemma escapes_closed_skipn (k : nat) (s : bytes) :
  escapes_closed s = true -> escapes_closed (skipn k s) = true.
Proof.
  revert s. induction k as [|k IH]; intros s H; [exact H|].
  destruct s as [|c s]; [reflexivity|]. cbn [skipn]. apply IH.
  cbn [escapes_closed] in H. apply andb_prop in H. apply H.
Qed.

Lemma strip_from_plain (s : bytes) : ~ In ESC s -> strip_from false s = s.
Proof.
  induction s as [|c s IH]; intros Hno; [reflexivity|].
  cbn [strip_from]. destruct (ascii_dec c ESC) as [->|_].
  - exfalso. apply Hno. left. reflexivity.
  - rewrite IH; [reflexivity|]. intros H. apply Hno. right. exact H.
Qed.

Lemma strip_from_body (body post : bytes) :
  ~ In LOWER_M body ->
  strip_from true (body ++ LOWER_M :: post) = strip_from false post.
Proof.
  induction body as [|c body IH]; intros Hno; cbn [app strip_from].
  - destruct (ascii_dec LOWER_M LOWER_M); congruence.
  - destruct (ascii_dec c LOWER_M) as [->|_].
    + exfalso. apply Hno. left. reflexivity.
    + apply IH. intros H. apply Hno. right. exact H.
Qed.

Lemma strip_from_escape (pre body post : bytes) :
  ~ In ESC pre -> ~ In LOWER_M body ->
  strip_from false (pre ++ ESC :: body ++ LOWER_M :: post)
  = pre ++ strip_from false post.
Proof.
  intros Hpre Hbody. induction pre as [|c pre IH]; cbn [app strip_from].
  - destruct (ascii_dec ESC ESC); [|congruence].
    apply strip_from_body. exact Hbody.
  - destruct (ascii_dec c ESC) as [->|_].
    + exfalso. apply Hpre. left. reflexivity.
    + f_equal. apply IH. intros H. apply Hpre. right. exact H.
Qed.

Lemma scan_run_S (f : nat) (st : scan_state) :
  scan_run (S f) st
  = match scan_pass st with
    | inr n => Some n
    | inl st' => scan_run f st'
    end.
Proof. reflexivity. Qed.

(** The loop over a string whose escape sequences are all closed leaves
    the count lowered by the bytes of the escape sequences. *)
Lemma scan_run_closed (k : nat) :
  forall (s : bytes) (n : Z),
    (length s <= k)%nat -> escapes_closed s = true ->
    scan_run (S k) (s, n) = Some (n - len s + len (strip_from false s)).
Proof.
  induction k as [|k IH]; intros s n Hlen Hclosed.
  - destruct s; [|cbn [length] in Hlen; lia].
    cbn. f_equal. lia.
  - rewrite scan_run_S. unfold scan_pass at 1.
    destruct (length s <=? 1)%nat eqn:E1.
    { apply Nat.leb_le in E1. f_equal.
      destruct s as [|c [|d s]]; [cbn; lia| |cbn [length] in E1; lia].
      cbn [escapes_closed existsb andb] in Hclosed. cbn [strip_from].
      destruct (ascii_dec c ESC); [discriminate|]. lia. }
    apply Nat.leb_gt in E1.
    destruct (IndexByte s ESC) as [i|] eqn:Ei.
    2:{ rewrite strip_from_plain by (apply IndexByte_None; exact Ei).
        f_equal. lia. }
    destruct (IndexByte_split _ _ _ Ei) as [Es Hpre].
    destruct (escapes_closed_split s Hclosed _ _ Es) as [Hm _].
    destruct (IndexByte_In _ _ Hm) as [j Ej]. rewrite Ej.
    destruct (IndexByte_split _ _ _ Ej) as [Er Hbody].
    pose proof (IndexByte_bound _ _ _ Ei) as Hi.
    pose proof (IndexByte_bound _ _ _ Ej) as Hj.
    rewrite length_skipn in Hj.
    assert (Hpost : skipn (i + (j + 2)) s = skipn (S j) (skipn (S i) s)).
    { rewrite skipn_skipn. f_equal. lia. }
    assert (Hstrip : strip_from false s
                     = firstn i s
                       ++ strip_from false (skipn (i + (j + 2)) s)).
    { rewrite Hpost.
      rewrite <- (strip_from_escape (firstn i s)
                    (firstn j (skipn (S i) s))) by assumption.
      rewrite <- Er, <- Es. reflexivity. }
    rewrite IH.
    + f_equal. rewrite Hstrip. unfold len.
      rewrite length_app, length_firstn, !length_skipn. lia.
    + rewrite length_skipn. lia.
    + apply escapes_closed_skipn. exact Hclosed.
Qed.

Lemma visible_len_strip (w : bytes) :
  escapes_closed w = true -> visible_len w = Ok (len (strip_escapes w)).
Proof.
  intros Hclosed. unfold visible_len, strip_escapes.
  rewrite (scan_run_closed (length w) w (len w) (le_n _) Hclosed).
  f_equal. lia.
Qed.

(** X11.  For a word whose escape sequences are all closed (every ESC has
    an "m" after it) the scan comes to an end, and the length [wrap] takes
    the word to have is the number of its bytes outside escape sequences,
    each sequence running from an ESC to the next "m". *)
Theorem visible_len_closed_escapes (w : bytes) :
  escapes_closed w = true ->
  visible_len w = Ok (len (strip_escapes w))
  /\ 0 <= len (strip_escapes w) <= len w.
Proof.
  intros Hclosed. pose proof (visible_len_strip w Hclosed) as E.
  split; [exact E|]. pose proof (vlen_le_len w) as Hle.
  unfold vlen in Hle. rewrite E in Hle. unfold len in *. lia.
Qed.

Lemma visible_len_closed_escapes_witness :
  visible_len (bs "a" ++ [ESC] ++ bs "[1mbc" ++ [ESC] ++ bs "[0m")
  = Ok (len (strip_escapes
               (bs "a" ++ [ESC] ++ bs "[1mbc" ++ [ESC] ++ bs "[0m")))
  /\ 0 <= len (strip_escapes
                 (bs "a" ++ [ESC] ++ bs "[1mbc" ++ [ESC] ++ bs "[0m"))
       <= len (bs "a" ++ [ESC] ++ bs "[1mbc" ++ [ESC] ++ bs "[0m").
Proof.
  apply (visible_len_closed_escapes
           (bs "a" ++ [ESC] ++ bs "[1mbc" ++ [ESC] ++ bs "[0m")).
  vm_compute. reflexivity.
Defined.

(** Two ways of cutting one string at a byte: the cuts agree, or one
    lies before the other. *)
Lemma app_cons_compare (pre : bytes) (c : ascii) (r : bytes) :
  forall (a : bytes) (d : ascii) (b : bytes),
    pre ++ c :: r = a ++ d :: b ->
    (pre = a /\ c = d /\ r = b)
    \/ (exists x, a = pre ++ c :: x /\ r = x ++ d :: b)
    \/ (exists x, pre = a ++ d :: x /\ b = x ++ c :: r).
Proof.
  induction pre as [|p pre IH]; intros a d b E.
  - destruct a as [|x a]; cbn [app] in E; injection E as -> ->.
    + left. repeat split.
    + right. left. exists a. split; reflexivity.
  - destruct a as [|x a]; cbn [app] in E; injection E as -> E.
    + right. right. exists pre. subst b. split; reflexivity.
    + destruct (IH a d b E) as [[-> [-> ->]]|[[y [-> ->]]|[y [-> ->]]]].
      * left. repeat split.
      * right. left. exists y. split; reflexivity.
      * right. right. exists y. split; reflexivity.
Qed.

(** An ESC with bytes after it and no "m" among them keeps the loop
    going for ever. *)
Lemma scan_run_open (b : bytes) :
  b <> [] -> ~ In LOWER_M b ->
  forall (fuel : nat) (a : bytes) (n : Z),
    scan_run fuel (a ++ ESC :: b, n) = None.
Proof.
  intros Hne Hm. induction fuel as [|f IH]; intros a n; [reflexivity|].
  rewrite scan_run_S. unfold scan_pass at 1.
  set (s := a ++ ESC :: b).
  assert (Hlen : (1 < length s)%nat).
  { unfold s. rewrite length_app. cbn [length].
    destruct b; [congruence|]. cbn [length]. lia. }
  replace (length s <=? 1)%nat with false
    by (symmetry; apply Nat.leb_gt; exact Hlen).
  destruct (IndexByte s ESC) as [i|] eqn:Ei.
  2:{ exfalso. apply (IndexByte_None _ _ Ei). unfold s.
      apply in_or_app. right. left. reflexivity. }
  destruct (IndexByte (skipn (S i) s) LOWER_M) as [j|] eqn:Ej;
    [|apply IH].
  destruct (IndexByte_split _ _ _ Ei) as [Es Hpre].
  destruct (IndexByte_split _ _ _ Ej) as [Er Hbody].
  assert (Hpost : skipn (i + (j + 2)) s = skipn (S j) (skipn (S i) s)).
  { rewrite skipn_skipn. f_equal. lia. }
  rewrite Hpost.
  destruct (app_cons_compare _ _ _ _ _ _ (eq_sym Es))
    as [[_ [_ E]]|[[x [_ E]]|[x [E _]]]].
  - exfalso. apply Hm. rewrite <- E, Er. apply in_or_app. right. left.
    reflexivity.
  - destruct (app_cons_compare _ _ _ _ _ _ (eq_trans (eq_sym Er) E))
      as [[_ [C _]]|[[y [_ E']]|[y [_ E']]]].
    + discriminate C.
    + rewrite E'. apply IH.
    + exfalso. apply Hm. rewrite E'. apply in_or_app. right. left.
      reflexivity.
  - exfalso. apply Hpre. rewrite E. apply in_or_app. right. left.
    reflexivity.
Qed.

(** X12.  A word that has an ESC with bytes after it, none of them an
    "m", is one the scan never comes to the end of: [wrap] does not
    return. *)
Theorem visible_len_open_escape (a b : bytes) :
  b <> [] -> ~ In LOWER_M b ->
  visible_len (a ++ ESC :: b) = Hang.
Proof.
  intros Hne Hm. unfold visible_len.
  rewrite (scan_run_open b Hne Hm). reflexivity.
Qed.

Lemma visible_len_open_escape_witness :
  visible_len (bs "ab" ++ ESC :: bs "[1") = Hang.
Proof.
  apply (visible_len_open_escape (bs "ab") (bs "[1")).
  - discriminate.
  - simpl. intros [H|[H|H]]; [discriminate H | discriminate H | exact H].
Defined.

(** ** What a call of Wrap comes to *)

Lemma foldM_not_Panic {A B : Type} (f : A -> B -> result A) (l : list B) :
  (forall a x, f a x <> Panic) -> forall a, foldM f l a <> Panic.
Proof.
  intros Hf. induction l as [|x l IH]; intros a; cbn [foldM];
    [discriminate|].
  destruct (f a x) as [a'| |] eqn:E; cbn [bind];
    [apply IH | destruct (Hf a x E) | discriminate].
Qed.

Lemma foldM_Hang {A B : Type} (f : A -> B -> result A) (l : list B)
  (x : B) :
  (forall a y, f a y <> Panic) -> In x l -> (forall a, f a x = Hang) ->
  forall a, foldM f l a = Hang.
Proof.
  intros Hf Hin Hx. induction l as [|y l IH]; intros a; [destruct Hin|].
  cbn [foldM]. destruct Hin as [->|Hin].
  - rewrite Hx. reflexivity.
  - destruct (f a y) as [a'| |] eqn:E; cbn [bind];
      [apply (IH Hin) | destruct (Hf a y E) | reflexivity].
Qed.

Lemma visible_len_not_Panic (w : bytes) : visible_len w <> Panic.
Proof.
  unfold visible_len.
  destruct (scan_run (S (length w)) (w, len w)); discriminate.
Qed.

Lemma word_step_not_Panic (width : Z) (indent1 indent2 : bytes)
  (st : wstate) (w : bytes) :
  word_step width indent1 indent2 st w <> Panic.
Proof.
  unfold word_step. destruct (length w =? 0)%nat; [discriminate|].
  pose proof (visible_len_not_Panic w) as Hv.
  destruct (visible_len w) as [n| |]; cbn [bind];
    [|congruence|discriminate].
  destruct (start st); [discriminate|].
  destruct (lineLen st + 1 + n >? width); discriminate.
Qed.

Lemma par_step_not_Panic (width : Z) (indent1 indent2 : bytes)
  (buf par : bytes) :
  par_step width indent1 indent2 buf par <> Panic.
Proof.
  unfold par_step.
  match goal with
  | |- bind ?m _ <> _ =>
      assert (H : m <> Panic)
        by (apply foldM_not_Panic; intros; apply word_step_not_Panic);
      destruct m; cbn [bind]; [discriminate|congruence|discriminate]
  end.
Qed.

Lemma par_step_Hang (width : Z) (indent1 indent2 : bytes)
  (buf par w : bytes) :
  In w (words par) -> visible_len w = Hang ->
  par_step width indent1 indent2 buf par = Hang.
Proof.
  intros Hw Hv. unfold par_step.
  rewrite (foldM_Hang (word_step width indent1 indent2) _ w);
    [reflexivity| | |].
  - intros; apply word_step_not_Panic.
  - rewrite <- words_split in Hw. apply filter_In in Hw. apply Hw.
  - intros st. unfold word_step.
    pose proof (fields_from_nonempty par [] w Hw) as Hne.
    destruct w as [|c w]; [congruence|]. cbn [length Nat.eqb].
    rewrite Hv. reflexivity.
Qed.

Lemma wrap_not_Panic (text : bytes) (width : Z) (indent1 indent2 : bytes) :
  wrap text width indent1 indent2 <> Panic.
Proof.
  unfold wrap. destruct (length text =? 0)%nat; [discriminate|].
  apply foldM_not_Panic. intros; apply par_step_not_Panic.
Qed.

Lemma wrap_Hang (text : bytes) (width : Z) (indent1 indent2 : bytes)
  (w : bytes) :
  In w (text_words text) -> visible_len w = Hang ->
  wrap text width indent1 indent2 = Hang.
Proof.
  intros Hw Hv. unfold wrap.
  destruct text as [|c text]; [destruct Hw|]. cbn [length Nat.eqb].
  apply In_words_paragraphs in Hw. destruct Hw as [par [Hpar Hw]].
  apply (foldM_Hang _ _ par).
  - intros; apply par_step_not_Panic.
  - exact Hpar.
  - intros buf. apply (par_step_Hang _ _ _ _ _ w Hw Hv).
Qed.

(** X13.  [Wrap] never panics, and it fails to return exactly when the
    text has a word the scan of which does not end; otherwise it returns
    the filled text. *)
Theorem Wrap_outcome (e : Env) (text : bytes) (width : Z)
  (indent1 indent2 : bytes) :
  Wrap e text width indent1 indent2 <> Panic
  /\ (Wrap e text width indent1 indent2 = Hang
      <-> exists w, In w (text_words text) /\ visible_len w = Hang)
  /\ (Wrap e text width indent1 indent2 <> Hang ->
      Wrap e text width indent1 indent2
      = Ok (TrimLF (fill_text (effective_width e width)
                      indent1 indent2 text))).
Proof.
  assert (Hdec : (exists w, In w (text_words text) /\ visible_len w = Hang)
                 \/ (forall w, In w (text_words text) ->
                               visible_len w <> Hang)).
  { induction (text_words text) as [|u l IH].
    - right. intros w [].
    - destruct (visible_len u) as [n| |] eqn:Eu.
      + destruct IH as [[w [Hin Hw]]|Hall].
        * left. exists w. split; [right; exact Hin|exact Hw].
        * right. intros w [<-|Hin]; [congruence|apply Hall; exact Hin].
      + destruct (visible_len_not_Panic u Eu).
      + left. exists u. split; [left; reflexivity|exact Eu]. }
  assert (Hhang : (exists w, In w (text_words text) /\ visible_len w = Hang)
                  -> Wrap e text width indent1 indent2 = Hang).
  { intros [w [Hin Hw]]. unfold Wrap.
    rewrite (wrap_Hang _ _ _ _ w Hin Hw). reflexivity. }
  split; [|split].
  - destruct Hdec as [Hex|Hall].
    + rewrite (Hhang Hex). discriminate.
    + rewrite Wrap_fill_text by exact Hall. discriminate.
  - split; [|exact Hhang].
    intros E. destruct Hdec as [Hex|Hall]; [exact Hex|].
    rewrite Wrap_fill_text in E by exact Hall. discriminate E.
  - intros Hno. destruct Hdec as [Hex|Hall].
    + destruct (Hno (Hhang Hex)).
    + apply Wrap_fill_text. exact Hall.
Qed.

(** ** The lines of what Wrap returns *)

Lemma strip_from_app_closed (rest : bytes) (w : bytes) :
  forall inside : bool,
    escapes_closed w = true -> (inside = true -> In LOWER_M w) ->
    strip_from inside (w ++ rest)
    = strip_from inside w ++ strip_from false rest.
Proof.
  induction w as [|c w IH]; intros inside Hclosed Hin.
  - destruct inside; [destruct (Hin eq_refl)|reflexivity].
  - cbn [escapes_closed] in Hclosed. apply andb_prop in Hclosed.
    destruct Hclosed as [Hc Hw]. cbn [app strip_from]. destruct inside.
    + destruct (ascii_dec c LOWER_M) as [->|Hne].
      * apply IH; [exact Hw|discriminate].
      * apply IH; [exact Hw|]. intros _.
        destruct (Hin eq_refl) as [E|H]; [congruence|exact H].
    + destruct (ascii_dec c ESC) as [->|Hne].
      * apply IH; [exact Hw|]. intros _. apply In_LOWER_M. exact Hc.
      * cbn [app]. f_equal. apply IH; [exact Hw|discriminate].
Qed.

Lemma strip_escapes_app (w rest : bytes) :
  escapes_closed w = true ->
  strip_escapes (w ++ rest) = strip_escapes w ++ strip_escapes rest.
Proof.
  intros H. unfold strip_escapes. apply strip_from_app_closed;
    [exact H|discriminate].
Qed.

Lemma escapes_closed_plain (s : bytes) :
  ~ In ESC s -> escapes_closed s = true.
Proof.
  induction s as [|c s IH]; intros Hno; [reflexivity|].
  cbn [escapes_closed]. destruct (ascii_dec c ESC) as [->|_].
  - exfalso. apply Hno. left. reflexivity.
  - apply IH. intros H. apply Hno. right. exact H.
Qed.

Lemma escapes_closed_app (a b : bytes) :
  escapes_closed a = true -> escapes_closed b = true ->
  escapes_closed (a ++ b) = true.
Proof.
  intros Ha Hb. induction a as [|c a IH]; [exact Hb|].
  cbn [escapes_closed app] in *. apply andb_prop in Ha.
  destruct Ha as [Hc Ha]. rewrite (IH Ha), andb_true_r.
  destruct (ascii_dec c ESC); [|reflexivity].
  rewrite existsb_app, Hc. reflexivity.
Qed.

Lemma vlen_strip (w : bytes) :
  escapes_closed w = true -> vlen w = len (strip_escapes w).
Proof.
  intros H. unfold vlen. rewrite (visible_len_strip w H). reflexivity.
Qed.

(** A line feed ends a line and starts the next. *)
Lemma split_lines_app_LF (x y : bytes) :
  forall cur : bytes,
    split_from [LF] 0 cur (x ++ LF :: y)
    = split_from [LF] 0 cur x ++ split_from [LF] 0 [] y.
Proof.
  induction x as [|c x IH]; intros cur.
  - cbn [app split_from has_prefix].
    destruct (ascii_dec LF LF); [reflexivity|congruence].
  - cbn [app split_from has_prefix]. destruct (ascii_dec LF c).
    + cbn [length Nat.sub]. rewrite IH. reflexivity.
    + apply IH.
Qed.

Lemma lines_app_LF (x y : bytes) : lines (x ++ LF :: y) = lines x ++ lines y.
Proof. apply split_lines_app_LF. Qed.

Lemma trim_left_lf_repeat (s : bytes) :
  exists k, s = repeat LF k ++ trim_left_lf s.
Proof.
  induction s as [|c s [k IH]]; [exists 0%nat; reflexivity|].
  cbn [trim_left_lf]. destruct (ascii_dec c LF) as [->|_].
  - exists (S k). cbn [repeat app]. f_equal. exact IH.
  - exists 0%nat. reflexivity.
Qed.

(** What [TrimLF] takes away: line feeds before and line feeds after. *)
Lemma TrimLF_repeat (s : bytes) :
  exists k m, s = repeat LF k ++ TrimLF s ++ repeat LF m.
Proof.
  destruct (trim_left_lf_repeat s) as [k Ek].
  destruct (trim_left_lf_repeat (rev (trim_left_lf s))) as [m Em].
  exists k, m. unfold TrimLF. rewrite Ek at 1. f_equal.
  apply (f_equal (@rev ascii)) in Em.
  rewrite rev_involutive, rev_app_distr, rev_repeat in Em. exact Em.
Qed.

(** The lines of a trimmed string are lines of the string. *)
Lemma lines_TrimLF (s : bytes) (l : bytes) :
  In l (lines (TrimLF s)) -> In l (lines s).
Proof.
  destruct (TrimLF_repeat s) as [k [m E]]. intros Hin. rewrite E.
  clear E. induction k as [|k IH].
  - cbn [repeat app]. induction m as [|m IH].
    + cbn [repeat]. rewrite app_nil_r. exact Hin.
    + replace (repeat LF (S m)) with (repeat LF m ++ [LF])
        by (rewrite <- repeat_cons; reflexivity).
      rewrite app_assoc, lines_app_LF. apply in_or_app. left. exact IH.
  - cbn [repeat app]. change (LF :: ?x) with ([] ++ LF :: x).
    rewrite lines_app_LF. apply in_or_app. right. exact IH.
Qed.

Section LineLengths.

Variable W : Z.
Variables indent1 indent2 : bytes.

Hypothesis W_nonneg : 0 <= W.
Hypothesis indent1_LF : ~ In LF indent1.
Hypothesis indent1_ESC : ~ In ESC indent1.
Hypothesis indent2_LF : ~ In LF indent2.
Hypothesis indent2_ESC : ~ In ESC indent2.

(** A word that may be filled in. *)
Let fits (w : bytes) : Prop :=
  ~ In LF w /\ escapes_closed w = true
  /\ len indent1 + len (strip_escapes w) <= W
  /\ len indent2 + len (strip_escapes w) <= W.

Let short (line : bytes) : Prop := len (strip_escapes line) <= W.

Lemma fill_lines (ws : list bytes) :
  (forall w, In w ws -> fits w) ->
  forall (cur : bytes),
    ~ In LF cur -> escapes_closed cur = true ->
    len (strip_escapes cur) <= W ->
    Forall short
      (split_from [LF] 0 (rev cur)
         (fill W indent2 (len (strip_escapes cur)) ws)).
Proof.
  induction ws as [|w ws IH]; intros Hws cur Hlf Hclosed Hlen.
  - cbn [fill split_from]. rewrite rev_involutive.
    constructor; [exact Hlen|constructor].
  - destruct (Hws w (or_introl eq_refl)) as [Hwlf [Hwc [_ Hw2]]].
    assert (Hrest : forall u, In u ws -> fits u)
      by (intros u Hu; apply Hws; right; exact Hu).
    cbn [fill]. rewrite (vlen_strip w Hwc).
    destruct (len (strip_escapes cur) + 1 + len (strip_escapes w) >? W)
      eqn:Ewide.
    + cbn [app split_from has_prefix].
      destruct (ascii_dec LF LF) as [_|N]; [|congruence].
      cbn [length Nat.sub]. rewrite rev_involutive.
      constructor; [exact Hlen|].
      rewrite app_assoc, split_lines_run.
      2:{ intros H. apply in_app_or in H. destruct H; auto. }
      rewrite app_nil_r.
      assert (E : len indent2 + len (strip_escapes w)
                  = len (strip_escapes (indent2 ++ w))).
      { rewrite strip_escapes_app by (apply escapes_closed_plain; auto).
        unfold strip_escapes at 2.
        rewrite (strip_from_plain indent2) by auto.
        unfold len. rewrite length_app. lia. }
      rewrite E. apply IH.
      * exact Hrest.
      * intros H. apply in_app_or in H. destruct H; auto.
      * apply escapes_closed_app; [apply escapes_closed_plain; auto|auto].
      * rewrite <- E. exact Hw2.
    + assert (Hle : len (strip_escapes cur) + 1 + len (strip_escapes w) <= W).
      { destruct (Z.gtb_spec (len (strip_escapes cur) + 1
                              + len (strip_escapes w)) W);
          [discriminate|assumption]. }
      change ([SP] ++ w ++ ?r) with ((SP :: w) ++ r).
      rewrite split_lines_run.
      2:{ intros [H|H]; [discriminate H|exact (Hwlf H)]. }
      rewrite <- rev_app_distr.
      assert (E : len (strip_escapes cur) + 1 + len (strip_escapes w)
                  = len (strip_escapes (cur ++ SP :: w))).
      { rewrite strip_escapes_app by exact Hclosed.
        unfold strip_escapes at 4. cbn [strip_from].
        destruct (ascii_dec SP ESC) as [C|_]; [discriminate C|].
        fold (strip_escapes w). unfold len.
        rewrite length_app. cbn [length]. lia. }
      rewrite E. apply IH.
      * exact Hrest.
      * intros H. apply in_app_or in H.
        destruct H as [H|[H|H]]; [auto|discriminate H|auto].
      * apply escapes_closed_app; [exact Hclosed|].
        cbn [escapes_closed]. destruct (ascii_dec SP ESC) as [C|_];
          [discriminate C|exact Hwc].
      * rewrite <- E. exact Hle.
Qed.

Lemma fill_paragraph_lines (ws : list bytes) :
  (forall w, In w ws -> fits w) ->
  Forall short (lines (fill_paragraph W indent1 indent2 ws)).
Proof.
  intros Hws. destruct ws as [|w ws].
  - cbn. constructor; [exact W_nonneg|constructor].
  - destruct (Hws w (or_introl eq_refl)) as [Hwlf [Hwc [Hw1 _]]].
    cbn [fill_paragraph]. unfold lines, Split.
    rewrite app_assoc, split_lines_run.
    2:{ intros H. apply in_app_or in H. destruct H; auto. }
    rewrite app_nil_r, (vlen_strip w Hwc).
    assert (E : len indent1 + len (strip_escapes w)
                = len (strip_escapes (indent1 ++ w))).
    { rewrite strip_escapes_app by (apply escapes_closed_plain; auto).
      unfold strip_escapes at 2.
      rewrite (strip_from_plain indent1) by auto.
      unfold len. rewrite length_app. lia. }
    rewrite E. apply fill_lines.
    + intros u Hu. apply Hws. right. exact Hu.
    + intros H. apply in_app_or in H. destruct H; auto.
    + apply escapes_closed_app; [apply escapes_closed_plain; auto|auto].
    + rewrite <- E. exact Hw1.
Qed.

Lemma fill_text_lines (text : bytes) :
  (forall w, In w (text_words text) -> fits w) ->
  Forall short (lines (fill_text W indent1 indent2 text)).
Proof.
  intros Hws. unfold fill_text.
  assert (Hpars : forall par w,
             In par (paragraphs text) -> In w (words par) -> fits w).
  { intros par w Hpar Hw. apply Hws. apply In_words_paragraphs.
    exists par. split; assumption. }
  clear Hws. induction (paragraphs text) as [|par pars IH].
  - cbn. constructor; [exact W_nonneg|constructor].
  - cbn [map concat]. rewrite <- app_assoc. cbn [app].
    rewrite lines_app_LF. apply Forall_app. split.
    + apply fill_paragraph_lines. intros w Hw.
      apply (Hpars par w); [left; reflexivity|exact Hw].
    + change (LF :: ?x) with ([] ++ LF :: x). rewrite lines_app_LF.
      apply Forall_app. split.
      * cbn. constructor; [exact W_nonneg|constructor].
      * apply IH. intros p w Hp Hw. apply (Hpars p w); [right|]; assumption.
Qed.

End LineLengths.

(** The bytes of a line are bytes of the string. *)
Lemma split_lines_In (s : bytes) :
  forall (cur l : bytes) (c : ascii),
    In l (split_from [LF] 0 cur s) -> In c l -> In c cur \/ In c s.
Proof.
  induction s as [|b s IH]; intros cur l c Hl Hc.
  - cbn [split_from] in Hl. destruct Hl as [<-|[]].
    left. apply in_rev. exact Hc.
  - cbn [split_from has_prefix] in Hl. destruct (ascii_dec LF b).
    + cbn [length Nat.sub] in Hl. destruct Hl as [<-|Hl].
      * left. apply in_rev. exact Hc.
      * destruct (IH [] l c Hl Hc) as [[]|H]. right. right. exact H.
    + destruct (IH _ l c Hl Hc) as [[<-|H]|H].
      * right. left. reflexivity.
      * left. exact H.
      * right. right. exact H.
Qed.

Lemma lines_In (s l : bytes) (c : ascii) :
  In l (lines s) -> In c l -> In c s.
Proof.
  intros Hl Hc. destruct (split_lines_In s [] l c Hl Hc) as [[]|H]. exact H.
Qed.

Lemma TrimLF_In (s : bytes) (c : ascii) : In c (TrimLF s) -> In c s.
Proof.
  destruct (TrimLF_repeat s) as [k [m E]]. intros H. rewrite E.
  apply in_or_app. right. apply in_or_app. left. exact H.
Qed.

(** Filling puts in nothing but the words, spaces, line feeds and the
    prefixes. *)
Lemma fill_In (width : Z) (indent2 : bytes) (ws : list bytes) (c : ascii) :
  forall l : Z,
    In c (fill width indent2 l ws) ->
    c = LF \/ c = SP \/ In c indent2 \/ exists w, In w ws /\ In c w.
Proof.
  induction ws as [|w ws IH]; intros l H; [destruct H|].
  cbn [fill] in H.
  assert (Hrest : forall l',
             In c (fill width indent2 l' ws) ->
             c = LF \/ c = SP \/ In c indent2
             \/ exists u, In u (w :: ws) /\ In c u).
  { intros l' H'. destruct (IH l' H') as [E|[E|[E|[u [Hu Hc]]]]]; auto.
    right. right. right. exists u. split; [right; exact Hu|exact Hc]. }
  assert (Hw : In c w ->
               c = LF \/ c = SP \/ In c indent2
               \/ exists u, In u (w :: ws) /\ In c u).
  { intros Hc. right. right. right. exists w.
    split; [left; reflexivity|exact Hc]. }
  destruct (l + 1 + vlen w >? width).
  - repeat (apply in_app_or in H; destruct H as [H|H]); eauto.
    destruct H as [<-|[]]. left. reflexivity.
  - repeat (apply in_app_or in H; destruct H as [H|H]); eauto.
    destruct H as [<-|[]]. right. left. reflexivity.
Qed.

Lemma fill_text_In (width : Z) (indent1 indent2 : bytes) (text : bytes)
  (c : ascii) :
  In c (fill_text width indent1 indent2 text) ->
  c = LF \/ c = SP \/ In c indent1 \/ In c indent2
  \/ exists w, In w (text_words text) /\ In c w.
Proof.
  unfold fill_text. intros H. apply in_concat in H.
  destruct H as [piece [Hpiece Hc]]. apply in_map_iff in Hpiece.
  destruct Hpiece as [par [<- Hpar]].
  apply in_app_or in Hc. destruct Hc as [Hc|Hc].
  2:{ left. destruct Hc as [<-|[<-|[]]]; reflexivity. }
  assert (Hword : forall w, In w (words par) -> In c w ->
                            exists u, In u (text_words text) /\ In c u).
  { intros w Hw Hcw. exists w. split; [|exact Hcw].
    apply In_words_paragraphs. exists par. split; assumption. }
  destruct (words par) as [|w ws]; [destruct Hc|].
  cbn [fill_paragraph] in Hc.
  apply in_app_or in Hc. destruct Hc as [Hc|Hc]; [auto|].
  apply in_app_or in Hc. destruct Hc as [Hc|Hc].
  - right. right. right. right. apply (Hword w); [left; reflexivity|exact Hc].
  - destruct (fill_In _ _ _ _ _ Hc) as [E|[E|[E|[u [Hu Hcu]]]]]; auto.
    right. right. right. right. apply (Hword u); [right; exact Hu|exact Hcu].
Qed.

(** When every word fits, no line of what [Wrap] returns is longer than
    the width. *)
Lemma Wrap_lines_short (e : Env) (text : bytes) (width : Z)
  (indent1 indent2 : bytes) :
  0 <= effective_width e width ->
  ~ In LF indent1 -> ~ In ESC indent1 ->
  ~ In LF indent2 -> ~ In ESC indent2 ->
  (forall w,
      In w (text_words text) ->
      escapes_closed w = true
      /\ len indent1 + len (strip_escapes w) <= effective_width e width
      /\ len indent2 + len (strip_escapes w) <= effective_width e width) ->
  exists out,
    Wrap e text width indent1 indent2 = Ok out
    /\ (forall line,
          In line (lines out) ->
          len (strip_escapes line) <= effective_width e width)
    /\ ((forall w, In w (text_words text) -> ~ In ESC w) ->
        forall line,
          In line (lines out) -> len line <= effective_width e width).
Proof.
  intros HW H1lf H1esc H2lf H2esc Hws.
  set (out := TrimLF (fill_text (effective_width e width)
                        indent1 indent2 text)).
  assert (Hout : Wrap e text width indent1 indent2 = Ok out).
  { apply Wrap_fill_text. intros w Hw.
    destruct (Hws w Hw) as [Hc _]. rewrite (visible_len_strip w Hc).
    discriminate. }
  assert (Hshort : forall line,
             In line (lines out) ->
             len (strip_escapes line) <= effective_width e width).
  { intros line Hline. apply lines_TrimLF in Hline.
    pose proof (fill_text_lines (effective_width e width) indent1 indent2
                  HW H1lf H1esc H2lf H2esc text) as Hall.
    rewrite Forall_forall in Hall. apply Hall; [|exact Hline].
    intros w Hw. destruct (Hws w Hw) as [Hc [Hw1 Hw2]].
    split; [|auto].
    apply (fields_from_no_LF (Replace text [CR; LF] [LF]) [] w);
      [intros []|exact Hw]. }
  exists out. split; [exact Hout|]. split; [exact Hshort|].
  intros Hplain line Hline.
  assert (Hno : ~ In ESC line).
  { intros Hesc. pose proof (lines_In _ _ _ Hline Hesc) as Hin.
    apply TrimLF_In, fill_text_In in Hin.
    destruct Hin as [E|[E|[E|[E|[w [Hw Hc]]]]]];
      [discriminate E|inversion E|auto|auto|exact (Hplain w Hw Hc)]. }
  pose proof (Hshort line Hline) as Hs. unfold strip_escapes in Hs.
  rewrite (strip_from_plain line Hno) in Hs. exact Hs.
Qed.

(** X14.  No line of what [Wrap] returns is longer than the width, when
    every word fits: when the escape sequences of every word are closed,
    each prefix with any one word comes to no more than the effective
    width, and the prefixes hold neither line feed nor ESC.  Lengths are
    taken without escape sequences; where the words hold no ESC, that is
    the length in bytes. *)
Theorem Wrap_line_lengths (e : Env) (text : bytes) (width : Z)
  (indent1 indent2 : bytes) :
  0 <= effective_width e width ->
  ~ In LF indent1 -> ~ In ESC indent1 ->
  ~ In LF indent2 -> ~ In ESC indent2 ->
  (forall w,
      In w (text_words text) ->
      escapes_closed w = true
      /\ len indent1 + len (strip_escapes w) <= effective_width e width
      /\ len indent2 + len (strip_escapes w) <= effective_width e width) ->
  exists out,
    Wrap e text width indent1 indent2 = Ok out
    /\ (forall line,
          In line (lines out) ->
          len (strip_escapes line) <= effective_width e width)
    /\ ((forall w, In w (text_words text) -> ~ In ESC w) ->
        forall line,
          In line (lines out) -> len line <= effective_width e width).
Proof. exact (Wrap_lines_short e text width indent1 indent2). Qed.

Lemma Wrap_line_lengths_witness :
  exists out,
    Wrap no_terminal bold_sentence 12 (bs "> ") (bs "  ") = Ok out
    /\ (forall line,
          In line (lines out) ->
          len (strip_escapes line) <= effective_width no_terminal 12)
    /\ ((forall w, In w (text_words bold_sentence) -> ~ In ESC w) ->
        forall line,
          In line (lines out) ->
          len line <= effective_width no_terminal 12).
Proof.
  apply (Wrap_line_lengths no_terminal bold_sentence 12 (bs "> ") (bs "  ")).
  - vm_compute. discriminate.
  - simpl. intros [H|[H|H]]; [discriminate H|discriminate H|exact H].
  - simpl. intros [H|[H|H]]; [discriminate H|discriminate H|exact H].
  - simpl. intros [H|[H|H]]; [discriminate H|discriminate H|exact H].
  - simpl. intros [H|[H|H]]; [discriminate H|discriminate H|exact H].
  - intros w Hw. vm_compute in Hw.
    destruct Hw as [<-|[<-|[<-|[<-|[]]]]]; vm_compute;
      (split; [reflexivity|split; discriminate]).
Defined.

(** ** The words of what Wrap returns *)

Lemma fields_from_no_delim (s : bytes) :
  forall (cur : bytes) (w : bytes),
    (forall c, In c cur -> is_delim c = false) ->
    In w (fields_from cur s) -> forall c, In c w -> is_delim c = false.
Proof.
  assert (Hflush : forall cur w,
             (forall c, In c cur -> is_delim c = false) ->
             In w (flush cur) -> forall c, In c w -> is_delim c = false).
  { intros [|b cur] w Hcur; [intros []|]. intros [<-|[]] c Hc.
    apply Hcur. apply in_rev. exact Hc. }
  induction s as [|b s IH]; intros cur w Hcur; cbn [fields_from].
  - apply Hflush. exact Hcur.
  - destruct (is_delim b) eqn:Eb.
    + intros Hin. apply in_app_or in Hin. destruct Hin as [Hin|Hin].
      * apply (Hflush _ _ Hcur Hin).
      * apply (IH [] w); [intros c []|exact Hin].
    + apply IH. intros c [<-|Hc]; [exact Eb|apply Hcur; exact Hc].
Qed.

(** Delimiters before the first word make no word. *)
Lemma fields_from_delims (ds s : bytes) :
  (forall c, In c ds -> is_delim c = true) ->
  fields_from [] (ds ++ s) = fields_from [] s.
Proof.
  intros Hds. induction ds as [|d ds IH]; [reflexivity|].
  cbn [app fields_from]. rewrite (Hds d (or_introl eq_refl)).
  cbn [flush app]. apply IH. intros c Hc. apply Hds. right. exact Hc.
Qed.

(** A word is read as it stands when a delimiter or nothing follows. *)
Lemma fields_from_word (w : bytes) :
  (forall c, In c w -> is_delim c = false) ->
  forall cur s : bytes,
    fields_from cur (w ++ s) = fields_from (rev w ++ cur) s.
Proof.
  induction w as [|b w IH]; intros Hw cur s; [reflexivity|].
  cbn [app fields_from]. rewrite (Hw b (or_introl eq_refl)).
  rewrite IH by (intros c Hc; apply Hw; right; exact Hc).
  cbn [rev]. rewrite <- app_assoc. reflexivity.
Qed.

Lemma words_word_then (w s : bytes) :
  w <> [] -> (forall c, In c w -> is_delim c = false) ->
  (s = [] \/ exists d s', s = d :: s' /\ is_delim d = true) ->
  words (w ++ s) = w :: words s.
Proof.
  intros Hne Hw Hs. unfold words. rewrite (fields_from_word w Hw).
  rewrite app_nil_r.
  assert (Hflush : flush (rev w) = [w]).
  { destruct (rev w) as [|x r] eqn:E.
    - apply (f_equal (@rev ascii)) in E. rewrite rev_involutive in E.
      cbn in E. congruence.
    - cbn [flush]. rewrite <- E, rev_involutive. reflexivity. }
  destruct Hs as [->|[d [s' [-> Hd]]]]; cbn [fields_from].
  - exact Hflush.
  - rewrite Hd, Hflush. reflexivity.
Qed.

Section WordsKept.

Variable width : Z.
Variables indent1 indent2 : bytes.

Hypothesis indent1_delims : forall c, In c indent1 -> is_delim c = true.
Hypothesis indent2_delims : forall c, In c indent2 -> is_delim c = true.

Let word (w : bytes) : Prop :=
  w <> [] /\ forall c, In c w -> is_delim c = false.

Lemma fill_starts (ws : list bytes) (l : Z) :
  fill width indent2 l ws = []
  \/ exists d s', fill width indent2 l ws = d :: s' /\ is_delim d = true.
Proof.
  destruct ws as [|w ws]; [left; reflexivity|]. right. cbn [fill].
  destruct (l + 1 + vlen w >? width); cbn [app]; eexists; eexists;
    (split; [reflexivity|vm_compute; reflexivity]).
Qed.

Lemma words_fill (ws : list bytes) :
  (forall w, In w ws -> word w) ->
  forall l : Z, words (fill width indent2 l ws) = ws.
Proof.
  induction ws as [|w ws IH]; intros Hws l; [reflexivity|].
  destruct (Hws w (or_introl eq_refl)) as [Hne Hw].
  assert (Hrest : forall u, In u ws -> word u)
    by (intros u Hu; apply Hws; right; exact Hu).
  cbn [fill]. destruct (l + 1 + vlen w >? width).
  - unfold words. rewrite (fields_from_delims [LF])
      by (intros c [<-|[]]; vm_compute; reflexivity).
    rewrite (fields_from_delims indent2) by exact indent2_delims.
    fold (words (w ++ fill width indent2 (len indent2 + vlen w) ws)).
    rewrite words_word_then by (auto using fill_starts).
    rewrite IH by exact Hrest. reflexivity.
  - unfold words. rewrite (fields_from_delims [SP])
      by (intros c [<-|[]]; vm_compute; reflexivity).
    fold (words (w ++ fill width indent2 (l + 1 + vlen w) ws)).
    rewrite words_word_then by (auto using fill_starts).
    rewrite IH by exact Hrest. reflexivity.
Qed.

Lemma words_fill_paragraph (ws : list bytes) :
  (forall w, In w ws -> word w) ->
  words (fill_paragraph width indent1 indent2 ws) = ws.
Proof.
  intros Hws. destruct ws as [|w ws]; [reflexivity|].
  destruct (Hws w (or_introl eq_refl)) as [Hne Hw].
  cbn [fill_paragraph]. unfold words.
  rewrite (fields_from_delims indent1) by exact indent1_delims.
  fold (words (w ++ fill width indent2 (len indent1 + vlen w) ws)).
  rewrite words_word_then by (auto using fill_starts).
  rewrite words_fill by (intros u Hu; apply Hws; right; exact Hu).
  reflexivity.
Qed.

Lemma words_fill_text (text : bytes) :
  words (fill_text width indent1 indent2 text) = text_words text.
Proof.
  unfold text_words. rewrite <- paragraphs_words. unfold fill_text.
  induction (paragraphs text) as [|par pars IH]; [reflexivity|].
  cbn [map concat]. rewrite <- app_assoc. cbn [app]. unfold words at 1.
  rewrite fields_from_app_delim by (vm_compute; reflexivity).
  change (LF :: ?x) with ([LF] ++ x).
  rewrite (fields_from_delims [LF])
    by (intros c [<-|[]]; vm_compute; reflexivity).
  fold (words (fill_paragraph width indent1 indent2 (words par))).
  rewrite words_fill_paragraph.
  - f_equal. exact IH.
  - intros w Hw. split.
    + apply (fields_from_nonempty par [] w Hw).
    + apply (fields_from_no_delim par [] w); [intros c []|exact Hw].
Qed.

End WordsKept.

Lemma words_repeat_LF (k : nat) : words (repeat LF k) = [].
Proof.
  unfold words. rewrite <- (app_nil_r (repeat LF k)).
  rewrite fields_from_delims; [reflexivity|].
  intros c Hc. apply repeat_spec in Hc. subst c. vm_compute. reflexivity.
Qed.

(** Trimming line feeds leaves the words as they are. *)
Lemma words_TrimLF (s : bytes) : words (TrimLF s) = words s.
Proof.
  destruct (TrimLF_repeat s) as [k [m E]]. rewrite E at 2.
  unfold words. rewrite fields_from_delims
    by (intros c Hc; apply repeat_spec in Hc; subst c; vm_compute;
        reflexivity).
  destruct m as [|m]; [cbn [repeat]; rewrite app_nil_r; reflexivity|].
  cbn [repeat]. rewrite fields_from_app_delim by (vm_compute; reflexivity).
  fold (words (repeat LF m)). rewrite words_repeat_LF, app_nil_r.
  reflexivity.
Qed.

(** X15.  Filling changes nothing but the space between the words: when
    the prefixes hold only spaces and line feeds, the words of what
    [Wrap] returns are the words of the text, in their order. *)
Theorem Wrap_keeps_the_words (e : Env) (text : bytes) (width : Z)
  (indent1 indent2 : bytes) :
  (forall c, In c indent1 -> is_delim c = true) ->
  (forall c, In c indent2 -> is_delim c = true) ->
  (forall w, In w (text_words text) -> visible_len w <> Hang) ->
  exists out,
    Wrap e text width indent1 indent2 = Ok out
    /\ words out = text_words text.
Proof.
  intros H1 H2 Hlen. eexists. split.
  - apply Wrap_fill_text. exact Hlen.
  - rewrite words_TrimLF. apply words_fill_text; assumption.
Qed.

Lemma Wrap_keeps_the_words_witness :
  exists out,
    Wrap no_terminal plain_sentence 10 (bs "  ") [] = Ok out
    /\ words out = text_words plain_sentence.
Proof.
  apply (Wrap_keeps_the_words no_terminal plain_sentence 10 (bs "  ") []).
  - intros c [<-|[<-|[]]]; vm_compute; reflexivity.
  - intros c [].
  - intros w Hw. vm_compute in Hw.
    destruct Hw as [<-|[<-|[<-|[<-|[]]]]]; vm_compute; discriminate.
Defined.

(** ** The ends of what Wrap returns *)

Lemma words_hang_or_not (l : list bytes) :
  (exists w, In w l /\ visible_len w = Hang)
  \/ (forall w, In w l -> visible_len w <> Hang).
Proof.
  induction l as [|u l IH].
  - right. intros w [].
  - destruct (visible_len u) as [n| |] eqn:Eu.
    + destruct IH as [[w [Hin Hw]]|Hall].
      * left. exists w. split; [right; exact Hin|exact Hw].
      * right. intros w [<-|Hin]; [congruence|apply Hall; exact Hin].
    + destruct (visible_len_not_Panic u Eu).
    + left. exists u. split; [left; reflexivity|exact Eu].
Qed.

(** What [Wrap] returns, when it returns, is the filled text trimmed. *)
Lemma Wrap_Ok_fill_text (e : Env) (text : bytes) (width : Z)
  (indent1 indent2 : bytes) (out : bytes) :
  Wrap e text width indent1 indent2 = Ok out ->
  out = TrimLF (fill_text (effective_width e width) indent1 indent2 text).
Proof.
  intros E. destruct (words_hang_or_not (text_words text))
    as [[w [Hin Hw]]|Hall].
  - unfold Wrap in E. rewrite (wrap_Hang _ _ _ _ w Hin Hw) in E.
    discriminate E.
  - rewrite Wrap_fill_text in E by exact Hall. injection E as <-.
    reflexivity.
Qed.

Lemma trim_left_lf_head (s rest : bytes) : trim_left_lf s <> LF :: rest.
Proof.
  induction s as [|c s IH]; cbn [trim_left_lf]; [discriminate|].
  destruct (ascii_dec c LF) as [->|Hne]; [exact IH|].
  intros E. injection E as E _. exact (Hne E).
Qed.

Lemma trim_left_lf_all (s : bytes) :
  (forall c, In c s -> c = LF) -> trim_left_lf s = [].
Proof.
  induction s as [|c s IH]; intros Hs; [reflexivity|].
  cbn [trim_left_lf]. destruct (ascii_dec c LF) as [_|Hne].
  - apply IH. intros d Hd. apply Hs. right. exact Hd.
  - destruct (Hne (Hs c (or_introl eq_refl))).
Qed.

Lemma TrimLF_ends (s : bytes) :
  (forall rest, TrimLF s <> LF :: rest)
  /\ (forall front, TrimLF s <> front ++ [LF]).
Proof.
  split.
  - intros rest E.
    destruct (trim_left_lf_repeat (rev (trim_left_lf s))) as [m Em].
    apply (f_equal (@rev ascii)) in Em.
    rewrite rev_involutive, rev_app_distr, rev_repeat in Em.
    fold (TrimLF s) in Em. rewrite E in Em. cbn [app] in Em.
    exact (trim_left_lf_head _ _ Em).
  - intros front E. unfold TrimLF in E.
    apply (f_equal (@rev ascii)) in E.
    rewrite rev_involutive, rev_app_distr in E. cbn [rev app] in E.
    exact (trim_left_lf_head _ _ E).
Qed.

(** X16.  What [Wrap] returns neither starts nor ends with a line feed,
    and it is empty exactly when the text has no word: a text of spaces
    and line feeds alone gives the empty string, without any prefix. *)
Theorem Wrap_trimmed (e : Env) (text : bytes) (width : Z)
  (indent1 indent2 : bytes) (out : bytes) :
  Wrap e text width indent1 indent2 = Ok out ->
  (forall rest, out <> LF :: rest)
  /\ (forall front, out <> front ++ [LF])
  /\ (out = [] <-> text_words text = []).
Proof.
  intros E. apply Wrap_Ok_fill_text in E. subst out.
  destruct (TrimLF_ends (fill_text (effective_width e width)
                           indent1 indent2 text)) as [Hhead Hlast].
  split; [exact Hhead|]. split; [exact Hlast|]. split.
  - intros Eout. destruct (text_words text) as [|w ws] eqn:Ew;
      [reflexivity|exfalso].
    assert (Hw : In w (words (Replace text [CR; LF] [LF])))
      by (fold (text_words text); rewrite Ew; left; reflexivity).
    pose proof (fields_from_nonempty _ [] w Hw) as Hne.
    pose proof (fields_from_no_LF _ [] w (fun H => H) Hw) as Hlf.
    apply In_words_paragraphs in Hw. destruct Hw as [par [Hpar Hw]].
    destruct (fill_text_holds (effective_width e width) indent1 indent2
                text par w Hpar
                (fill_paragraph_holds_word _ _ _ _ _ Hw)) as [A [B EAB]].
    destruct (TrimLF_app A w B Hne Hlf) as [A' [B' Etrim]].
    rewrite EAB, Etrim in Eout. destruct A'; [|discriminate Eout].
    destruct w; [congruence|discriminate Eout].
  - intros Ew. unfold TrimLF.
    rewrite (trim_left_lf_all (fill_text _ _ _ _)); [reflexivity|].
    intros c Hc. unfold fill_text in Hc. apply in_concat in Hc.
    destruct Hc as [piece [Hpiece Hc]]. apply in_map_iff in Hpiece.
    destruct Hpiece as [par [<- Hpar]].
    assert (Hnone : words par = []).
    { destruct (words par) as [|w ws] eqn:Epar; [reflexivity|exfalso].
      assert (Hin : In w (text_words text)).
      { apply In_words_paragraphs. exists par.
        split; [exact Hpar|rewrite Epar; left; reflexivity]. }
      rewrite Ew in Hin. destruct Hin. }
    rewrite Hnone in Hc. cbn in Hc.
    destruct Hc as [<-|[<-|[]]]; reflexivity.
Qed.

Lemma Wrap_trimmed_witness :
  (forall rest, [] <> LF :: rest)
  /\ (forall front, @nil ascii <> front ++ [LF])
  /\ (@nil ascii = []
      <-> text_words (bs "  " ++ [LF; LF; LF] ++ bs " ") = []).
Proof.
  apply (Wrap_trimmed no_terminal (bs "  " ++ [LF; LF; LF] ++ bs " ") 20
           (bs "> ") (bs "  ") []).
  vm_compute. reflexivity.
Defined.

(** ** What a call of Align comes to *)

Lemma Wrap_not_Panic (e : Env) (text : bytes) (width : Z)
  (indent1 indent2 : bytes) :
  Wrap e text width indent1 indent2 <> Panic.
Proof.
  unfold Wrap. pose proof (wrap_not_Panic text
    (if width <? 1 then int_wrap (int_wrap (GetTTYWidth e - 1) + width)
     else width) indent1 indent2) as H.
  destruct (wrap text _ indent1 indent2); cbn [bind];
    [discriminate|congruence|discriminate].
Qed.

Lemma Wrap_Hang_words (e : Env) (text : bytes) (width : Z)
  (indent1 indent2 : bytes) :
  Wrap e text width indent1 indent2 = Hang
  <-> exists w, In w (text_words text) /\ visible_len w = Hang.
Proof.
  split.
  - intros E. destruct (words_hang_or_not (text_words text)) as [Hex|Hall];
      [exact Hex|].
    rewrite Wrap_fill_text in E by exact Hall. discriminate E.
  - intros [w [Hin Hw]]. unfold Wrap.
    rewrite (wrap_Hang _ _ _ _ w Hin Hw). reflexivity.
Qed.

(** The cell at index [k] of the cells left to wrap stands in column
    [col + k]. *)
Lemma wrap_cells_outcome (e : Env) (ws : list Z) (cells : list bytes) :
  forall col : nat,
    wrap_cells e ws col cells <> Panic
    /\ (wrap_cells e ws col cells = Hang
        <-> exists k cell,
              nth_error cells k = Some cell
              /\ 0 < nth (col + k) ws 0
              /\ Wrap e cell (nth (col + k) ws 0) [] [] = Hang)
    /\ (forall r, wrap_cells e ws col cells = Ok r ->
                  length r = length cells).
Proof.
  induction cells as [|cell rest IH]; intros col.
  - cbn [wrap_cells]. split; [discriminate|]. split.
    + split; [discriminate|]. intros [k [c [H _]]]. destruct k; discriminate H.
    + intros r H. injection H as <-. reflexivity.
  - destruct (IH (S col)) as [IHp [IHh IHl]]. cbn [wrap_cells].
    assert (Hcol : forall k, (S col + k = col + S k)%nat) by (intros; lia).
    destruct ((length ws <=? col)%nat || (nth col ws 0 <=? 0)) eqn:Eskip.
    + assert (Hnot : ~ 0 < nth col ws 0).
      { apply orb_prop in Eskip. destruct Eskip as [H|H].
        - apply Nat.leb_le in H. rewrite nth_overflow by exact H. lia.
        - apply Z.leb_le in H. lia. }
      cbn [bind].
      destruct (wrap_cells e ws (S col) rest) as [r| |] eqn:Er; cbn [bind].
      * split; [discriminate|]. split.
        -- split; [discriminate|]. intros [k [c [Hk [Hpos Hh]]]].
           destruct k as [|k].
           ++ rewrite Nat.add_0_r in Hpos. destruct (Hnot Hpos).
           ++ cbn [nth_error] in Hk. rewrite <- Hcol in Hpos, Hh.
              assert (C : @Ok (list bytes) r = Hang)
                by (apply IHh; exists k, c; auto).
              discriminate C.
        -- intros r' H. injection H as <-. cbn [length].
           rewrite (IHl r eq_refl). reflexivity.
      * destruct (IHp eq_refl).
      * split; [discriminate|]. split; [|discriminate].
        split; [|reflexivity]. intros _.
        destruct (proj1 IHh eq_refl) as [k [c [Hk [Hpos Hh]]]].
        exists (S k), c. rewrite <- Hcol. auto.
    + assert (Hpos : 0 < nth col ws 0).
      { apply orb_false_elim in Eskip. destruct Eskip as [_ H].
        apply Z.leb_gt in H. exact H. }
      pose proof (Wrap_not_Panic e cell (nth col ws 0) [] []) as Hw.
      destruct (Wrap e cell (nth col ws 0) [] []) as [c'| |] eqn:Ec;
        cbn [bind]; [|congruence|].
      * destruct (wrap_cells e ws (S col) rest) as [r| |] eqn:Er;
          cbn [bind].
        -- split; [discriminate|]. split.
           ++ split; [discriminate|]. intros [k [c [Hk [Hp Hh]]]].
              destruct k as [|k].
              ** cbn [nth_error] in Hk. injection Hk as <-.
                 rewrite Nat.add_0_r in Hh. congruence.
              ** cbn [nth_error] in Hk. rewrite <- Hcol in Hp, Hh.
                 assert (C : @Ok (list bytes) r = Hang)
                   by (apply IHh; exists k, c; auto).
                 discriminate C.
           ++ intros r' H. injection H as <-. cbn [length].
              rewrite (IHl r eq_refl). reflexivity.
        -- destruct (IHp eq_refl).
        -- split; [discriminate|]. split; [|discriminate].
           split; [|reflexivity]. intros _.
           destruct (proj1 IHh eq_refl) as [k [c [Hk [Hp Hh]]]].
           exists (S k), c. rewrite <- Hcol. auto.
      * split; [discriminate|]. split; [|discriminate].
        split; [|reflexivity]. intros _. exists 0%nat, cell.
        rewrite Nat.add_0_r. auto.
Qed.

Lemma wrap_row_outcome (e : Env) (opts : AlignOptions) (cells : list bytes) :
  wrap_row e opts cells <> Panic
  /\ (wrap_row e opts cells = Hang
      <-> exists ws k cell,
            Widths opts = Some ws
            /\ nth_error cells k = Some cell
            /\ 0 < nth k ws 0
            /\ Wrap e cell (nth k ws 0) [] [] = Hang)
  /\ (forall r, wrap_row e opts cells = Ok r -> length r = length cells).
Proof.
  unfold wrap_row. destruct (Widths opts) as [ws|].
  - destruct (wrap_cells_outcome e ws cells 0) as [Hp [Hh Hl]].
    split; [exact Hp|]. split; [|exact Hl]. rewrite Hh. split.
    + intros [k [c H]]. exists ws, k, c. split; [reflexivity|exact H].
    + intros [ws' [k [c [E H]]]]. injection E as <-. exists k, c. exact H.
  - split; [discriminate|]. split.
    + split; [discriminate|]. intros [ws [k [c [E _]]]]. discriminate E.
    + intros r H. injection H as <-. reflexivity.
Qed.

Lemma prepare_step_outcome (e : Env) (opts : AlignOptions)
  (acc : list row) (r : row) :
  prepare_step e opts acc r <> Panic
  /\ (prepare_step e opts acc r = Hang
      <-> exists cells, r = Some cells /\ wrap_row e opts cells = Hang)
  /\ (forall acc', prepare_step e opts acc r = Ok acc' ->
                   (acc' = [] <-> acc = [] /\ void_row opts r = true)).
Proof.
  destruct r as [cells|]; cbn [prepare_step void_row].
  - destruct (wrap_row_outcome e opts cells) as [Hp [_ Hl]].
    destruct (wrap_row e opts cells) as [wrapped| |] eqn:Ew; cbn [bind];
      [|congruence|].
    + split; [discriminate|]. split.
      * split; [discriminate|]. intros [c [E H]]. injection E as <-.
        congruence.
      * intros acc' H. injection H as <-.
        pose proof (expand_row_nil wrapped) as Hnil.
        rewrite (Hl wrapped eq_refl) in Hnil.
        destruct acc as [|a acc].
        -- cbn [length Nat.eqb negb andb]. rewrite andb_false_r.
           cbn [app]. split.
           ++ intros E. split; [reflexivity|]. rewrite <- Hnil.
              apply (f_equal (@length row)) in E.
              rewrite length_map in E. rewrite E. reflexivity.
           ++ intros [_ E]. rewrite E in Hnil. apply Nat.eqb_eq in Hnil.
              destruct (expand_row wrapped); [reflexivity|discriminate Hnil].
        -- split; [|intros [C _]; discriminate C].
           intros E. exfalso.
           destruct (NilBetweenEveryRow opts && negb (length (a :: acc) =? 0)%nat);
             discriminate E.
    + split; [discriminate|]. split; [|discriminate].
      split; [|reflexivity]. intros _. exists cells. auto.
  - destruct (NilBetweenEveryRow opts); cbn [negb].
    + split; [discriminate|]. split.
      * split; [discriminate|]. intros [c [E _]]. discriminate E.
      * intros acc' H. injection H as <-. split; [auto|]. intros [H _].
        exact H.
    + split; [discriminate|]. split.
      * split; [discriminate|]. intros [c [E _]]. discriminate E.
      * intros acc' H. injection H as <-. split.
        -- intros E. destruct acc; discriminate E.
        -- intros [_ C]. discriminate C.
Qed.

Lemma prepare_outcome (e : Env) (opts : AlignOptions) (data : list row) :
  forall acc : list row,
    foldM (prepare_step e opts) data acc <> Panic
    /\ (foldM (prepare_step e opts) data acc = Hang
        <-> exists cells, In (Some cells) data
                          /\ wrap_row e opts cells = Hang)
    /\ (forall grid, foldM (prepare_step e opts) data acc = Ok grid ->
                     (grid = []
                      <-> acc = []
                          /\ forall r, In r data -> void_row opts r = true)).
Proof.
  induction data as [|r data IH]; intros acc.
  - cbn [foldM]. split; [discriminate|]. split.
    + split; [discriminate|]. intros [c [[] _]].
    + intros grid H. injection H as <-. split.
      * intros E. split; [exact E|]. intros r [].
      * intros [E _]. exact E.
  - cbn [foldM].
    destruct (prepare_step_outcome e opts acc r) as [Hp [Hh Ho]].
    destruct (prepare_step e opts acc r) as [acc'| |] eqn:Es; cbn [bind];
      [|congruence|].
    + destruct (IH acc') as [IHp [IHh IHo]]. split; [exact IHp|]. split.
      * rewrite IHh. split.
        -- intros [c [Hin Hw]]. exists c. split; [right; exact Hin|exact Hw].
        -- intros [c [[E|Hin] Hw]].
           ++ assert (C : @Ok (list row) acc' = Hang)
                by (apply Hh; exists c; split; [exact E|exact Hw]).
              discriminate C.
           ++ exists c. split; assumption.
      * intros grid Hg. rewrite (IHo grid Hg), (Ho acc' eq_refl). split.
        -- intros [[Hacc Hr] Hrest]. split; [exact Hacc|].
           intros x [<-|Hx]; [exact Hr|apply Hrest; exact Hx].
        -- intros [Hacc Hall]. split; [split|].
           ++ exact Hacc.
           ++ apply Hall. left. reflexivity.
           ++ intros x Hx. apply Hall. right. exact Hx.
    + split; [discriminate|]. split; [|discriminate].
      split; [|reflexivity]. intros _.
      destruct (proj1 Hh eq_refl) as [c [E Hw]]. exists c.
      split; [left; exact E|exact Hw].
Qed.

(** X17.  How a call of [Align] ends.  It panics, at [len(data[0])],
    exactly when [data] has rows and none of them adds a row to the grid:
    each is a data row without cells, or a nil row with
    NilBetweenEveryRow set.  It fails to return exactly when a cell in a
    column with a positive configured width has a word the scan of which
    does not end; without configured widths it always returns or
    panics. *)
Theorem Align_outcome (e : Env) (data : list row)
  (opts : option AlignOptions) :
  (Align e data opts = Panic
   <-> data <> []
       /\ forall r, In r data -> void_row (options_of opts) r = true)
  /\ (Align e data opts = Hang
      <-> exists ws cells col cell w,
            Widths (options_of opts) = Some ws
            /\ In (Some cells) data
            /\ nth_error cells col = Some cell
            /\ 0 < nth col ws 0
            /\ In w (text_words cell)
            /\ visible_len w = Hang)
  /\ (Widths (options_of opts) = None -> Align e data opts <> Hang).
Proof.
  assert (Hhang : Align e data opts = Hang
                  <-> exists ws cells col cell w,
                        Widths (options_of opts) = Some ws
                        /\ In (Some cells) data
                        /\ nth_error cells col = Some cell
                        /\ 0 < nth col ws 0
                        /\ In w (text_words cell)
                        /\ visible_len w = Hang).
  { unfold Align. fold (options_of opts).
    destruct (prepare_outcome e (options_of opts) data []) as [_ [Hh _]].
    destruct data as [|r data].
    { cbn [length Nat.eqb]. split; [discriminate|].
      intros [ws [cells [col [cell [w [_ [[] _]]]]]]]. }
    cbn [length Nat.eqb]. unfold prepare.
    transitivity (foldM (prepare_step e (options_of opts)) (r :: data) []
                  = Hang).
    { destruct (foldM (prepare_step e (options_of opts)) (r :: data) [])
        as [[|g grid]| |]; cbn [bind];
        split; intros H; try discriminate H; reflexivity. }
    rewrite Hh. split.
    - intros [cells [Hin Hw]].
      apply (proj1 (proj2 (wrap_row_outcome e _ cells))) in Hw.
      destruct Hw as [ws [k [cell [Ews [Hk [Hpos Hwrap]]]]]].
      apply Wrap_Hang_words in Hwrap. destruct Hwrap as [w [Hw Hv]].
      exists ws, cells, k, cell, w. auto 7.
    - intros [ws [cells [col [cell [w [Ews [Hin [Hk [Hpos [Hw Hv]]]]]]]]]].
      exists cells. split; [exact Hin|].
      apply (proj1 (proj2 (wrap_row_outcome e _ cells))).
      exists ws, col, cell. split; [exact Ews|]. split; [exact Hk|].
      split; [exact Hpos|]. apply Wrap_Hang_words. exists w. auto. }
  split; [|split; [exact Hhang|]].
  - unfold Align. fold (options_of opts).
    destruct (prepare_outcome e (options_of opts) data [])
      as [Hp [_ Ho]].
    destruct data as [|r data].
    { cbn [length Nat.eqb]. split; [discriminate|]. intros [C _].
      congruence. }
    cbn [length Nat.eqb]. unfold prepare.
    destruct (foldM (prepare_step e (options_of opts)) (r :: data) [])
      as [grid| |] eqn:Eg; cbn [bind]; [|congruence|].
    + pose proof (Ho grid eq_refl) as Hgrid. destruct grid as [|g grid].
      * split; [intros _|reflexivity]. split; [discriminate|].
        apply Hgrid. reflexivity.
      * split; [discriminate|]. intros [_ Hall].
        assert (C : g :: grid = []) by (apply Hgrid; auto).
        discriminate C.
    + split; [discriminate|]. intros [_ Hall]. exfalso.
      destruct (proj1 (proj1 (proj2 (prepare_outcome e (options_of opts)
                                       (r :: data) [])) ) Eg)
        as [cells [Hin Hw]].
      pose proof (Hall _ Hin) as Hvoid. cbn [void_row] in Hvoid.
      destruct cells; [|discriminate Hvoid].
      unfold wrap_row in Hw. destruct (Widths (options_of opts));
        discriminate Hw.
  - intros Hnone E. apply Hhang in E.
    destruct E as [ws [_ [_ [_ [_ [Ews _]]]]]]. congruence.
Qed.

(** ** The columns of the table *)

Lemma grow_widths_length (n : nat) :
  forall (widths : list Z) (cells : list bytes),
    length (grow_widths n widths cells) = (length widths + n)%nat.
Proof.
  induction n as [|n IH]; intros widths cells; cbn [grow_widths]; [lia|].
  rewrite IH, length_app. cbn [length]. lia.
Qed.

Lemma set_nth_length (c : nat) (x : Z) (l : list Z) :
  length (set_nth c x l) = length l.
Proof.
  revert c. induction l as [|y l IH]; intros c; [destruct c; reflexivity|].
  destruct c as [|c]; cbn [set_nth length]; [reflexivity|].
  rewrite IH. reflexivity.
Qed.

Lemma measure_cells_length (cells : list bytes) :
  forall (c : nat) (widths : list Z),
    length (measure_cells c cells widths) = length widths.
Proof.
  induction cells as [|v rest IH]; intros c widths; cbn [measure_cells];
    [reflexivity|].
  rewrite IH. destruct (utf8.RuneCountInString v >? nth c widths 0);
    [apply set_nth_length|reflexivity].
Qed.

Lemma widths_fold_length (data : list row) :
  forall widths : list Z,
    length (fold_left widths_step data widths)
    = Nat.max (length widths) (list_max (map (@length bytes) (data_rows data))).
Proof.
  induction data as [|r data IH]; intros widths; cbn [fold_left data_rows].
  - simpl. lia.
  - destruct r as [cells|]; cbn [widths_step]; rewrite IH; [|reflexivity].
    rewrite measure_cells_length, grow_widths_length.
    change (list_max (map (@length bytes) (cells :: data_rows data)))
      with (Nat.max (length cells)
              (list_max (map (@length bytes) (data_rows data)))).
    lia.
Qed.

Lemma data_rows_In (data : list row) (cells : list bytes) :
  In (Some cells) data <-> In cells (data_rows data).
Proof.
  induction data as [|r data IH]; [reflexivity|].
  destruct r as [c|]; cbn [data_rows In]; rewrite IH.
  - split; (intros [E|H]; [left; congruence|right; exact H]).
  - split; [intros [E|H]; [discriminate E|exact H]|auto].
Qed.

Lemma list_max_In (l : list nat) (n : nat) :
  In n l -> (n <= list_max l)%nat.
Proof.
  induction l as [|m l IH]; intros Hin; [destruct Hin|].
  change (list_max (m :: l)) with (Nat.max m (list_max l)).
  destruct Hin as [->|Hin]; [lia|]. specialize (IH Hin). lia.
Qed.

(** X18.  The columns [Align] lays the grid out in.  There are as many
    as the longest row has cells; the width of a column is the largest
    codepoint count among its cells or, if that is more, the byte length
    of its topmost cell; no width is negative; and the row, the widths
    and the alignments reach every index the rendering loop uses:
    [widths[c]] and [alignments[c]] exist for every cell of every
    row. *)
Theorem table_columns (grid : list row) (al : option (list Alignment)) :
  length (column_widths grid)
  = list_max (map (@length bytes) (data_rows grid))
  /\ (forall c : nat,
        nth_error (column_widths grid) c
        = match column_cells c grid with
          | [] => None
          | v :: rest => Some (Z.max (len v) (max_runes (v :: rest)))
          end)
  /\ (forall c w, nth_error (column_widths grid) c = Some w -> 0 <= w)
  /\ (forall cells,
        In (Some cells) grid ->
        (length cells <= length (column_widths grid))%nat)
  /\ (length (column_widths grid)
      <= length (resolve_alignments al (length (column_widths grid))))%nat.
Proof.
  assert (Hlen : length (column_widths grid)
                 = list_max (map (@length bytes) (data_rows grid))).
  { unfold column_widths. rewrite widths_fold_length. cbn [length]. lia. }
  assert (Hnth : forall c : nat,
             nth_error (column_widths grid) c
             = match column_cells c grid with
               | [] => None
               | v :: rest => Some (Z.max (len v) (max_runes (v :: rest)))
               end).
  { intros c. rewrite column_widths_nth_error.
    destruct (column_cells c grid) as [|v rest]; [reflexivity|].
    f_equal. pose proof (RuneCount_nonneg v).
    rewrite max_from_max_runes by lia.
    change (max_runes (v :: rest))
      with (Z.max (utf8.RuneCountInString v) (max_runes rest)).
    lia. }
  split; [exact Hlen|]. split; [exact Hnth|]. split; [|split].
  - intros c w E. rewrite Hnth in E.
    destruct (column_cells c grid) as [|v rest]; [discriminate E|].
    injection E as <-. unfold len. lia.
  - intros cells Hin. rewrite Hlen. apply list_max_In, in_map.
    apply data_rows_In. exact Hin.
  - unfold resolve_alignments. destruct al as [a|].
    + destruct (Nat.ltb_spec (length a) (length (column_widths grid)))
        as [Hlt|Hge]; [|exact Hge].
      rewrite length_app, repeat_length. lia.
    + rewrite repeat_length. lia.
Qed.

(** ** The rows of the grid Align builds *)

Lemma split_lines_no_LF (s : bytes) :
  forall (cur l : bytes),
    ~ In LF cur -> In l (split_from [LF] 0 cur s) -> ~ In LF l.
Proof.
  induction s as [|b s IH]; intros cur l Hcur Hl.
  - cbn [split_from] in Hl. destruct Hl as [<-|[]].
    intros H. apply in_rev in H. exact (Hcur H).
  - cbn [split_from has_prefix] in Hl. destruct (ascii_dec LF b) as [E|Hne].
    + cbn [length Nat.sub] in Hl. destruct Hl as [<-|Hl].
      * intros H. apply in_rev in H. exact (Hcur H).
      * apply (IH [] l); [intros []|exact Hl].
    + apply (IH (b :: cur) l); [|exact Hl].
      intros [E|H]; [congruence|exact (Hcur H)].
Qed.

Lemma cell_lines_no_LF (cell line : bytes) :
  In line (cell_lines cell) -> ~ In LF line.
Proof.
  unfold cell_lines, Split. apply split_lines_no_LF. intros [].
Qed.

Lemma expand_row_rows (cells : list bytes) (prow : list bytes) :
  In prow (expand_row cells) ->
  length prow = length cells /\ forall v, In v prow -> ~ In LF v.
Proof.
  unfold expand_row. intros Hin. apply in_map_iff in Hin.
  destruct Hin as [k [<- _]]. unfold physical_row, split_cells. split.
  - rewrite !length_map. reflexivity.
  - intros v Hv. rewrite map_map in Hv. apply in_map_iff in Hv.
    destruct Hv as [cell [<- _]].
    match goal with
    | |- context [(k <? ?n)%nat] =>
        destruct (Nat.ltb_spec k n) as [Hk|Hk]; [|intros H; exact H]
    end.
    apply (cell_lines_no_LF cell). apply nth_In. exact Hk.
Qed.

Lemma prepare_rows_from (e : Env) (opts : AlignOptions) (data : list row)
  (P : list bytes -> Prop) :
  (forall src prow,
      In (Some src) data -> length prow = length src ->
      (forall v, In v prow -> ~ In LF v) -> P prow) ->
  forall acc grid : list row,
    (forall prow, In (Some prow) acc -> P prow) ->
    foldM (prepare_step e opts) data acc = Ok grid ->
    forall prow, In (Some prow) grid -> P prow.
Proof.
  induction data as [|r data IH]; intros HP acc grid Hacc Hg.
  - cbn [foldM] in Hg. injection Hg as <-. exact Hacc.
  - cbn [foldM] in Hg.
    destruct (prepare_step e opts acc r) as [acc'| |] eqn:Es;
      cbn [bind] in Hg; try discriminate Hg.
    apply (IH (fun src prow Hin => HP src prow (or_intror Hin)) acc' grid);
      [|exact Hg].
    intros prow Hin. destruct r as [cells|]; cbn [prepare_step] in Es.
    + destruct (wrap_row_outcome e opts cells) as [_ [_ Hl]].
      destruct (wrap_row e opts cells) as [wrapped| |];
        cbn [bind] in Es; try discriminate Es.
      injection Es as <-. apply in_app_or in Hin.
      destruct Hin as [Hin|Hin].
      * apply Hacc.
        destruct (NilBetweenEveryRow opts && negb (length acc =? 0)%nat);
          [|exact Hin].
        apply in_app_or in Hin. destruct Hin as [Hin|[C|[]]];
          [exact Hin|discriminate C].
      * apply in_map_iff in Hin. destruct Hin as [p [E Hp]].
        injection E as ->.
        destruct (expand_row_rows wrapped prow Hp) as [Hlen Hlf].
        apply (HP cells prow); [left; reflexivity| |exact Hlf].
        transitivity (length wrapped); [exact Hlen|apply Hl; reflexivity].
    + apply Hacc. destruct (negb (NilBetweenEveryRow opts));
        injection Es as <-; [|exact Hin].
      apply in_app_or in Hin. destruct Hin as [Hin|[C|[]]];
        [exact Hin|discriminate C].
Qed.

(** The rows of the grid are physical rows of the wrapped data rows. *)
Lemma prepare_rows_wrapped (e : Env) (opts : AlignOptions)
  (data : list row) (P : list bytes -> Prop) :
  (forall src wrapped prow,
      In (Some src) data -> wrap_row e opts src = Ok wrapped ->
      In prow (expand_row wrapped) -> P prow) ->
  forall acc grid : list row,
    (forall prow, In (Some prow) acc -> P prow) ->
    foldM (prepare_step e opts) data acc = Ok grid ->
    forall prow, In (Some prow) grid -> P prow.
Proof.
  induction data as [|r data IH]; intros HP acc grid Hacc Hg.
  - cbn [foldM] in Hg. injection Hg as <-. exact Hacc.
  - cbn [foldM] in Hg.
    destruct (prepare_step e opts acc r) as [acc'| |] eqn:Es;
      cbn [bind] in Hg; try discriminate Hg.
    apply (IH (fun src w prow Hin => HP src w prow (or_intror Hin))
             acc' grid); [|exact Hg].
    intros prow Hin. destruct r as [cells|]; cbn [prepare_step] in Es.
    + destruct (wrap_row e opts cells) as [wrapped| |] eqn:Ew;
        cbn [bind] in Es; try discriminate Es.
      injection Es as <-. apply in_app_or in Hin.
      destruct Hin as [Hin|Hin].
      * apply Hacc.
        destruct (NilBetweenEveryRow opts && negb (length acc =? 0)%nat);
          [|exact Hin].
        apply in_app_or in Hin. destruct Hin as [Hin|[C|[]]];
          [exact Hin|discriminate C].
      * apply in_map_iff in Hin. destruct Hin as [p [E Hp]].
        injection E as ->.
        apply (HP cells wrapped prow); [left; reflexivity|exact Ew|exact Hp].
    + apply Hacc. destruct (negb (NilBetweenEveryRow opts));
        injection Es as <-; [|exact Hin].
      apply in_app_or in Hin. destruct Hin as [Hin|[C|[]]];
        [exact Hin|discriminate C].
Qed.

(** X19.  Every row of the grid [Align] builds is a physical row of a
    data row of the caller.  There are a data row [src] of [data], the
    row [wrapped] that [src] is wrapped to, which is [src] itself when no
    widths are configured, and a number [k] below the number of physical
    rows of [wrapped], such that the row is physical row [k] of
    [wrapped]: it holds, column by column, line [k] of the cell of
    [wrapped], and the empty string where that cell has fewer lines.  So
    the row has as many cells as [src], and no cell of it holds a line
    feed: what is rendered is one line for each row. *)
Theorem prepare_rows (e : Env) (opts : AlignOptions) (data grid : list row)
  (prow : list bytes) :
  prepare e opts data = Ok grid ->
  In (Some prow) grid ->
  (exists (src wrapped : list bytes) (k : nat),
      In (Some src) data
      /\ wrap_row e opts src = Ok wrapped
      /\ (Widths opts = None -> wrapped = src)
      /\ (k < length (expand_row wrapped))%nat
      /\ nth_error (expand_row wrapped) k = Some prow
      /\ prow = map (fun cell => nth k (cell_lines cell) []) wrapped
      /\ length prow = length src)
  /\ (forall v, In v prow -> ~ In LF v).
Proof.
  intros Hg Hin.
  apply (prepare_rows_wrapped e opts data
           (fun prow =>
              (exists (src wrapped : list bytes) (k : nat),
                  In (Some src) data
                  /\ wrap_row e opts src = Ok wrapped
                  /\ (Widths opts = None -> wrapped = src)
                  /\ (k < length (expand_row wrapped))%nat
                  /\ nth_error (expand_row wrapped) k = Some prow
                  /\ prow = map (fun cell => nth k (cell_lines cell) [])
                              wrapped
                  /\ length prow = length src)
              /\ (forall v, In v prow -> ~ In LF v)))
    with (acc := []) (grid := grid); [|intros p []|exact Hg|exact Hin].
  clear prow Hin. intros src wrapped prow Hsrc Hw Hp.
  destruct (expand_row_rows wrapped prow Hp) as [Hlen Hlf].
  destruct (wrap_row_outcome e opts src) as [_ [_ Hl]].
  split; [|exact Hlf].
  destruct (In_nth_error _ _ Hp) as [k Hk].
  assert (Hlt : (k < length (expand_row wrapped))%nat).
  { apply nth_error_Some. rewrite Hk. discriminate. }
  exists src, wrapped, k. split; [exact Hsrc|]. split; [exact Hw|].
  split.
  { intros Hn. unfold wrap_row in Hw. rewrite Hn in Hw.
    injection Hw as <-. reflexivity. }
  split; [exact Hlt|]. split; [exact Hk|]. split.
  - unfold expand_row in Hk, Hlt. rewrite length_map, length_seq in Hlt.
    rewrite nth_error_map_seq in Hk. apply Nat.ltb_lt in Hlt.
    rewrite Hlt in Hk. injection Hk as <-.
    rewrite physical_row_nth. unfold split_cells. rewrite map_map.
    reflexivity.
  - transitivity (length wrapped); [exact Hlen|apply Hl; exact Hw].
Qed.

Lemma prepare_rows_witness :
  (exists (src wrapped : list bytes) (k : nat),
      In (Some src) [Some [bs "x"]; Some [bs "a" ++ [LF] ++ bs "b"; bs "c"]]
      /\ wrap_row no_terminal NewSimpleAlignOptions src = Ok wrapped
      /\ (Widths NewSimpleAlignOptions = None -> wrapped = src)
      /\ (k < length (expand_row wrapped))%nat
      /\ nth_error (expand_row wrapped) k = Some [bs "b"; []]
      /\ [bs "b"; []] = map (fun cell => nth k (cell_lines cell) []) wrapped
      /\ length [bs "b"; []] = length src)
  /\ (forall v, In v [bs "b"; []] -> ~ In LF v).
Proof.
  apply (prepare_rows no_terminal NewSimpleAlignOptions
           [Some [bs "x"]; Some [bs "a" ++ [LF] ++ bs "b"; bs "c"]]
           [Some [bs "x"]; Some [bs "a"; bs "c"]; Some [bs "b"; []]]).
  - vm_compute. reflexivity.
  - right. right. left. reflexivity.
Defined.

(** ** Grids that need no preparing *)

Lemma Replace_without_LF (s : bytes) :
  ~ In LF s -> Replace s [CR; LF] [LF] = s.
Proof.
  unfold Replace. induction s as [|b s IH]; intros Hlf; [reflexivity|].
  cbn [replace_from].
  destruct (has_prefix [CR; LF] (b :: s)) eqn:Ep.
  - exfalso. cbn [has_prefix] in Ep.
    destruct (ascii_dec CR b); [|discriminate Ep].
    destruct s as [|c s]; [discriminate Ep|].
    destruct (ascii_dec LF c) as [<-|]; [|discriminate Ep].
    apply Hlf. right. left. reflexivity.
  - f_equal. apply IH. intros H. apply Hlf. right. exact H.
Qed.

Lemma cell_lines_single (cell : bytes) :
  ~ In LF cell -> cell_lines cell = [cell].
Proof.
  intros Hlf. unfold cell_lines, Split.
  rewrite Replace_without_LF by exact Hlf.
  rewrite <- (app_nil_r cell) at 1.
  rewrite split_lines_run by exact Hlf.
  cbn [split_from]. rewrite app_nil_r, rev_involutive. reflexivity.
Qed.

Lemma expand_row_single (cells : list bytes) :
  cells <> [] -> (forall v, In v cells -> ~ In LF v) ->
  expand_row cells = [cells].
Proof.
  intros Hne Hlf. unfold expand_row.
  assert (Hwork : split_cells cells = map (fun v => [v]) cells).
  { unfold split_cells. apply map_ext_in. intros v Hv.
    apply cell_lines_single, Hlf, Hv. }
  rewrite Hwork.
  assert (Hmax : maxCells (map (fun v : bytes => [v]) cells) = 1%nat).
  { rewrite maxCells_list_max, map_map. cbn [length].
    destruct cells as [|v rest]; [congruence|]. clear.
    change (list_max (map (fun _ => 1%nat) (v :: rest)))
      with (Nat.max 1 (list_max (map (fun _ : bytes => 1%nat) rest))).
    induction rest as [|u rest IH]; [reflexivity|].
    change (list_max (map (fun _ => 1%nat) (u :: rest)))
      with (Nat.max 1 (list_max (map (fun _ : bytes => 1%nat) rest))).
    lia. }
  rewrite Hmax. cbn [seq map]. f_equal. unfold physical_row.
  rewrite map_map. cbn [length Nat.ltb Nat.leb nth].
  apply map_id.
Qed.

Lemma prepare_single_lines (e : Env) (opts : AlignOptions) :
  Widths opts = None -> NilBetweenEveryRow opts = false ->
  forall data acc : list row,
    (forall cells v, In (Some cells) data -> In v cells -> ~ In LF v) ->
    ~ In (Some []) data ->
    foldM (prepare_step e opts) data acc = Ok (acc ++ data).
Proof.
  intros Hw Hn. induction data as [|r data IH]; intros acc Hlf Hne.
  - cbn [foldM]. rewrite app_nil_r. reflexivity.
  - cbn [foldM]. destruct r as [cells|]; cbn [prepare_step].
    + unfold wrap_row. rewrite Hw, Hn. cbn [bind andb].
      rewrite expand_row_single.
      * cbn [map]. rewrite IH.
        -- rewrite <- app_assoc. reflexivity.
        -- intros c v Hc. apply Hlf. right. exact Hc.
        -- intros H. apply Hne. right. exact H.
      * intros ->. apply Hne. left. reflexivity.
      * intros v Hv. apply (Hlf cells v); [left; reflexivity|exact Hv].
    + rewrite Hn. cbn [negb bind]. rewrite IH.
      * rewrite <- app_assoc. reflexivity.
      * intros c v Hc. apply Hlf. right. exact Hc.
      * intros H. apply Hne. right. exact H.
Qed.

(** X20.  A grid of single-line cells is rendered as it stands: without
    configured widths and without NilBetweenEveryRow, when no cell holds
    a line feed and every data row has a cell, the grid [Align] builds is
    [data] itself, nil rows kept where they are; and [Align] returns the
    table of [data], if [data] has a row. *)
Theorem Align_single_lines (e : Env) (data : list row)
  (opts : AlignOptions) :
  Widths opts = None -> NilBetweenEveryRow opts = false ->
  (forall cells v, In (Some cells) data -> In v cells -> ~ In LF v) ->
  ~ In (Some []) data ->
  prepare e opts data = Ok data
  /\ (data <> [] -> Align e data (Some opts) = Ok (emit_table opts data)).
Proof.
  intros Hw Hn Hlf Hne.
  assert (Hp : prepare e opts data = Ok data).
  { unfold prepare. rewrite (prepare_single_lines e opts Hw Hn data []);
      auto. }
  split; [exact Hp|]. intros Hdata. unfold Align. rewrite Hp.
  destruct data as [|r data]; [congruence|reflexivity].
Qed.

Lemma Align_single_lines_witness :
  prepare no_terminal NewSimpleAlignOptions
    [Some [bs "a"; bs "bcd"]; None; Some [bs "ef"]]
  = Ok [Some [bs "a"; bs "bcd"]; None; Some [bs "ef"]]
  /\ ([Some [bs "a"; bs "bcd"]; None; Some [bs "ef"]] <> [] ->
      Align no_terminal [Some [bs "a"; bs "bcd"]; None; Some [bs "ef"]]
        (Some NewSimpleAlignOptions)
      = Ok (emit_table NewSimpleAlignOptions
              [Some [bs "a"; bs "bcd"]; None; Some [bs "ef"]])).
Proof.
  apply (Align_single_lines no_terminal
           [Some [bs "a"; bs "bcd"]; None; Some [bs "ef"]]
           NewSimpleAlignOptions).
  - reflexivity.
  - reflexivity.
  - intros cells v Hc Hv Hlf.
    destruct Hc as [E|[E|[E|[]]]]; try discriminate E;
      injection E as <-; simpl in Hv;
      repeat (destruct Hv as [<-|Hv];
              [simpl in Hlf;
               repeat (destruct Hlf as [Hlf|Hlf]; [discriminate Hlf|]);
               exact Hlf|]);
      exact Hv.
  - intros [E|[E|[E|[]]]]; discriminate E.
Defined.

(** ** Widths that wrap nothing *)

Lemma wrap_cells_nonpositive (e : Env) (ws : list Z) (cells : list bytes) :
  (forall w, In w ws -> w <= 0) ->
  forall col : nat, wrap_cells e ws col cells = Ok cells.
Proof.
  intros Hws. induction cells as [|cell rest IH]; intros col;
    cbn [wrap_cells]; [reflexivity|].
  assert (Hskip : (length ws <=? col)%nat || (nth col ws 0 <=? 0) = true).
  { destruct (Nat.leb_spec (length ws) col) as [H|H]; [reflexivity|].
    cbn [orb]. apply Z.leb_le. apply Hws. apply nth_In. exact H. }
  rewrite Hskip, IH. reflexivity.
Qed.

(** The configured widths play no part in the rendering. *)
Lemma emit_cells_set_widths (a b : option (list Z)) (o : AlignOptions)
  (widths : list Z) (alignments : list Alignment) (n : nat)
  (cells : list bytes) :
  forall c : nat,
    emit_cells (set_widths a o) widths alignments n c cells
    = emit_cells (set_widths b o) widths alignments n c cells.
Proof.
  induction cells as [|v rest IH]; intros c; [reflexivity|].
  cbn [emit_cells]. rewrite IH. reflexivity.
Qed.

Lemma emit_rows_set_widths (a b : option (list Z)) (o : AlignOptions)
  (widths : list Z) (alignments : list Alignment) (data : list row) :
  forall firstNil : bool,
    emit_rows (set_widths a o) widths alignments firstNil data
    = emit_rows (set_widths b o) widths alignments firstNil data.
Proof.
  induction data as [|r data IH]; intros firstNil; [reflexivity|].
  destruct r as [cells|]; cbn [emit_rows].
  - rewrite IH. unfold emit_row.
    rewrite (emit_cells_set_widths a b). reflexivity.
  - rewrite IH. reflexivity.
Qed.

Lemma emit_table_set_widths (a b : option (list Z)) (o : AlignOptions)
  (data : list row) :
  emit_table (set_widths a o) data = emit_table (set_widths b o) data.
Proof.
  unfold emit_table. rewrite (emit_rows_set_widths a b). reflexivity.
Qed.

(** X21.  Configured widths of zero or less wrap nothing: [Align] with
    such widths does what it does without any. *)
Theorem Align_nonpositive_widths (e : Env) (data : list row)
  (opts : AlignOptions) (ws : list Z) :
  (forall w, In w ws -> w <= 0) ->
  Align e data (Some (set_widths (Some ws) opts))
  = Align e data (Some (set_widths None opts)).
Proof.
  intros Hws. unfold Align. destruct (length data =? 0)%nat; [reflexivity|].
  assert (Hp : forall acc,
             foldM (prepare_step e (set_widths (Some ws) opts)) data acc
             = foldM (prepare_step e (set_widths None opts)) data acc).
  { induction data as [|r rest IH]; intros acc; [reflexivity|].
    cbn [foldM].
    assert (Hs : prepare_step e (set_widths (Some ws) opts) acc r
                 = prepare_step e (set_widths None opts) acc r).
    { destruct r as [cells|]; [|reflexivity].
      cbn [prepare_step]. unfold wrap_row. cbn [Widths set_widths].
      rewrite (wrap_cells_nonpositive e ws cells Hws). reflexivity. }
    rewrite Hs.
    destruct (prepare_step e (set_widths None opts) acc r); cbn [bind];
      [apply IH|reflexivity|reflexivity]. }
  unfold prepare. rewrite Hp.
  destruct (foldM (prepare_step e (set_widths None opts)) data [])
    as [[|g grid]| |]; cbn [bind]; try reflexivity.
  rewrite (emit_table_set_widths (Some ws) None). reflexivity.
Qed.

Lemma Align_nonpositive_widths_witness :
  Align no_terminal [Some [bs "a b"; bs "c"]]
    (Some (set_widths (Some [0; -3]) NewSimpleAlignOptions))
  = Align no_terminal [Some [bs "a b"; bs "c"]]
      (Some (set_widths None NewSimpleAlignOptions)).
Proof.
  apply (Align_nonpositive_widths no_terminal [Some [bs "a b"; bs "c"]]
           NewSimpleAlignOptions [0; -3]).
  intros w [<-|[<-|[]]]; lia.
Defined.

(** ** The codepoints of the lines of the table *)

Lemma first_byte_range (c : N) (size : nat) (lo hi : N) :
  utf8.first_byte c = Some (size, (lo, hi)) ->
  (size = 2 \/ size = 3 \/ size = 4)%nat /\ (128 <= lo)%N /\ (hi <= 191)%N.
Proof.
  unfold utf8.first_byte. case_tests;
    intros H; inversion H; subst; repeat split; auto; lia.
Qed.

Lemma outside_narrow (lo hi : N) (c : ascii) :
  (128 <= lo)%N -> (hi <= 191)%N ->
  utf8.outside 128 191 c = true -> utf8.outside lo hi c = true.
Proof.
  unfold utf8.outside. intros Hlo Hhi H. apply orb_true_iff in H.
  apply orb_true_iff. destruct H as [H|H].
  - left. apply N.ltb_lt in H. apply N.ltb_lt. lia.
  - right. apply N.ltb_lt in H. apply N.ltb_lt. lia.
Qed.

(** What follows a string does not change how its first rune reads, if
    it does not start with a continuation byte. *)
Lemma rune_size_app (s t : bytes) :
  s <> [] -> starts_rune t = true ->
  utf8.rune_size (s ++ t) = utf8.rune_size s.
Proof.
  destruct t as [|d t]; [rewrite app_nil_r; reflexivity|].
  destruct s as [|c rest]; [congruence|]. intros _ Hd.
  cbn [starts_rune] in Hd.
  unfold utf8.rune_size. cbn [app].
  destruct (utf8.byte_val c <? 128)%N; [reflexivity|].
  destruct (utf8.first_byte (utf8.byte_val c)) as [[size [lo hi]]|] eqn:Ef;
    [|reflexivity].
  destruct (first_byte_range _ _ _ _ Ef) as [Hsize [Hlo Hhi]].
  pose proof (outside_narrow lo hi d Hlo Hhi Hd) as Hd1.
  destruct rest as [|c1 [|c2 [|c3 rest]]]; cbn [app length];
    destruct Hsize as [-> | [-> | ->]]; cbn [Nat.ltb Nat.leb Nat.eqb];
    rewrite ?Hd1, ?Hd; case_tests; reflexivity.
Qed.

Lemma rune_count_app (a b : bytes) :
  starts_rune b = true ->
  forall skip,
    (skip <= length a)%nat ->
    utf8.rune_count_from skip (a ++ b)
    = (utf8.rune_count_from skip a + utf8.rune_count_from 0 b)%nat.
Proof.
  intros Hb. induction a as [|c a IH]; intros skip Hskip.
  - cbn [length] in Hskip. replace skip with 0%nat by lia. reflexivity.
  - cbn [app utf8.rune_count_from]. destruct skip as [|k].
    + change (c :: a ++ b) with ((c :: a) ++ b).
      rewrite rune_size_app by (discriminate || exact Hb).
      pose proof (rune_size_le (c :: a)) as Hle.
      rewrite IH by (cbn [length] in Hle; lia). reflexivity.
    + apply IH. cbn [length] in Hskip. lia.
Qed.

(** Codepoints add up over a concatenation, if the second string does
    not start with a continuation byte. *)
Lemma RuneCount_app (a b : bytes) :
  starts_rune b = true ->
  utf8.RuneCountInString (a ++ b)
  = utf8.RuneCountInString a + utf8.RuneCountInString b.
Proof.
  intros Hb. unfold utf8.RuneCountInString.
  rewrite rune_count_app by (exact Hb || lia). lia.
Qed.

Lemma starts_rune_app (a b : bytes) :
  starts_rune a = true -> starts_rune b = true ->
  starts_rune (a ++ b) = true.
Proof.
  intros Ha Hb. destruct a; [exact Hb|exact Ha].
Qed.

Lemma starts_rune_spaces (n : Z) : starts_rune (spaces n) = true.
Proof.
  unfold spaces. destruct (Z.to_nat n); reflexivity.
Qed.

Lemma starts_rune_connector (second other : bytes) (col : nat) :
  starts_rune second = true -> starts_rune other = true ->
  starts_rune (connector second other col) = true.
Proof.
  intros H2 Ho. unfold connector.
  destruct (col =? 1)%nat; [exact H2|].
  destruct (negb (col =? 0)%nat); [exact Ho|reflexivity].
Qed.

Lemma starts_rune_emit_cell (opts : AlignOptions) (widths : list Z)
  (alignments : list Alignment) (n c : nat) (v : bytes) :
  starts_rune v = true ->
  starts_rune (emit_cell opts widths alignments n c v) = true.
Proof.
  intros Hv. unfold emit_cell.
  destruct (nth c alignments Left =? Right);
    [apply starts_rune_app; [apply starts_rune_spaces|exact Hv]|].
  destruct (nth c alignments Left =? Center).
  - apply starts_rune_app; [apply starts_rune_spaces|].
    apply starts_rune_app; [exact Hv|].
    destruct (LeaveTrailingWhitespace opts || (Z.of_nat c <? Z.of_nat n - 1));
      [apply starts_rune_spaces|reflexivity].
  - apply starts_rune_app; [exact Hv|].
    destruct (LeaveTrailingWhitespace opts || (Z.of_nat c <? Z.of_nat n - 1));
      [apply starts_rune_spaces|reflexivity].
Qed.

Lemma skipn_cons_nth {A : Type} (d : A) (l : list A) :
  forall c : nat,
    (c < length l)%nat -> skipn c l = nth c l d :: skipn (S c) l.
Proof.
  induction l as [|x l IH]; intros c Hc; [cbn [length] in Hc; lia|].
  destruct c as [|c]; [reflexivity|]. cbn [length] in Hc.
  cbn [skipn nth]. rewrite (IH c) by lia. reflexivity.
Qed.

Section RowRunes.

Variable opts : AlignOptions.
Variable widths : list Z.
Variable alignments : list Alignment.
Variable n : nat.

Hypothesis second_starts : starts_rune (RowSecondUD opts) = true.
Hypothesis other_starts : starts_rune (RowUD opts) = true.
Hypothesis trailing : LeaveTrailingWhitespace opts = true.

Lemma starts_rune_emit_cells (cells : list bytes) :
  (forall v, In v cells -> starts_rune v = true) ->
  forall c : nat,
    starts_rune (emit_cells opts widths alignments n c cells) = true.
Proof.
  induction cells as [|v rest IH]; intros Hcells c; [reflexivity|].
  cbn [emit_cells].
  apply starts_rune_app; [apply starts_rune_connector; assumption|].
  apply starts_rune_app.
  - apply starts_rune_emit_cell. apply Hcells. left. reflexivity.
  - apply IH. intros u Hu. apply Hcells. right. exact Hu.
Qed.

Lemma emit_cells_runes (cells : list bytes) :
  forall c : nat,
    (forall i v, nth_error cells i = Some v ->
                 starts_rune v = true
                 /\ utf8.RuneCountInString v <= nth (c + i) widths 0) ->
    (c + length cells = length widths)%nat ->
    utf8.RuneCountInString (emit_cells opts widths alignments n c cells)
    = cols_runes (RowSecondUD opts) (RowUD opts) 1 c (skipn c widths).
Proof.
  induction cells as [|v rest IH]; intros c Hcells Hlen.
  - cbn [length] in Hlen. rewrite skipn_all2 by lia. reflexivity.
  - cbn [length] in Hlen.
    destruct (Hcells 0%nat v eq_refl) as [Hv Hle].
    rewrite Nat.add_0_r in Hle.
    assert (Hrest : forall i u, nth_error rest i = Some u ->
                                starts_rune u = true
                                /\ utf8.RuneCountInString u
                                   <= nth (S c + i) widths 0).
    { intros i u Hu. replace (S c + i)%nat with (c + S i)%nat by lia.
      apply (Hcells (S i) u). exact Hu. }
    assert (Hclean : forall u, In u rest -> starts_rune u = true).
    { intros u Hu. apply In_nth_error in Hu. destruct Hu as [i Hi].
      apply (Hrest i u Hi). }
    assert (Hskip : skipn c widths = nth c widths 0 :: skipn (S c) widths)
      by (apply skipn_cons_nth; lia).
    cbn [emit_cells]. rewrite Hskip. cbn [cols_runes].
    rewrite RuneCount_app.
    2:{ apply starts_rune_app;
          [apply starts_rune_emit_cell; exact Hv
          |apply starts_rune_emit_cells; exact Hclean]. }
    rewrite RuneCount_app by (apply starts_rune_emit_cells; exact Hclean).
    rewrite emit_cell_width.
    + rewrite (IH (S c) Hrest) by lia. lia.
    + exact Hle.
    + unfold padded. rewrite trailing, orb_true_r. reflexivity.
Qed.

End RowRunes.

Lemma starts_rune_fill_run (fill : bytes) (width : Z) :
  starts_rune fill = true -> starts_rune (fill_run fill width) = true.
Proof.
  intros Hf. unfold fill_run. induction (Z.to_nat width) as [|k IH];
    [reflexivity|].
  cbn [repeat concat]. apply starts_rune_app; assumption.
Qed.

Lemma fill_run_runes (fill : bytes) (width : Z) :
  starts_rune fill = true -> 0 <= width ->
  utf8.RuneCountInString (fill_run fill width)
  = utf8.RuneCountInString fill * width.
Proof.
  intros Hf Hw. unfold fill_run.
  rewrite <- (Z2Nat.id width) at 2 by exact Hw.
  induction (Z.to_nat width) as [|k IH]; [cbn; lia|].
  cbn [repeat concat]. rewrite RuneCount_app.
  - rewrite IH. lia.
  - apply (starts_rune_fill_run fill (Z.of_nat k)) in Hf.
    unfold fill_run in Hf. rewrite Nat2Z.id in Hf. exact Hf.
Qed.

Lemma starts_rune_rule_cols (second other fill : bytes) (widths : list Z) :
  starts_rune second = true -> starts_rune other = true ->
  starts_rune fill = true ->
  forall col : nat,
    starts_rune (rule_cols second other fill col widths) = true.
Proof.
  intros H2 Ho Hf. induction widths as [|w rest IH]; intros col;
    [reflexivity|].
  cbn [rule_cols].
  apply starts_rune_app; [apply starts_rune_connector; assumption|].
  apply starts_rune_app; [apply starts_rune_fill_run; exact Hf|apply IH].
Qed.

Lemma rule_cols_runes (second other fill : bytes) (widths : list Z) :
  starts_rune second = true -> starts_rune other = true ->
  starts_rune fill = true ->
  (forall w, In w widths -> 0 <= w) ->
  forall col : nat,
    utf8.RuneCountInString (rule_cols second other fill col widths)
    = cols_runes second other (utf8.RuneCountInString fill) col widths.
Proof.
  intros H2 Ho Hf. induction widths as [|w rest IH]; intros Hws col;
    [reflexivity|].
  cbn [rule_cols cols_runes].
  rewrite RuneCount_app
    by (apply starts_rune_app;
        [apply starts_rune_fill_run; exact Hf
        |apply starts_rune_rule_cols; assumption]).
  rewrite RuneCount_app by (apply starts_rune_rule_cols; assumption).
  rewrite fill_run_runes by (auto; apply Hws; left; reflexivity).
  rewrite IH by (intros u Hu; apply Hws; right; exact Hu).
  lia.
Qed.

Lemma column_widths_nonneg (grid : list row) (w : Z) :
  In w (column_widths grid) -> 0 <= w.
Proof.
  intros Hin. apply In_nth_error in Hin. destruct Hin as [c E].
  rewrite column_widths_nth_error in E.
  destruct (column_cells c grid) as [|v rest]; [discriminate E|].
  injection E as <-.
  destruct (max_from_ge rest (Z.max (len v) (utf8.RuneCountInString v)))
    as [H _].
  unfold len in *. lia.
Qed.

(** X22.  The codepoints of the lines of the table.  A data row that
    reaches the last column is rendered, when trailing whitespace is
    kept, to the same number of codepoints whatever its cells hold:
    those of the glyph before the row, of the connector before each
    column after the first, the width of each column, and those of the
    glyph after the row, with the line feed.  A border or separator line
    has the codepoints of its first glyph, of its connectors, of its fill
    glyph once for each unit of each width, and of its last glyph.  This
    holds where no cell and no glyph put after another string starts
    with a UTF-8 continuation byte. *)
Theorem table_line_runes (opts : AlignOptions) (grid : list row) :
  (forall cells : list bytes,
      In (Some cells) grid ->
      length cells = length (column_widths grid) ->
      LeaveTrailingWhitespace opts = true ->
      starts_rune (RowSecondUD opts) = true ->
      starts_rune (RowUD opts) = true ->
      starts_rune (RowLastUD opts) = true ->
      (forall v, In v cells -> starts_rune v = true) ->
      utf8.RuneCountInString
        (emit_row opts (column_widths grid)
           (resolve_alignments (Alignments opts)
              (length (column_widths grid))) cells)
      = line_runes (RowFirstUD opts) (RowSecondUD opts) (RowUD opts)
          (RowLastUD opts) 1 (column_widths grid) + 1)
  /\ (forall first fill second other last line : bytes,
        rule first fill second other last (column_widths grid)
        = Some line ->
        starts_rune fill = true -> starts_rune second = true ->
        starts_rune other = true -> starts_rune last = true ->
        utf8.RuneCountInString line
        = line_runes first second other last
            (utf8.RuneCountInString fill) (column_widths grid)).
Proof.
  split.
  - intros cells Hin Hlen Htrail H2 Ho Hlast Hcells.
    unfold emit_row, line_runes.
    assert (Hclean : starts_rune (RowLastUD opts ++ [LF]) = true)
      by (apply starts_rune_app; [exact Hlast|reflexivity]).
    rewrite RuneCount_app.
    2:{ apply starts_rune_app; [|exact Hclean].
        apply starts_rune_emit_cells; assumption. }
    rewrite RuneCount_app by exact Hclean.
    rewrite RuneCount_app by reflexivity.
    rewrite (emit_cells_runes opts (column_widths grid) _ (length cells)
               H2 Ho Htrail cells 0%nat).
    + cbn [skipn]. change (utf8.RuneCountInString [LF]) with 1. lia.
    + intros i v Hv. split.
      * apply Hcells. apply (nth_error_In _ _ Hv).
      * apply (column_widths_ge grid cells i v Hin Hv).
    + exact Hlen.
  - intros first fill second other last line Hrule Hf H2 Ho Hlast.
    unfold rule in Hrule.
    destruct (negb (AllEqual [[]; first; second; other; fill; last]));
      [|discriminate Hrule].
    injection Hrule as <-. unfold line_runes.
    rewrite RuneCount_app.
    2:{ apply starts_rune_app; [|exact Hlast].
        apply starts_rune_rule_cols; assumption. }
    rewrite RuneCount_app by exact Hlast.
    rewrite rule_cols_runes;
      [lia|assumption|assumption|assumption|apply column_widths_nonneg].
Qed.

Lemma table_line_runes_witness :
  utf8.RuneCountInString
    (emit_row NewSimpleAlignOptions
       (column_widths [Some [bs "a"; bs "bcd"]; None; Some [bs "ef"; []]])
       (resolve_alignments (Alignments NewSimpleAlignOptions)
          (length (column_widths
                     [Some [bs "a"; bs "bcd"]; None; Some [bs "ef"; []]])))
       [bs "ef"; []])
  = line_runes (RowFirstUD NewSimpleAlignOptions)
      (RowSecondUD NewSimpleAlignOptions) (RowUD NewSimpleAlignOptions)
      (RowLastUD NewSimpleAlignOptions) 1
      (column_widths [Some [bs "a"; bs "bcd"]; None; Some [bs "ef"; []]])
    + 1.
Proof.
  apply (proj1 (table_line_runes NewSimpleAlignOptions
                  [Some [bs "a"; bs "bcd"]; None; Some [bs "ef"; []]])
           [bs "ef"; []]).
  - right. right. left. reflexivity.
  - reflexivity.
  - reflexivity.
  - reflexivity.
  - reflexivity.
  - reflexivity.
  - intros v [<-|[<-|[]]]; reflexivity.
Defined.

(** ** The lines of the table *)

Lemma emit_rows_lines (opts : AlignOptions) (widths : list Z)
  (alignments : list Alignment) (data : list row) :
  forall firstNil : bool,
    emit_rows opts widths alignments firstNil data
    = concat (map (fun l => l ++ [LF])
                (row_lines opts widths alignments firstNil data)).
Proof.
  induction data as [|r data IH]; intros firstNil; [reflexivity|].
  destruct r as [cells|]; cbn [emit_rows row_lines map concat].
  - rewrite IH. unfold emit_row. rewrite <- !app_assoc. reflexivity.
  - rewrite IH. rewrite <- !app_assoc. reflexivity.
Qed.

Lemma with_lf_lines (line : option bytes) :
  with_lf line = concat (map (fun l => l ++ [LF]) (rule_line line)).
Proof.
  destruct line as [l|]; cbn; [rewrite app_nil_r|]; reflexivity.
Qed.

Lemma emit_table_lines (opts : AlignOptions) (data : list row) :
  emit_table opts data
  = concat (map (fun l => l ++ [LF]) (table_lines opts data)).
Proof.
  unfold emit_table, table_lines.
  rewrite !map_app, !concat_app, emit_rows_lines, !with_lf_lines.
  reflexivity.
Qed.

Lemma row_lines_length (opts : AlignOptions) (widths : list Z)
  (alignments : list Alignment) (data : list row) :
  forall firstNil : bool,
    length (row_lines opts widths alignments firstNil data) = length data.
Proof.
  induction data as [|r data IH]; intros firstNil; [reflexivity|].
  destruct r as [cells|]; cbn [row_lines length]; rewrite IH; reflexivity.
Qed.

Lemma lines_single (l : bytes) : ~ In LF l -> lines l = [l].
Proof.
  intros Hlf. unfold lines, Split.
  rewrite <- (app_nil_r l) at 1.
  rewrite split_lines_run by exact Hlf.
  cbn [split_from]. rewrite app_nil_r, rev_involutive. reflexivity.
Qed.

(** Lines written one after the other, each with its line feed, are the
    lines of what is written, and an empty piece after the last. *)
Lemma lines_concat (ls : list bytes) :
  (forall l, In l ls -> ~ In LF l) ->
  lines (concat (map (fun l => l ++ [LF]) ls)) = ls ++ [[]].
Proof.
  induction ls as [|l ls IH]; intros Hls; [reflexivity|].
  cbn [map concat]. rewrite <- app_assoc. cbn [app].
  rewrite lines_app_LF, lines_single by (apply Hls; left; reflexivity).
  rewrite IH by (intros u Hu; apply Hls; right; exact Hu).
  reflexivity.
Qed.

Lemma fill_run_In (fill : bytes) (width : Z) (c : ascii) :
  In c (fill_run fill width) -> In c fill.
Proof.
  unfold fill_run. induction (Z.to_nat width) as [|k IH]; [intros []|].
  cbn [repeat concat]. intros H. apply in_app_or in H.
  destruct H as [H|H]; [exact H|apply IH; exact H].
Qed.

Lemma connector_In (second other : bytes) (col : nat) (c : ascii) :
  In c (connector second other col) -> In c second \/ In c other.
Proof.
  unfold connector. destruct (col =? 1)%nat; [auto|].
  destruct (negb (col =? 0)%nat); [auto|intros []].
Qed.

Lemma rule_cols_In (second other fill : bytes) (widths : list Z)
  (c : ascii) :
  forall col : nat,
    In c (rule_cols second other fill col widths) ->
    In c second \/ In c other \/ In c fill.
Proof.
  induction widths as [|w rest IH]; intros col H; [destruct H|].
  cbn [rule_cols] in H. apply in_app_or in H. destruct H as [H|H].
  - apply connector_In in H. tauto.
  - apply in_app_or in H. destruct H as [H|H].
    + apply fill_run_In in H. tauto.
    + apply (IH _ H).
Qed.

Lemma rule_In (first fill second other last : bytes) (widths : list Z)
  (c : ascii) :
  In c (written (rule first fill second other last widths)) ->
  In c first \/ In c fill \/ In c second \/ In c other \/ In c last.
Proof.
  unfold rule.
  destruct (negb (AllEqual [[]; first; second; other; fill; last]));
    cbn [written]; [|intros []].
  intros H. apply in_app_or in H. destruct H as [H|H]; [tauto|].
  apply in_app_or in H. destruct H as [H|H]; [|tauto].
  apply rule_cols_In in H. tauto.
Qed.

Lemma spaces_In (n : Z) (c : ascii) : In c (spaces n) -> c = SP.
Proof.
  unfold spaces. intros H. apply repeat_spec in H. exact H.
Qed.

Lemma emit_cell_In (opts : AlignOptions) (widths : list Z)
  (alignments : list Alignment) (n col : nat) (v : bytes) (c : ascii) :
  In c (emit_cell opts widths alignments n col v) -> c = SP \/ In c v.
Proof.
  unfold emit_cell.
  destruct (nth col alignments Left =? Right);
    [|destruct (nth col alignments Left =? Center)];
    destruct (LeaveTrailingWhitespace opts
              || (Z.of_nat col <? Z.of_nat n - 1));
    intros H;
    repeat (apply in_app_or in H; destruct H as [H|H]);
    try (apply spaces_In in H); try destruct H; auto.
Qed.

Lemma emit_cells_In (opts : AlignOptions) (widths : list Z)
  (alignments : list Alignment) (n : nat) (cells : list bytes) (c : ascii) :
  forall col : nat,
    In c (emit_cells opts widths alignments n col cells) ->
    c = SP \/ In c (RowSecondUD opts) \/ In c (RowUD opts)
    \/ exists v, In v cells /\ In c v.
Proof.
  induction cells as [|v rest IH]; intros col H; [destruct H|].
  cbn [emit_cells] in H. apply in_app_or in H. destruct H as [H|H].
  - apply connector_In in H. tauto.
  - apply in_app_or in H. destruct H as [H|H].
    + apply emit_cell_In in H. destruct H as [H|H]; [auto|].
      right. right. right. exists v. split; [left; reflexivity|exact H].
    + destruct (IH _ H) as [E|[E|[E|[u [Hu Hc]]]]]; auto.
      right. right. right. exists u. split; [right; exact Hu|exact Hc].
Qed.

Section TableLines.

Variable opts : AlignOptions.

Hypothesis glyphs_LF : forall g, In g (glyphs opts) -> ~ In LF g.

Lemma rule_no_LF (first fill second other last : bytes) (widths : list Z) :
  In first (glyphs opts) -> In fill (glyphs opts) ->
  In second (glyphs opts) -> In other (glyphs opts) ->
  In last (glyphs opts) ->
  ~ In LF (written (rule first fill second other last widths)).
Proof.
  intros H1 H2 H3 H4 H5 H. apply rule_In in H.
  destruct H as [H|[H|[H|[H|H]]]];
    [apply (glyphs_LF first)|apply (glyphs_LF fill)
    |apply (glyphs_LF second)|apply (glyphs_LF other)
    |apply (glyphs_LF last)]; assumption.
Qed.

Lemma row_lines_no_LF (widths : list Z) (alignments : list Alignment)
  (data : list row) :
  (forall cells v, In (Some cells) data -> In v cells -> ~ In LF v) ->
  forall (firstNil : bool) (l : bytes),
    In l (row_lines opts widths alignments firstNil data) -> ~ In LF l.
Proof.
  induction data as [|r data IH]; intros Hcells firstNil l Hl;
    [destruct Hl|].
  assert (Hrest : forall cells v,
             In (Some cells) data -> In v cells -> ~ In LF v)
    by (intros cells v Hc; apply Hcells; right; exact Hc).
  destruct r as [cells|]; cbn [row_lines] in Hl;
    destruct Hl as [<-|Hl]; try (apply (IH Hrest _ _ Hl)).
  - intros H. apply in_app_or in H. destruct H as [H|H].
    { apply (glyphs_LF (RowFirstUD opts)); [|exact H].
      unfold glyphs. simpl. tauto. }
    apply in_app_or in H. destruct H as [H|H].
    2:{ apply (glyphs_LF (RowLastUD opts)); [|exact H].
        unfold glyphs. simpl. tauto. }
    apply emit_cells_In in H.
    destruct H as [E|[H|[H|[v [Hv Hc]]]]].
    + discriminate E.
    + apply (glyphs_LF (RowSecondUD opts)); [|exact H].
      unfold glyphs. simpl. tauto.
    + apply (glyphs_LF (RowUD opts)); [|exact H].
      unfold glyphs. simpl. tauto.
    + apply (Hcells cells v); [left; reflexivity|exact Hv|exact Hc].
  - destruct firstNil; apply rule_no_LF; unfold glyphs; simpl; tauto.
Qed.

Lemma table_lines_no_LF (data : list row) :
  (forall cells v, In (Some cells) data -> In v cells -> ~ In LF v) ->
  forall l, In l (table_lines opts data) -> ~ In LF l.
Proof.
  intros Hcells l Hl. unfold table_lines in Hl.
  assert (Hrule : forall first fill second other last widths,
             In first (glyphs opts) -> In fill (glyphs opts) ->
             In second (glyphs opts) -> In other (glyphs opts) ->
             In last (glyphs opts) ->
             In l (rule_line (rule first fill second other last widths)) ->
             ~ In LF l).
  { intros first fill second other last widths H1 H2 H3 H4 H5 Hin.
    pose proof (rule_no_LF first fill second other last widths
                  H1 H2 H3 H4 H5) as Hno.
    destruct (rule first fill second other last widths);
      [|destruct Hin].
    destruct Hin as [<-|[]]. exact Hno. }
  apply in_app_or in Hl. destruct Hl as [Hl|Hl].
  { apply Hrule in Hl; [exact Hl| | | | |]; unfold glyphs; simpl; tauto. }
  apply in_app_or in Hl. destruct Hl as [Hl|Hl].
  { apply (row_lines_no_LF _ _ data Hcells _ _ Hl). }
  apply Hrule in Hl; [exact Hl| | | | |]; unfold glyphs; simpl; tauto.
Qed.

End TableLines.

(** X23.  What [Align] returns is the lines of the table, each followed
    by a line feed: the top border if it has a glyph, one line for every
    row of the grid (an empty line for a nil row whose separator has no
    glyph), and the bottom border if it has a glyph.  When no glyph holds
    a line feed, these are the lines of the string returned, and an empty
    piece after the last line feed. *)
Theorem Align_lines (e : Env) (data : list row) (opts : AlignOptions)
  (grid : list row) :
  prepare e opts data = Ok grid ->
  grid <> [] ->
  Align e data (Some opts)
  = Ok (concat (map (fun l => l ++ [LF]) (table_lines opts grid)))
  /\ length (table_lines opts grid)
     = (length (rule_line (rule (FirstDR opts) (FirstLR opts)
                             (FirstFirstDLR opts) (FirstDLR opts)
                             (FirstDL opts) (column_widths grid)))
        + length grid
        + length (rule_line (rule (LastUR opts) (LastLR opts)
                               (LastFirstULR opts) (LastULR opts)
                               (LastUL opts) (column_widths grid))))%nat
  /\ ((forall g, In g (glyphs opts) -> ~ In LF g) ->
      lines (emit_table opts grid) = table_lines opts grid ++ [[]]).
Proof.
  intros Hp Hgrid. split; [|split].
  - unfold Align. destruct data as [|r data].
    + rewrite prepare_nil in Hp. injection Hp as <-. congruence.
    + cbn [length Nat.eqb]. rewrite Hp. cbn [bind].
      destruct grid; [congruence|]. rewrite emit_table_lines. reflexivity.
  - unfold table_lines. rewrite !length_app, row_lines_length. lia.
  - intros Hglyphs. rewrite emit_table_lines. apply lines_concat.
    apply table_lines_no_LF; [exact Hglyphs|].
    intros cells v Hc Hv.
    apply (prepare_rows_from e opts data
             (fun prow => forall v, In v prow -> ~ In LF v)
             (fun _ _ _ _ Hlf => Hlf) [] grid
             (fun _ (H : In _ []) => match H with end) Hp cells Hc v Hv).
Qed.

Lemma Align_lines_witness :
  Align no_terminal [Some [bs "a"; bs "bcd"]; None; Some [bs "ef"]]
    (Some NewSimpleAlignOptions)
  = Ok (concat (map (fun l => l ++ [LF])
                  (table_lines NewSimpleAlignOptions
                     [Some [bs "a"; bs "bcd"]; None; Some [bs "ef"]]))).
Proof.
  apply (proj1 (Align_lines no_terminal
                  [Some [bs "a"; bs "bcd"]; None; Some [bs "ef"]]
                  NewSimpleAlignOptions
                  [Some [bs "a"; bs "bcd"]; None; Some [bs "ef"]]
                  eq_refl ltac:(discriminate))).
Defined.

(** ** Tables that are rectangles *)

Lemma cols_runes_ext (second other second' other' : bytes) (unit : Z)
  (widths : list Z) :
  utf8.RuneCountInString second = utf8.RuneCountInString second' ->
  utf8.RuneCountInString other = utf8.RuneCountInString other' ->
  forall col : nat,
    cols_runes second other unit col widths
    = cols_runes second' other' unit col widths.
Proof.
  intros H2 Ho. induction widths as [|w rest IH]; intros col;
    [reflexivity|].
  cbn [cols_runes]. rewrite IH. f_equal. f_equal. unfold connector.
  destruct (col =? 1)%nat; [exact H2|].
  destruct (negb (col =? 0)%nat); [exact Ho|reflexivity].
Qed.

Section Rectangle.

Variable opts : AlignOptions.
Variable grid : list row.

Hypothesis options_fit : rectangular_options opts = true.
Hypothesis rows_full :
  forall cells,
    In (Some cells) grid ->
    length cells = length (column_widths grid)
    /\ forall v, In v cells -> starts_rune v = true.

Let row_runes : Z :=
  line_runes (RowFirstUD opts) (RowSecondUD opts) (RowUD opts)
    (RowLastUD opts) 1 (column_widths grid).

Lemma rule_rectangular (first fill second other last : bytes) :
  rule_fits opts first fill second other last = true ->
  written (rule first fill second other last (column_widths grid)) = []
  \/ utf8.RuneCountInString
       (written (rule first fill second other last (column_widths grid)))
     = row_runes.
Proof.
  unfold rule_fits, rule. intros Hfit.
  destruct (AllEqual [[]; first; second; other; fill; last]);
    cbn [negb written]; [left; reflexivity|right].
  cbn [orb] in Hfit.
  repeat (apply andb_prop in Hfit; destruct Hfit as [Hfit ?]).
  repeat match goal with
         | H : (_ =? _) = true |- _ => apply Z.eqb_eq in H
         end.
  rewrite RuneCount_app
    by (apply starts_rune_app;
        [apply starts_rune_rule_cols; assumption|assumption]).
  rewrite RuneCount_app by assumption.
  rewrite rule_cols_runes;
    [|assumption|assumption|assumption|apply column_widths_nonneg].
  unfold row_runes, line_runes.
  rewrite (cols_runes_ext second other (RowSecondUD opts) (RowUD opts))
    by assumption.
  replace (utf8.RuneCountInString fill) with 1 by lia. lia.
Qed.

Lemma row_lines_rectangular (data : list row) :
  (forall cells, In (Some cells) data -> In (Some cells) grid) ->
  forall (firstNil : bool) (line : bytes),
    In line
      (row_lines opts (column_widths grid)
         (resolve_alignments (Alignments opts)
            (length (column_widths grid))) firstNil data) ->
    line = [] \/ utf8.RuneCountInString line = row_runes.
Proof.
  pose proof options_fit as Hfit. unfold rectangular_options in Hfit.
  repeat (apply andb_prop in Hfit; destruct Hfit as [Hfit ?]).
  induction data as [|r data IH]; intros Hsub firstNil line Hl;
    [destruct Hl|].
  assert (Hrest : forall cells, In (Some cells) data -> In (Some cells) grid)
    by (intros cells Hc; apply Hsub; right; exact Hc).
  destruct r as [cells|]; cbn [row_lines] in Hl;
    destruct Hl as [<-|Hl]; try (apply (IH Hrest _ _ Hl)).
  - right. destruct (rows_full cells (Hsub cells (or_introl eq_refl)))
      as [Hlen Hclean].
    rewrite RuneCount_app
      by (apply starts_rune_app;
          [apply starts_rune_emit_cells; assumption|assumption]).
    rewrite RuneCount_app by assumption.
    rewrite (emit_cells_runes opts (column_widths grid) _ (length cells))
      with (c := 0%nat); try assumption.
    + unfold row_runes, line_runes. cbn [skipn]. lia.
    + intros i v Hv. split.
      * apply Hclean. apply (nth_error_In _ _ Hv).
      * apply (column_widths_ge grid cells i v
                 (Hsub cells (or_introl eq_refl)) Hv).
  - destruct firstNil; apply rule_rectangular; assumption.
Qed.

End Rectangle.

(** X24.  The table is a rectangle, when no string put after another
    starts with a UTF-8 continuation byte (0x80 to 0xBF).  Under options
    that keep trailing whitespace, whose connectors RowSecondUD, RowUD
    and RowLastUD start with no continuation byte, and whose border and
    separator lines each have no glyph at all or have glyphs with as
    many codepoints as the glyphs of a data row (the first as
    RowFirstUD, the second as RowSecondUD, the others as RowUD, the last
    as RowLastUD), with a fill glyph of one codepoint, none of the
    glyphs after the first starting with a continuation byte; and for a
    grid whose data rows all have a cell for every column, no cell
    starting with a continuation byte: every line of the table has the
    same number of codepoints, but for the empty line of a nil row
    whose separator has no glyph.  The simple, the boxed and the
    Unicode boxed options are of that kind. *)
Theorem table_rectangular (opts : AlignOptions) (grid : list row)
  (line : bytes) :
  rectangular_options opts = true ->
  (forall cells,
      In (Some cells) grid ->
      length cells = length (column_widths grid)
      /\ forall v, In v cells -> starts_rune v = true) ->
  In line (table_lines opts grid) ->
  (line = []
   \/ utf8.RuneCountInString line
      = line_runes (RowFirstUD opts) (RowSecondUD opts) (RowUD opts)
          (RowLastUD opts) 1 (column_widths grid))
  /\ rectangular_options NewSimpleAlignOptions = true
  /\ rectangular_options NewBoxedAlignOptions = true
  /\ rectangular_options NewUnicodeBoxedAlignOptions = true.
Proof.
  intros Hfit Hrows Hline.
  split; [|split; [|split]; vm_compute; reflexivity].
  pose proof Hfit as Hf. unfold rectangular_options in Hf.
  repeat (apply andb_prop in Hf; destruct Hf as [Hf ?]).
  unfold table_lines in Hline.
  assert (Hrule : forall first fill second other last,
             rule_fits opts first fill second other last = true ->
             In line (rule_line (rule first fill second other last
                                   (column_widths grid))) ->
             line = []
             \/ utf8.RuneCountInString line
                = line_runes (RowFirstUD opts) (RowSecondUD opts)
                    (RowUD opts) (RowLastUD opts) 1 (column_widths grid)).
  { intros first fill second other last Hr Hin.
    pose proof (rule_rectangular opts grid first fill second other last Hr)
      as Hw.
    destruct (rule first fill second other last (column_widths grid));
      [|destruct Hin].
    destruct Hin as [<-|[]]. exact Hw. }
  apply in_app_or in Hline. destruct Hline as [Hl|Hl];
    [apply Hrule in Hl; assumption|].
  apply in_app_or in Hl. destruct Hl as [Hl|Hl];
    [|apply Hrule in Hl; assumption].
  apply (row_lines_rectangular opts grid Hfit Hrows grid (fun _ H => H)
           _ _ Hl).
Qed.

Lemma table_rectangular_witness :
  (bs "| ef |     |" = []
   \/ utf8.RuneCountInString (bs "| ef |     |")
      = line_runes (RowFirstUD NewBoxedAlignOptions)
          (RowSecondUD NewBoxedAlignOptions) (RowUD NewBoxedAlignOptions)
          (RowLastUD NewBoxedAlignOptions) 1
          (column_widths [Some [bs "a"; bs "bcd"]; None; Some [bs "ef"; []]]))
  /\ rectangular_options NewSimpleAlignOptions = true
  /\ rectangular_options NewBoxedAlignOptions = true
  /\ rectangular_options NewUnicodeBoxedAlignOptions = true.
Proof.
  apply (table_rectangular NewBoxedAlignOptions
           [Some [bs "a"; bs "bcd"]; None; Some [bs "ef"; []]]
           (bs "| ef |     |")).
  - reflexivity.
  - intros cells [E|[E|[E|[]]]]; try discriminate E; injection E as <-;
      (split; [reflexivity|]);
      intros v Hv; simpl in Hv;
      repeat (destruct Hv as [<-|Hv]; [reflexivity|]); destruct Hv.
  - vm_compute. tauto.
Defined.

(** The table in the comment of [NewUnicodeBoxedAlignOptions]. *)
Example unicode_table (e : Env) :
  let g (cp : Z) := u (Z.to_N cp) in
  let run (cp n : Z) := concat (repeat (g cp) (Z.to_nat n)) in
  let border (first second other last fill : Z) :=
    g first ++ run fill 10 ++ g second ++ run fill 13 ++ g other
    ++ run fill 8 ++ g other ++ run fill 10 ++ g last ++ [LF] in
  let line (a b c d : bytes) :=
    g 0x2551 ++ a ++ g 0x2551 ++ b ++ g 0x2502 ++ c ++ g 0x2502
    ++ d ++ g 0x2551 ++ [LF] in
  Align e
    [Some [[]; bs "Bob"; bs "Sue"; bs "John"];
     Some [bs "Hometown"; bs "San Antonio"; bs "Austin"; bs "New York"];
     Some [bs "Mother"; bs "Bessie"; bs "Mary"; bs "Sarah"];
     Some [bs "Father"; bs "Rick"; bs "Dan"; bs "Mike"]]
    (Some NewUnicodeBoxedAlignOptions)
  = Ok (border 0x2554 0x2566 0x2564 0x2557 0x2550
        ++ line (bs "          ") (bs " Bob         ") (bs " Sue    ")
             (bs " John     ")
        ++ border 0x2560 0x256c 0x256a 0x2563 0x2550
        ++ line (bs " Hometown ") (bs " San Antonio ") (bs " Austin ")
             (bs " New York ")
        ++ border 0x255f 0x256b 0x253c 0x2562 0x2500
        ++ line (bs " Mother   ") (bs " Bessie      ") (bs " Mary   ")
             (bs " Sarah    ")
        ++ border 0x255f 0x256b 0x253c 0x2562 0x2500
        ++ line (bs " Father   ") (bs " Rick        ") (bs " Dan    ")
             (bs " Mike     ")
        ++ border 0x255a 0x2569 0x2567 0x255d 0x2550).
Proof. vm_compute. reflexivity. Qed.

(** ** Columns with a configured width *)

Lemma Replace_without_CR (s : bytes) :
  ~ In CR s -> Replace s [CR; LF] [LF] = s.
Proof.
  unfold Replace. induction s as [|b s IH]; intros Hcr; [reflexivity|].
  cbn [replace_from].
  destruct (has_prefix [CR; LF] (b :: s)) eqn:Ep.
  - exfalso. cbn [has_prefix] in Ep.
    destruct (ascii_dec CR b) as [<-|]; [|discriminate Ep].
    apply Hcr. left. reflexivity.
  - f_equal. apply IH. intros H. apply Hcr. right. exact H.
Qed.

(** What [wrap_cells] leaves in each place: the cell, or the cell
    wrapped to the width of its column. *)
Lemma wrap_cells_nth_error (e : Env) (ws : list Z) (cells : list bytes) :
  forall (col : nat) (r : list bytes),
    wrap_cells e ws col cells = Ok r ->
    forall k v',
      nth_error r k = Some v' ->
      exists v,
        nth_error cells k = Some v
        /\ (if (length ws <=? col + k)%nat || (nth (col + k) ws 0 <=? 0)
            then v' = v
            else Wrap e v (nth (col + k) ws 0) [] [] = Ok v').
Proof.
  induction cells as [|cell rest IH]; intros col r Hr k v' Hk.
  - cbn [wrap_cells] in Hr. injection Hr as <-. destruct k; discriminate Hk.
  - cbn [wrap_cells] in Hr.
    destruct (if (length ws <=? col)%nat || (nth col ws 0 <=? 0)
              then Ok cell else Wrap e cell (nth col ws 0) [] [])
      as [c'| |] eqn:Ec; cbn [bind] in Hr; try discriminate Hr.
    destruct (wrap_cells e ws (S col) rest) as [r'| |] eqn:Er;
      cbn [bind] in Hr; try discriminate Hr.
    injection Hr as <-. destruct k as [|k].
    + cbn [nth_error] in Hk. injection Hk as <-. exists cell.
      split; [reflexivity|]. rewrite Nat.add_0_r.
      destruct ((length ws <=? col)%nat || (nth col ws 0 <=? 0));
        [injection Ec as <-; reflexivity|exact Ec].
    + cbn [nth_error] in Hk.
      destruct (IH (S col) r' Er k v' Hk) as [v [Hv Hw]].
      exists v. split; [exact Hv|].
      replace (col + S k)%nat with (S col + k)%nat by lia. exact Hw.
Qed.

Lemma expand_row_nth_error (cells : list bytes) (prow : list bytes)
  (c : nat) (x : bytes) :
  In prow (expand_row cells) -> nth_error prow c = Some x ->
  exists v, nth_error cells c = Some v /\ (x = [] \/ In x (cell_lines v)).
Proof.
  unfold expand_row. intros Hin Hx. apply in_map_iff in Hin.
  destruct Hin as [k [<- _]]. unfold physical_row, split_cells in Hx.
  rewrite map_map, nth_error_map in Hx.
  destruct (nth_error cells c) as [v|]; [|discriminate Hx].
  cbn [option_map] in Hx. injection Hx as <-. exists v.
  split; [reflexivity|].
  match goal with
  | |- context [(k <? ?n)%nat] =>
      destruct (Nat.ltb_spec k n) as [Hk|Hk]; [right|left; reflexivity]
  end.
  apply nth_In. exact Hk.
Qed.

Lemma column_cells_source (data : list row) (c : nat) (v : bytes) :
  In v (column_cells c data) ->
  exists cells, In (Some cells) data /\ nth_error cells c = Some v.
Proof.
  induction data as [|r data IH]; intros Hin; [destruct Hin|].
  assert (Hrest : In v (column_cells c data) ->
                  exists cells,
                    In (Some cells) (r :: data)
                    /\ nth_error cells c = Some v).
  { intros H. destruct (IH H) as [cells [Hc Hv]]. exists cells.
    split; [right; exact Hc|exact Hv]. }
  destruct r as [cells|]; cbn [column_cells] in Hin; [|auto].
  destruct (nth_error cells c) as [u|] eqn:Eu; [|auto].
  destruct Hin as [<-|Hin]; [|auto].
  exists cells. split; [left; reflexivity|exact Eu].
Qed.

Lemma max_from_le (cells : list bytes) (w : Z) :
  (forall v, In v cells -> utf8.RuneCountInString v <= w) ->
  forall x, x <= w -> max_from x cells <= w.
Proof.
  unfold max_from. induction cells as [|v rest IH]; intros Hcells x Hx;
    cbn [fold_left]; [exact Hx|].
  apply IH; [intros u Hu; apply Hcells; right; exact Hu|].
  pose proof (Hcells v (or_introl eq_refl)). lia.
Qed.

(** X25.  A configured width bounds its column when no word is longer:
    if column [c] has the positive configured width [w], and the cells of
    the caller in that column hold no CR and no ESC and no word of more
    than [w] bytes, then in the grid [Align] builds no cell of the column
    has more than [w] bytes, and the width of the column is at most
    [w]. *)
Theorem configured_width_bounds_column (e : Env) (opts : AlignOptions)
  (data grid : list row) (ws : list Z) (c : nat) :
  Widths opts = Some ws ->
  0 < nth c ws 0 ->
  (forall cells v,
      In (Some cells) data -> nth_error cells c = Some v ->
      ~ In CR v
      /\ forall word, In word (text_words v) ->
                      ~ In ESC word /\ len word <= nth c ws 0) ->
  prepare e opts data = Ok grid ->
  (forall prow x,
      In (Some prow) grid -> nth_error prow c = Some x ->
      len x <= nth c ws 0)
  /\ (forall x, nth_error (column_widths grid) c = Some x ->
                x <= nth c ws 0).
Proof.
  intros Hws Hpos Hcol Hp.
  assert (Hcells : forall prow x,
             In (Some prow) grid -> nth_error prow c = Some x ->
             len x <= nth c ws 0).
  { intros prow x Hin. revert x.
    apply (prepare_rows_wrapped e opts data
             (fun prow => forall x, nth_error prow c = Some x ->
                                    len x <= nth c ws 0)) with (acc := [])
                                                                (grid := grid);
      [|intros p []|exact Hp|exact Hin].
    clear prow Hin. intros src wrapped prow Hsrc Hw Hprow x Hx.
    destruct (expand_row_nth_error wrapped prow c x Hprow Hx)
      as [v' [Hv' Hline]].
    destruct Hline as [->|Hline]; [unfold len; cbn [length]; lia|].
    unfold wrap_row in Hw. rewrite Hws in Hw.
    destruct (wrap_cells_nth_error e ws src 0 wrapped Hw c v' Hv')
      as [v [Hv Hwrap]].
    cbn [Nat.add] in Hwrap.
    assert (Hskip : (length ws <=? c)%nat || (nth c ws 0 <=? 0) = false).
    { apply orb_false_intro; [|apply Z.leb_gt; exact Hpos].
      apply Nat.leb_gt. destruct (Nat.lt_ge_cases c (length ws)) as [H|H];
        [exact H|]. rewrite nth_overflow in Hpos by exact H. lia. }
    rewrite Hskip in Hwrap.
    destruct (Hcol src v Hsrc Hv) as [Hcr Hwords].
    assert (Heff : effective_width e (nth c ws 0) = nth c ws 0).
    { unfold effective_width.
      destruct (Z.ltb_spec (nth c ws 0) 1); [lia|reflexivity]. }
    destruct (Wrap_lines_short e v (nth c ws 0) [] []) as [out [Hout [_ Hshort]]].
    { rewrite Heff. lia. }
    { intros []. } { intros []. } { intros []. } { intros []. }
    { intros word Hword. destruct (Hwords word Hword) as [Hesc Hlen].
      rewrite Heff. split; [apply escapes_closed_plain; exact Hesc|].
      unfold strip_escapes. rewrite (strip_from_plain word Hesc).
      unfold len at 1 3. cbn [length]. lia. }
    rewrite Hout in Hwrap. injection Hwrap as <-.
    assert (Hnocr : ~ In CR out).
    { intros H. rewrite (Wrap_Ok_fill_text _ _ _ _ _ _ Hout) in H.
      apply TrimLF_In, fill_text_In in H.
      destruct H as [E|[E|[[]|[[]|[word [Hword Hc]]]]]];
        [discriminate E|discriminate E|].
      unfold text_words in Hword.
      rewrite (Replace_without_CR v Hcr) in Hword.
      apply Hcr. unfold words in Hword.
      clear - Hword Hc. revert Hword.
      assert (Hgen : forall s cur,
                 In word (fields_from cur s) ->
                 In CR cur \/ In CR s).
      { induction s as [|b s IH]; intros cur H; cbn [fields_from] in H.
        - destruct cur as [|x cur]; [destruct H|].
          destruct H as [<-|[]]. left. apply in_rev. exact Hc.
        - destruct (is_delim b).
          + apply in_app_or in H. destruct H as [H|H].
            * destruct cur as [|x cur]; [destruct H|].
              destruct H as [<-|[]]. left. apply in_rev. exact Hc.
            * destruct (IH [] H) as [[]|H']. right. right. exact H'.
          + destruct (IH _ H) as [[<-|H']|H'].
            * right. left. reflexivity.
            * left. exact H'.
            * right. right. exact H'. }
      intros H. destruct (Hgen v [] H) as [[]|H']. exact H'. }
    unfold cell_lines in Hline. rewrite (Replace_without_CR out Hnocr) in Hline.
    rewrite <- Heff. apply Hshort; [|exact Hline].
    intros word Hword. apply (Hwords word Hword). }
  split; [exact Hcells|].
  intros x Hx. rewrite column_widths_nth_error in Hx.
  destruct (column_cells c grid) as [|u rest] eqn:Ecol; [discriminate Hx|].
  injection Hx as <-.
  assert (Hall : forall v, In v (u :: rest) -> len v <= nth c ws 0).
  { intros v Hv. rewrite <- Ecol in Hv.
    destruct (column_cells_source grid c v Hv) as [cells [Hc Hnth]].
    apply (Hcells cells v Hc Hnth). }
  apply max_from_le.
  - intros v Hv. pose proof (RuneCount_le_len v).
    pose proof (Hall v (or_intror Hv)). lia.
  - pose proof (RuneCount_le_len u).
    pose proof (Hall u (or_introl eq_refl)). lia.
Qed.

Lemma configured_width_bounds_column_witness :
  (forall prow x,
      In (Some prow) [Some [bs "ab cd"]; Some [bs "ef"]] ->
      nth_error prow 0 = Some x ->
      len x <= nth 0 [5] 0)
  /\ (forall x,
        nth_error (column_widths [Some [bs "ab cd"]; Some [bs "ef"]]) 0
        = Some x ->
        x <= nth 0 [5] 0).
Proof.
  apply (configured_width_bounds_column no_terminal
           (set_widths (Some [5]) NewSimpleAlignOptions)
           [Some [bs "ab cd ef"]] [Some [bs "ab cd"]; Some [bs "ef"]]
           [5] 0).
  - reflexivity.
  - simpl. lia.
  - intros cells v [E|[]] Hv. injection E as <-. simpl in Hv.
    injection Hv as <-. split.
    + simpl. intros H.
      repeat (destruct H as [H|H]; [discriminate H|]). exact H.
    + intros word Hword. vm_compute in Hword.
      destruct Hword as [<-|[<-|[<-|[]]]];
        (split;
         [simpl; intros H;
          repeat (destruct H as [H|H]; [discriminate H|]); exact H
         |vm_compute; discriminate]).
  - vm_compute. reflexivity.
Defined.

(** ** Wrapping what has been wrapped *)

Lemma split_piece (p : bytes) :
  no_blank p = true ->
  forall cur rest : bytes,
    split_from [LF; LF] 0 cur (p ++ LF :: LF :: rest)
    = (rev cur ++ p) :: split_from [LF; LF] 0 [] rest.
Proof.
  induction p as [|x r IH]; intros Hp cur rest.
  - cbn [app split_from has_prefix].
    destruct (ascii_dec LF LF) as [_|N]; [|congruence].
    cbn [length Nat.sub split_from]. rewrite app_nil_r. reflexivity.
  - cbn [no_blank] in Hp. cbn [app split_from].
    assert (Hpre : has_prefix [LF; LF] (x :: r ++ LF :: LF :: rest) = false).
    { cbn [has_prefix]. destruct (ascii_dec LF x) as [<-|Hx]; [|reflexivity].
      destruct (ascii_dec LF LF) as [_|N]; [|congruence].
      destruct r as [|y r']; [discriminate Hp|]. cbn [app].
      destruct (ascii_dec LF y) as [<-|Hy]; [|reflexivity].
      destruct (ascii_dec LF LF) as [_|N]; [|congruence].
      discriminate Hp. }
    rewrite Hpre. rewrite IH.
    + cbn [rev]. rewrite <- app_assoc. reflexivity.
    + destruct r as [|y r']; [reflexivity|].
      apply andb_prop in Hp. apply Hp.
Qed.

Lemma split_last_piece (p : bytes) :
  no_blank p = true ->
  forall cur : bytes, split_from [LF; LF] 0 cur p = [rev cur ++ p].
Proof.
  induction p as [|x r IH]; intros Hp cur.
  - cbn [split_from]. rewrite app_nil_r. reflexivity.
  - cbn [no_blank] in Hp. cbn [split_from].
    assert (Hpre : has_prefix [LF; LF] (x :: r) = false).
    { cbn [has_prefix]. destruct (ascii_dec LF x) as [<-|Hx]; [|reflexivity].
      destruct (ascii_dec LF LF) as [_|N]; [|congruence].
      destruct r as [|y r']; [reflexivity|].
      destruct (ascii_dec LF y) as [<-|Hy]; [|reflexivity].
      destruct (ascii_dec LF LF) as [_|N]; [|congruence].
      discriminate Hp. }
    rewrite Hpre. rewrite IH.
    + cbn [rev]. rewrite <- app_assoc. reflexivity.
    + destruct r as [|y r']; [reflexivity|].
      apply andb_prop in Hp. apply Hp.
Qed.

(** Splitting at blank lines what was joined with blank lines gives the
    pieces back, when no piece has a blank line or ends with a line
    feed. *)
Lemma Split_Join_pieces (l : list bytes) :
  l <> [] -> (forall p, In p l -> no_blank p = true) ->
  Split (Join l [LF; LF]) [LF; LF] = l.
Proof.
  unfold Split. induction l as [|p l IH]; intros Hne Hl; [congruence|].
  destruct l as [|q l].
  - cbn [Join]. rewrite split_last_piece by (apply Hl; left; reflexivity).
    reflexivity.
  - rewrite Join_cons by discriminate. cbn [app].
    rewrite split_piece by (apply Hl; left; reflexivity).
    cbn [rev app]. f_equal. apply IH; [discriminate|].
    intros u Hu. apply Hl. right. exact Hu.
Qed.

Lemma no_blank_app (x y : bytes) :
  ~ In LF x -> no_blank y = true -> no_blank (x ++ y) = true.
Proof.
  intros Hx Hy. induction x as [|a x IH]; [exact Hy|].
  assert (Ha : a <> LF) by (intros ->; apply Hx; left; reflexivity).
  assert (Hrest : no_blank (x ++ y) = true)
    by (apply IH; intros H; apply Hx; right; exact H).
  cbn [app no_blank]. destruct (x ++ y) as [|b r] eqn:E.
  - destruct (ascii_dec a LF); [congruence|reflexivity].
  - destruct (ascii_dec a LF); [congruence|]. exact Hrest.
Qed.

Lemma no_blank_last (p : bytes) (x : ascii) :
  no_blank (p ++ [x]) = true -> x <> LF.
Proof.
  induction p as [|a p IH]; cbn [app no_blank].
  - destruct (ascii_dec x LF); [discriminate|auto].
  - destruct (p ++ [x]) as [|b r] eqn:E; [destruct p; discriminate E|].
    intros H. apply andb_prop in H. apply IH, H.
Qed.

Section Rewrap.

Variable width : Z.
Variables indent1 indent2 : bytes.

Hypothesis indent1_no_LF : ~ In LF indent1.
Hypothesis indent2_no_LF : ~ In LF indent2.

Let word (w : bytes) : Prop := w <> [] /\ ~ In LF w.

Let clean (p : bytes) : Prop :=
  no_blank p = true /\ forall rest, p <> LF :: rest.

Lemma indent_no_LF (indent : bytes) :
  (forall c, In c indent -> c = SP) -> ~ In LF indent.
Proof.
  intros H Hin. apply H in Hin. discriminate Hin.
Qed.

Lemma no_blank_fill (ws : list bytes) :
  (forall w, In w ws -> word w) ->
  forall l : Z, no_blank (fill width indent2 l ws) = true.
Proof.
  induction ws as [|w ws IH]; intros Hws l; [reflexivity|].
  destruct (Hws w (or_introl eq_refl)) as [Hne Hlf].
  assert (Hrest : forall u, In u ws -> word u)
    by (intros u Hu; apply Hws; right; exact Hu).
  cbn [fill]. destruct (l + 1 + vlen w >? width).
  - assert (Hz : no_blank (indent2 ++ w
                           ++ fill width indent2 (len indent2 + vlen w) ws)
                 = true).
    { rewrite app_assoc. apply no_blank_app; [|apply IH; exact Hrest].
      intros H. apply in_app_or in H.
      destruct H as [H|H]; [exact (indent2_no_LF H)|auto]. }
    cbn [app no_blank].
    destruct (indent2 ++ w ++ fill width indent2 (len indent2 + vlen w) ws)
      as [|y r] eqn:E.
    { exfalso. destruct indent2; [destruct w; [congruence|discriminate E]
                                 |discriminate E]. }
    destruct (ascii_dec LF LF) as [_|N]; [|congruence].
    destruct (ascii_dec y LF) as [->|_]; [|exact Hz].
    exfalso. destruct indent2 as [|s i2].
    + destruct w as [|b w]; [congruence|]. cbn [app] in E.
      injection E as -> _. apply Hlf. left. reflexivity.
    + cbn [app] in E. injection E as -> _.
      apply indent2_no_LF. left. reflexivity.
  - change ([SP] ++ w ++ ?r) with ((SP :: w) ++ r).
    apply no_blank_app; [|apply IH; exact Hrest].
    intros [H|H]; [discriminate H|auto].
Qed.

Lemma fill_paragraph_clean (ws : list bytes) :
  (forall w, In w ws -> word w) ->
  clean (fill_paragraph width indent1 indent2 ws).
Proof.
  intros Hws. destruct ws as [|w ws]; [split; [reflexivity|discriminate]|].
  destruct (Hws w (or_introl eq_refl)) as [Hne Hlf].
  cbn [fill_paragraph]. split.
  - rewrite app_assoc. apply no_blank_app.
    + intros H. apply in_app_or in H.
      destruct H as [H|H]; [exact (indent1_no_LF H)|auto].
    + apply no_blank_fill. intros u Hu. apply Hws. right. exact Hu.
  - intros rest E. destruct indent1 as [|s i1].
    + destruct w as [|b w]; [congruence|]. cbn [app] in E.
      injection E as -> _. apply Hlf. left. reflexivity.
    + cbn [app] in E. injection E as -> _.
      apply indent1_no_LF. left. reflexivity.
Qed.

End Rewrap.

Lemma drop_empty_In (l : list bytes) (p : bytes) :
  In p (drop_empty l) -> In p l.
Proof.
  induction l as [|q l IH]; [auto|]. destruct q as [|x q]; cbn [drop_empty].
  - intros H. right. apply IH. exact H.
  - auto.
Qed.

Lemma inner_In (l : list bytes) (p : bytes) : In p (inner l) -> In p l.
Proof.
  unfold inner. intros H. apply in_rev in H.
  apply drop_empty_In in H. apply in_rev in H.
  apply drop_empty_In in H. exact H.
Qed.

(** A list that does not start with an empty string. *)
Lemma drop_empty_fixed (l : list bytes) :
  (forall rest, l <> [] :: rest) -> drop_empty l = l.
Proof.
  destruct l as [|[|x q] l]; intros H; [reflexivity| |reflexivity].
  destruct (H l eq_refl).
Qed.

Lemma drop_empty_head (l rest : list bytes) : drop_empty l <> [] :: rest.
Proof.
  induction l as [|[|x q] l IH]; cbn [drop_empty];
    [discriminate|exact IH|discriminate].
Qed.

Lemma drop_empty_last (l : list bytes) :
  (forall rest, rev l <> [] :: rest) ->
  forall rest, rev (drop_empty l) <> [] :: rest.
Proof.
  induction l as [|[|x q] l IH]; intros H rest; cbn [drop_empty];
    [discriminate| |apply H].
  apply IH. intros r E. cbn [rev] in H. apply (H (r ++ [[]])).
  rewrite E. reflexivity.
Qed.

Lemma inner_inner (l : list bytes) : inner (inner l) = inner l.
Proof.
  unfold inner. set (d := drop_empty (rev (drop_empty l))).
  rewrite (drop_empty_fixed (rev d)).
  - rewrite rev_involutive. unfold d.
    rewrite (drop_empty_fixed (drop_empty _)) by apply drop_empty_head.
    reflexivity.
  - unfold d. apply drop_empty_last. rewrite rev_involutive.
    apply drop_empty_head.
Qed.

Lemma Join_snoc (m : list bytes) (p sep : bytes) :
  Join (m ++ [p]) sep = concat (map (fun q => q ++ sep) m) ++ p.
Proof.
  induction m as [|a m IH]; [reflexivity|].
  cbn [app map concat]. rewrite Join_cons by (destruct m; discriminate).
  rewrite IH, <- !app_assoc. reflexivity.
Qed.

Lemma trim_left_pieces (l : list bytes) :
  (forall p rest, In p l -> p <> LF :: rest) ->
  trim_left_lf (concat (map (fun p => p ++ [LF; LF]) l))
  = concat (map (fun p => p ++ [LF; LF]) (drop_empty l)).
Proof.
  induction l as [|p l IH]; intros Hl; [reflexivity|].
  destruct p as [|x p]; cbn [drop_empty map concat app trim_left_lf].
  - destruct (ascii_dec LF LF) as [_|N]; [|congruence].
    apply IH. intros q rest Hq. apply Hl. right. exact Hq.
  - destruct (ascii_dec x LF) as [->|_]; [|reflexivity].
    destruct (Hl (LF :: p) p (or_introl eq_refl) eq_refl).
Qed.

Lemma trim_right_pieces (m : list bytes) :
  (forall p, In p m -> no_blank p = true) ->
  rev (trim_left_lf (rev (concat (map (fun p => p ++ [LF; LF]) m))))
  = Join (rev (drop_empty (rev m))) [LF; LF].
Proof.
  induction m as [|p m IH] using rev_ind; intros Hm; [reflexivity|].
  assert (Hrest : forall q, In q m -> no_blank q = true)
    by (intros q Hq; apply Hm; apply in_or_app; left; exact Hq).
  rewrite map_app, concat_app. cbn [map concat]. rewrite app_nil_r.
  rewrite !rev_app_distr. cbn [rev app trim_left_lf].
  destruct (ascii_dec LF LF) as [_|N]; [|congruence].
  destruct (rev p) as [|x r] eqn:Ep.
  - assert (p = []) as ->.
    { apply (f_equal (@rev ascii)) in Ep. rewrite rev_involutive in Ep.
      exact Ep. }
    cbn [app drop_empty]. apply IH. exact Hrest.
  - assert (Hp : p = rev r ++ [x]).
    { apply (f_equal (@rev ascii)) in Ep. rewrite rev_involutive in Ep.
      exact Ep. }
    assert (Hx : x <> LF).
    { apply (no_blank_last (rev r)). rewrite <- Hp. apply Hm.
      apply in_or_app. right. left. reflexivity. }
    cbn [app trim_left_lf]. destruct (ascii_dec x LF); [congruence|].
    assert (Hdrop : drop_empty (p :: rev m) = p :: rev m)
      by (rewrite Hp; destruct (rev r); reflexivity).
    rewrite Hdrop.
    replace (rev (p :: rev m)) with (m ++ [p])
      by (cbn [rev]; rewrite rev_involutive; reflexivity).
    rewrite Join_snoc.
    change (x :: r ++ ?t) with ((x :: r) ++ t). rewrite <- Ep.
    rewrite <- rev_app_distr, rev_involutive. reflexivity.
Qed.

(** The filled paragraphs, each with its blank line, trimmed: the
    paragraphs from the first to the last that is not empty, with blank
    lines between them. *)
Lemma TrimLF_pieces (l : list bytes) :
  (forall p, In p l ->
             no_blank p = true /\ forall rest, p <> LF :: rest) ->
  TrimLF (concat (map (fun p => p ++ [LF; LF]) l))
  = Join (inner l) [LF; LF].
Proof.
  intros Hl. unfold TrimLF, inner.
  rewrite trim_left_pieces by (intros p rest Hp; apply (Hl p Hp)).
  apply trim_right_pieces. intros p Hp. apply (Hl p).
  apply drop_empty_In. exact Hp.
Qed.

Lemma fields_from_In (s : bytes) (w : bytes) (c : ascii) :
  In c w ->
  forall cur : bytes, In w (fields_from cur s) -> In c cur \/ In c s.
Proof.
  intros Hc. induction s as [|b s IH]; intros cur H; cbn [fields_from] in H.
  - destruct cur as [|x cur]; [destruct H|].
    destruct H as [<-|[]]. left. apply in_rev. exact Hc.
  - destruct (is_delim b).
    + apply in_app_or in H. destruct H as [H|H].
      * destruct cur as [|x cur]; [destruct H|].
        destruct H as [<-|[]]. left. apply in_rev. exact Hc.
      * destruct (IH [] H) as [[]|H']. right. right. exact H'.
    + destruct (IH _ H) as [[<-|H']|H'].
      * right. left. reflexivity.
      * left. exact H'.
      * right. right. exact H'.
Qed.

(** X26.  Wrapping what has been wrapped changes nothing: when the
    prefixes hold only spaces and the text holds no CR, what [Wrap]
    returns for a text is returned as it is by [Wrap] with the same width
    and prefixes. *)
Theorem Wrap_idempotent (e : Env) (text : bytes) (width : Z)
  (indent1 indent2 : bytes) (out : bytes) :
  (forall c, In c indent1 -> c = SP) ->
  (forall c, In c indent2 -> c = SP) ->
  ~ In CR text ->
  Wrap e text width indent1 indent2 = Ok out ->
  Wrap e out width indent1 indent2 = Ok out.
Proof.
  intros H1 H2 Hcr Hwrap.
  assert (Hd1 : forall c, In c indent1 -> is_delim c = true)
    by (intros c Hc; rewrite (H1 c Hc); reflexivity).
  assert (Hd2 : forall c, In c indent2 -> is_delim c = true)
    by (intros c Hc; rewrite (H2 c Hc); reflexivity).
  assert (Hall : forall w, In w (text_words text) -> visible_len w <> Hang).
  { destruct (words_hang_or_not (text_words text)) as [[w [Hin Hw]]|H];
      [|exact H].
    unfold Wrap in Hwrap. rewrite (wrap_Hang _ _ _ _ w Hin Hw) in Hwrap.
    discriminate Hwrap. }
  pose proof (Wrap_Ok_fill_text _ _ _ _ _ _ Hwrap) as Hout.
  set (W := effective_width e width) in *.
  set (fps := map (fun par => fill_paragraph W indent1 indent2 (words par))
                (paragraphs text)).
  assert (Hfill : fill_text W indent1 indent2 text
                  = concat (map (fun p => p ++ [LF; LF]) fps)).
  { unfold fill_text, fps. rewrite map_map. reflexivity. }
  assert (Hword : forall par w,
             In w (words par) -> w <> [] /\ ~ In LF w).
  { intros par w Hw. split.
    - apply (fields_from_nonempty par [] w Hw).
    - apply (fields_from_no_LF par [] w); [intros []|exact Hw]. }
  assert (Hfps : forall p, In p fps ->
                           no_blank p = true /\ forall rest, p <> LF :: rest).
  { intros p Hp. unfold fps in Hp. apply in_map_iff in Hp.
    destruct Hp as [par [<- _]].
    apply fill_paragraph_clean;
      [exact (indent_no_LF _ H1)|exact (indent_no_LF _ H2)|apply Hword]. }
  assert (Hjoin : out = Join (inner fps) [LF; LF]).
  { rewrite Hout, Hfill. apply TrimLF_pieces. exact Hfps. }
  remember (inner fps) as core eqn:Ecore.
  destruct core as [|p0 core0]; [rewrite Hjoin; reflexivity|].
  assert (Hnocr : ~ In CR out).
  { intros H. rewrite Hout in H. apply TrimLF_In, fill_text_In in H.
    destruct H as [E|[E|[H|[H|[w [Hw Hc]]]]]].
    - discriminate E.
    - discriminate E.
    - apply H1 in H. discriminate H.
    - apply H2 in H. discriminate H.
    - unfold text_words in Hw. rewrite (Replace_without_CR text Hcr) in Hw.
      destruct (fields_from_In text w CR Hc [] Hw) as [[]|H]. exact (Hcr H). }
  assert (Hpars : paragraphs out = p0 :: core0).
  { unfold paragraphs. rewrite (Replace_without_CR out Hnocr), Hjoin.
    apply Split_Join_pieces; [discriminate|].
    intros p Hp. apply Hfps. apply inner_In. rewrite <- Ecore. exact Hp. }
  assert (Hwords : text_words out = text_words text).
  { unfold text_words at 1. rewrite (Replace_without_CR out Hnocr).
    rewrite Hout, words_TrimLF. apply words_fill_text; assumption. }
  rewrite Wrap_fill_text by (rewrite Hwords; exact Hall).
  fold W. f_equal. unfold fill_text. rewrite Hpars.
  assert (Hsame : map (fun par => fill_paragraph W indent1 indent2 (words par)
                                  ++ [LF; LF]) (p0 :: core0)
                  = map (fun p => p ++ [LF; LF]) (p0 :: core0)).
  { apply map_ext_in. intros p Hp. f_equal.
    assert (Hin : In p fps) by (apply inner_In; rewrite <- Ecore; exact Hp).
    unfold fps in Hin. apply in_map_iff in Hin.
    destruct Hin as [par [<- _]].
    rewrite words_fill_paragraph; [reflexivity|exact Hd1|exact Hd2|].
    intros w Hw. split.
    - apply (fields_from_nonempty par [] w Hw).
    - apply (fields_from_no_delim par [] w); [intros c []|exact Hw]. }
  rewrite Hsame, TrimLF_pieces.
  - rewrite Ecore, inner_inner, <- Ecore. symmetry. exact Hjoin.
  - intros p Hp. apply Hfps. apply inner_In. rewrite <- Ecore. exact Hp.
Qed.

Lemma Wrap_idempotent_witness :
  Wrap no_terminal
    (bs "  Just a" ++ [LF] ++ bs "  test" ++ [LF; LF] ++ bs "  sentence.")
    12 (bs "  ") (bs "  ")
  = Ok (bs "  Just a" ++ [LF] ++ bs "  test" ++ [LF; LF] ++ bs "  sentence.").
Proof.
  apply (Wrap_idempotent no_terminal
           (bs "Just a test" ++ [LF; LF; LF] ++ bs "sentence." ++ [LF])
           12 (bs "  ") (bs "  ")).
  - intros c [<-|[<-|[]]]; reflexivity.
  - intros c [<-|[<-|[]]]; reflexivity.
  - simpl. intros H.
    repeat (destruct H as [H|H]; [discriminate H|]). exact H.
  - vm_compute. reflexivity.
Defined.

(** ** Where the padding of a cell goes *)

(** X27.  The padding of a cell no wider than its column is as many
    spaces as the column has codepoints more than the cell: all before
    the cell under Right; under Center half of them before it, rounded
    down, and the rest after it; and all after it under Left and under
    any other value of the alignment.  The spaces after the cell are left
    out for the last cell of a row unless trailing whitespace is kept. *)
Theorem emit_cell_placement (opts : AlignOptions) (widths : list Z)
  (alignments : list Alignment) (n c : nat) (v : bytes) :
  utf8.RuneCountInString v <= nth c widths 0 ->
  exists l r : Z,
    0 <= l /\ 0 <= r
    /\ l + r = nth c widths 0 - utf8.RuneCountInString v
    /\ emit_cell opts widths alignments n c v
       = spaces l ++ v
         ++ (if padded opts (nth c alignments Left) n c
             then spaces r else [])
    /\ (nth c alignments Left = Right -> r = 0)
    /\ (nth c alignments Left = Center -> l <= r <= l + 1)
    /\ (nth c alignments Left <> Right ->
        nth c alignments Left <> Center -> l = 0).
Proof.
  intros Hle. unfold emit_cell, padded.
  set (w := nth c widths 0) in *. set (k := utf8.RuneCountInString v) in *.
  set (a := nth c alignments Left).
  destruct (Z.eqb_spec a Right) as [Er|Er].
  - exists (w - k), 0. cbn [orb]. change (spaces 0) with (@nil ascii).
    rewrite app_nil_r.
    repeat split; try reflexivity; try lia; try congruence;
      intros; unfold a, Right, Center in *; lia.
  - destruct (Z.eqb_spec a Center) as [Ec|Ec]; cbn [orb].
    + exists (Z.quot (w - k) 2), (w - (Z.quot (w - k) 2 + k)).
      repeat split; try reflexivity; try congruence;
        Z.quot_rem_to_equations; lia.
    + exists 0, (w - k). change (spaces 0) with (@nil ascii). cbn [app].
      repeat split; try reflexivity; try lia; congruence.
Qed.

Lemma emit_cell_placement_witness :
  exists l r : Z,
    0 <= l /\ 0 <= r
    /\ l + r = nth 0 [6] 0 - utf8.RuneCountInString (bs "abc")
    /\ emit_cell NewSimpleAlignOptions [6] [Center] 1 0 (bs "abc")
       = spaces l ++ bs "abc"
         ++ (if padded NewSimpleAlignOptions (nth 0 [Center] Left) 1 0
             then spaces r else [])
    /\ (nth 0 [Center] Left = Right -> r = 0)
    /\ (nth 0 [Center] Left = Center -> l <= r <= l + 1)
    /\ (nth 0 [Center] Left <> Right ->
        nth 0 [Center] Left <> Center -> l = 0).
Proof.
  apply (emit_cell_placement NewSimpleAlignOptions [6] [Center] 1 0
           (bs "abc")).
  vm_compute. discriminate.
Defined.

(** * Wrap: where the lines break *)

(** ** Escape sequences and where the lines break *)










(** The loops of [wrap] and the escape sequences of the words. *)
Section Stripping.

Variable width : Z.
Variables indent1 indent2 : bytes.

Hypothesis indent1_no_ESC : ~ In ESC indent1.
Hypothesis indent2_no_ESC : ~ In ESC indent2.





End Stripping.







(** ** Greedy filling, as the code does it *)

Lemma is_delim_false (c : ascii) :
  is_delim c = false <-> c <> SP /\ c <> LF.
Proof.
  unfold is_delim. destruct (ascii_dec c SP) as [->|Hs].
  - split; [discriminate|intros [H _]; congruence].
  - destruct (ascii_dec c LF) as [->|Hl].
    + split; [discriminate|intros [_ H]; congruence].
    + split; [intros _; split; assumption|reflexivity].
Qed.

Lemma is_delim_true (c : ascii) : is_delim c = true <-> c = SP \/ c = LF.
Proof.
  unfold is_delim. destruct (ascii_dec c SP) as [->|Hs].
  - split; [intros _; left; reflexivity|reflexivity].
  - destruct (ascii_dec c LF) as [->|Hl].
    + split; [intros _; right; reflexivity|reflexivity].
    + split; [discriminate|intros [H|H]; congruence].
Qed.

(** C8, as the code has it.  When the scan of every word comes to an end
    (it does for a word in which every ESC has an "m" after it, so for a
    word without ESC), [Wrap] returns the text filled paragraph by
    paragraph and trimmed of line feeds at both ends.  The words of a
    paragraph are its maximal runs of bytes other than space and line
    feed, whatever else they hold: spaces and line feeds before a word
    are passed over, and a word goes on to the next space or line feed.
    The first word of a paragraph is written behind the first-line
    prefix; a later word is written behind a line feed and the
    continuation prefix exactly when the length of the current line plus
    one plus the length of the word exceeds the effective width, and
    behind a single space otherwise; two line feeds end each paragraph.
    Lengths are numbers of bytes; the length of a word in which every ESC
    has an "m" after it is the number of its bytes outside its escape
    sequences, each running from an ESC to the next "m".  The empty text
    gives the empty text. *)
Theorem Wrap_greedy_fill (e : Env) (text : bytes) (width : Z)
  (indent1 indent2 : bytes) :
  (forall w, In w (text_words text) -> visible_len w <> Hang) ->
  Wrap e text width indent1 indent2
  = Ok (TrimLF (fill_text (effective_width e width) indent1 indent2 text))
  /\ Wrap e [] width indent1 indent2 = Ok []
  /\ (forall w : bytes, ~ In ESC w -> visible_len w = Ok (len w))
  /\ (forall w : bytes,
        escapes_closed w = true ->
        visible_len w = Ok (len (strip_escapes w)))
  /\ (forall w : bytes,
        In w (text_words text) -> w <> [] /\ ~ In SP w /\ ~ In LF w)
  /\ (forall w s : bytes,
        w <> [] -> ~ In SP w -> ~ In LF w ->
        (s = [] \/ exists d s', s = d :: s' /\ (d = SP \/ d = LF)) ->
        words (w ++ s) = w :: words s)
  /\ (forall ds s : bytes,
        (forall c, In c ds -> c = SP \/ c = LF) ->
        words (ds ++ s) = words s).
Proof.
  intros Htext. split; [|split; [|split; [|split; [|split; [|split]]]]].
  - apply Wrap_fill_text. exact Htext.
  - unfold Wrap. reflexivity.
  - exact visible_len_plain.
  - exact visible_len_strip.
  - intros w Hw. unfold text_words, words in Hw. split.
    + apply (fields_from_nonempty _ [] w Hw).
    + pose proof (fields_from_no_delim _ [] w (fun c (H : In c []) =>
                    match H with end) Hw) as Hd.
      split; intros H; apply Hd in H; discriminate H.
  - intros w s Hne Hsp Hlf Hs. apply words_word_then; [exact Hne| |].
    + intros c Hc. apply is_delim_false. split; intros ->; auto.
    + destruct Hs as [->|[d [s' [-> Hd]]]]; [left; reflexivity|].
      right. exists d, s'. split; [reflexivity|].
      apply is_delim_true. exact Hd.
  - intros ds s Hds. apply fields_from_delims.
    intros c Hc. apply is_delim_true. apply Hds. exact Hc.
Qed.

Lemma Wrap_greedy_fill_witness :
  Wrap no_terminal plain_sentence 10 (bs "1234") (bs "5678")
  = Ok (TrimLF (fill_text (effective_width no_terminal 10)
                  (bs "1234") (bs "5678") plain_sentence)).
Proof.
  refine (proj1 (Wrap_greedy_fill no_terminal plain_sentence 10
                   (bs "1234") (bs "5678") _)).
  intros w Hw. vm_compute in Hw.
  destruct Hw as [<-|[<-|[<-|[<-|[]]]]]; vm_compute; discriminate.
Defined.

(** C8, as it is worded, fails.  The first line of a second paragraph
    comes behind the first-line prefix, not the continuation prefix, and
    the blank line between the paragraphs behind none.  Tabs are bytes of
    words: two of them in a row stay, where two spaces become one.  Four
    line feeds in a row stay four.  Lengths are bytes: two letters of two
    bytes each with a space between them are three codepoints, and are
    broken at width 3.  And a first-line prefix that is a line feed is
    trimmed away with the line feeds at the ends. *)
Lemma Wrap_greedy_fill_as_worded_fails :
  (Wrap no_terminal (bs "a" ++ [LF; LF] ++ bs "b") 10 (bs "1") (bs "2")
   = Ok (bs "1a" ++ [LF; LF] ++ bs "1b")
   /\ lines_prefixed (bs "1") (bs "2") (bs "1a" ++ [LF; LF] ++ bs "1b")
      = false)
  /\ Wrap no_terminal (bs "a" ++ [TAB; TAB] ++ bs "b  c") 10 [] []
     = Ok (bs "a" ++ [TAB; TAB] ++ bs "b c")
  /\ Wrap no_terminal (bs "a" ++ [LF; LF; LF; LF] ++ bs "b") 10 [] []
     = Ok (bs "a" ++ [LF; LF; LF; LF] ++ bs "b")
  /\ (utf8.RuneCountInString (e_acute ++ [SP] ++ e_acute) = 3
      /\ Wrap no_terminal (e_acute ++ [SP] ++ e_acute) 3 [] []
         = Ok (e_acute ++ [LF] ++ e_acute))
  /\ Wrap no_terminal (bs "a") 10 [LF] [] = Ok (bs "a").
Proof.
  repeat split; vm_compute; reflexivity.
Qed.
